(** * wav-to-header: the header generator of the loop sampler

    A shallow embedding of [convert_wavs_to_header]
    (src/loop-sampler/wav-to-header.py) and the properties of the header
    it generates.

    NumPy's [float32] and [float64] arrays are modelled bit for bit with
    the IEEE-754 specification of the Standard Library ([SpecFloat],
    precision 24 / 53), [int16] values as [Z] with the wrap-around of the
    cast written out, text as [string], and the exceptions and the
    temporary file of the function with a small state-and-error monad. *)

From Stdlib Require Import ZArith List String Ascii Bool Lia.
From Stdlib Require Import DecimalString DecimalNat SpecFloat QArith_base Permutation.
Import ListNotations.

Local Open Scope Z_scope.

(** ** IEEE-754 arithmetic at the two widths NumPy uses *)

Module F32.
Definition prec : Z := 24.
Definition emax : Z := 128.
Definition add := SFadd prec emax.
Definition mul := SFmul prec emax.
Definition div := SFdiv prec emax.
Definition of_Z (z : Z) : spec_float := binary_normalize prec emax z 0 false.
Definition one : spec_float := of_Z 1.
Definition two : spec_float := of_Z 2.
End F32.

Module F64.
Definition prec : Z := 53.
Definition emax : Z := 1024.
Definition add := SFadd prec emax.
Definition div := SFdiv prec emax.
Definition of_Z (z : Z) : spec_float := binary_normalize prec emax z 0 false.
Definition zero : spec_float := S754_zero false.
End F64.

(** [ndarray.astype(np.float32)] on a [float64] array: round to nearest
    even at precision 24. *)
Definition f64_to_f32 (x : spec_float) : spec_float :=
  match x with
  | S754_finite s m e => binary_round F32.prec F32.emax s m e
  | _ => x
  end.

(** Truncation toward zero of a finite float; [None] for NaN and the
    infinities. *)
Definition trunc (x : spec_float) : option Z :=
  match x with
  | S754_zero _ => Some 0
  | S754_finite s m e =>
      let mag := match e with
                 | Zneg p => Z.pos m / 2 ^ Z.pos p
                 | _ => Z.pos m * 2 ^ e
                 end in
      Some (if s then - mag else mag)
  | _ => None
  end.

(** Two's-complement wrap into the [int16] range. *)
Definition wrap16 (z : Z) : Z := (z + 32768) mod 65536 - 32768.

(** [ndarray.astype(np.int16)] on a [float32] array.  NumPy performs the C
    cast, which on x86-64 converts to a 32-bit integer (cvttss2si) and
    keeps the low 16 bits: in-range values are truncated toward zero,
    values beyond [int16] wrap modulo 2^16, and NaN, the infinities and
    values beyond [int32] give the low half of 0x80000000, that is 0. *)
Definition astype_int16 (x : spec_float) : Z :=
  match trunc x with
  | Some t => if (-2147483648 <=? t) && (t <=? 2147483647) then wrap16 t else 0
  | None => 0
  end.

(** [np.clip(v, lo, hi)] on integers. *)
Definition clip (v lo hi : Z) : Z := Z.min (Z.max v lo) hi.

(** ** The decoded audio *)

(** What [wavfile.read] returns for an integer PCM file: a 1-D array for
    a mono file, a 2-D array (one row per frame, one column per channel)
    otherwise.  Elements are the PCM integers ([uint8], [int16], [int32]);
    files that store IEEE floats are outside this model. *)
Inductive ndarray :=
| Mono (samples : list Z)
| Multi (frames : list (list Z)).

(** [data.mean(axis=1)] on an integer array: NumPy accumulates each row in
    [float64] and divides by the number of columns.  The order in which
    it adds the columns does not show for PCM samples, whose partial sums
    are all exact ([row_sum_exact] below). *)
Definition row_sum (row : list Z) : spec_float :=
  fold_left (fun acc z => F64.add acc (F64.of_Z z)) row F64.zero.

Definition row_mean (row : list Z) : spec_float :=
  F64.div (row_sum row) (F64.of_Z (Z.of_nat (List.length row))).

(** Lines 25-28: collapse to mono when the array is 2-D, then
    [astype(np.float32)]. *)
Definition to_mono_f32 (a : ndarray) : list spec_float :=
  match a with
  | Mono samples => map F32.of_Z samples
  | Multi frames => map (fun row => f64_to_f32 (row_mean row)) frames
  end.

(** [np.maximum] as the reduction [np.max] applies it: the left operand is
    kept when it is NaN or not smaller. *)
Definition is_nan (x : spec_float) : bool :=
  match x with S754_nan => true | _ => false end.

Definition np_maximum (a b : spec_float) : spec_float :=
  if is_nan a || SFleb b a then a else b.

(** [np.max] raises [ValueError] on an empty array: [None]. *)
Definition np_max (d : list spec_float) : option spec_float :=
  match d with
  | [] => None
  | x :: t => Some (fold_left np_maximum t x)
  end.

(** [peak > 0], false for NaN. *)
Definition gt_zero (x : spec_float) : bool := SFltb (S754_zero false) x.

(** Lines 29-31: peak normalisation. *)
Definition normalize (d : list spec_float) : option (list spec_float) :=
  match np_max (map SFabs d) with
  | None => None
  | Some peak => Some (if gt_zero peak then map (fun x => F32.div x peak) d else d)
  end.

(** Line 33, for one sample:
    [np.clip(((x + 1) / 2 * (pwm_resolution - 1)).astype(np.int16), 0, 32767)].
    The factor [pwm_resolution - 1] is taken at [float32], as NumPy does
    with a Python number next to a [float32] array.  The conversion is
    written for every integer (a factor beyond the range of [float32]
    becomes an infinity); Python itself raises OverflowError for an
    integer that no [float] can hold, and such a resolution is outside
    this model. *)
Definition affine (pwm_resolution : Z) (x : spec_float) : spec_float :=
  F32.mul (F32.div (F32.add x F32.one) F32.two) (F32.of_Z (pwm_resolution - 1)).

Definition quantize (pwm_resolution : Z) (x : spec_float) : Z :=
  clip (astype_int16 (affine pwm_resolution x)) 0 32767.

(** Lines 25-33 for one decoded file; [None] is the [ValueError] of
    [np.max] on a file without frames. *)
Definition scale (pwm_resolution : Z) (a : ndarray) : option (list Z) :=
  match normalize (to_mono_f32 a) with
  | None => None
  | Some d => Some (map (quantize pwm_resolution) d)
  end.

(** ** Text generation *)

Section Text.
Local Open Scope string_scope.

Definition nl : string := String (ascii_of_nat 10) EmptyString.
Definition dquote : string := String (ascii_of_nat 34) EmptyString.

(** [str(n)] for a Python [int] and for a NumPy [int16]. *)
Definition str_nat (n : nat) : string := NilZero.string_of_uint (Nat.to_uint n).
Definition str_Z (z : Z) : string := NilZero.string_of_int (Z.to_int z).

(** [sep.join(parts)]. *)
Fixpoint join (sep : string) (parts : list string) : string :=
  match parts with
  | [] => EmptyString
  | [p] => p
  | p :: rest => p ++ sep ++ join sep rest
  end.

(** [range(0, n, step)] and the slice [l[i:j]]. *)
Definition range_step (n step : nat) : list nat :=
  map (fun k => (k * step)%nat) (seq 0 ((n + step - 1) / step)).

Definition slice {A} (l : list A) (i j : nat) : list A :=
  firstn (j - i) (skipn i l).

(** [os.path.basename] (POSIX): what follows the last slash. *)
Fixpoint contains (c : ascii) (s : string) : bool :=
  match s with
  | EmptyString => false
  | String d r => Ascii.eqb c d || contains c r
  end.

Fixpoint basename (p : string) : string :=
  match p with
  | EmptyString => EmptyString
  | String c r =>
      if contains "/" r then basename r
      else if Ascii.eqb c "/" then r else p
  end.

(** [os.path.splitext(p)[0]] for a path without a slash: the part before
    the last dot, unless only dots come before it. *)
Fixpoint upto_last_dot (p : string) : string :=
  match p with
  | EmptyString => EmptyString
  | String c r =>
      if contains "." r then String c (upto_last_dot r)
      else if Ascii.eqb c "." then EmptyString else p
  end.

Fixpoint all_dots (s : string) : bool :=
  match s with
  | EmptyString => true
  | String c r => Ascii.eqb c "." && all_dots r
  end.

Definition splitext_root (p : string) : string :=
  let r := upto_last_dot p in
  if all_dots r then p else r.

(** [s.replace(" ", "_")]. *)
Fixpoint replace_spaces (s : string) : string :=
  match s with
  | EmptyString => EmptyString
  | String c r => String (if Ascii.eqb c " " then "_"%char else c) (replace_spaces r)
  end.

(** Line 35. *)
Definition array_name_of (path : string) : string :=
  replace_spaces (splitext_root (basename path)).

(** Lines 36-40: the data array literal of one file. *)
Definition array_lines (array_name : string) (scaled : list Z) : list string :=
  app (("const int16_t " ++ array_name ++ "[] PROGMEM = {")
         :: map (fun i => join ", " (map str_Z (slice scaled i (i + 10))))
                (range_step (List.length scaled) 10))
      ["};" ++ nl].

Definition array_block (array_name : string) (scaled : list Z) : string :=
  join nl (array_lines array_name scaled).

(** Line 41: one manifest entry. *)
Definition sample_definition (sample_index : nat) (array_name : string)
    (size : nat) : string :=
  "    { " ++ str_nat sample_index ++ ", &" ++ array_name ++ "[0], "
    ++ str_nat size ++ ", " ++ dquote ++ array_name ++ dquote ++ " },".

(** Lines 13-19. *)
Definition header_lines (n : nat) : list string :=
  [ "#define NUM_SAMPLES " ++ str_nat n ++ nl ++ nl;
    "struct SampleData {" ++ nl ++
    "    const uint16_t index;" ++ nl ++
    "    const int16_t* data;" ++ nl ++
    "    const uint32_t size;" ++ nl ++
    "    const char* name;" ++ nl ++
    "};" ++ nl ++ nl ].

(** Line 44. *)
Definition sample_def_block (sample_definitions : list string) : string :=
  "SampleData sample[NUM_SAMPLES] = {" ++ nl
    ++ join nl sample_definitions ++ nl ++ "};" ++ nl ++ nl.

(** Line 45. *)
Definition assemble (n : nat) (sample_definitions array_blocks : list string)
    : string :=
  join EmptyString (header_lines n)
    ++ sample_def_block sample_definitions ++ join nl array_blocks.

End Text.

(** ** Exceptions and the temporary directory *)

Inductive error :=
| DecodeError (path : string)   (* [wavfile.read] could not decode the file *)
| ValueError                    (* [np.max] of an array without frames *)
| IOError.                      (* the temporary file could not be created *)

(** The temporary directory: the files written so far, a counter that
    stands for the fresh name [tempfile] picks, and whether it can be
    written to. *)
Record tmpdir := {
  tmp_files : list (string * string);
  tmp_next : nat;
  tmp_writable : bool
}.

Definition M (A : Type) : Type := tmpdir -> (error + A) * tmpdir.

Definition ret {A} (a : A) : M A := fun st => (inr a, st).
Definition raise {A} (e : error) : M A := fun st => (inl e, st).
Definition bind {A B} (m : M A) (k : A -> M B) : M B :=
  fun st =>
    match m st with
    | (inl e, st') => (inl e, st')
    | (inr a, st') => k a st'
    end.

Notation "x <- m ;; k" := (bind m (fun x => k))
  (at level 61, m at next level, right associativity).

(** An uploaded file: its path and what [wavfile.read] makes of its bytes
    ([None] when they are no valid WAV container). *)
Record upload := {
  name : string;
  decoded : option ndarray
}.

Definition wavfile_read (file : upload) : M ndarray :=
  match decoded file with
  | Some data => ret data
  | None => raise (DecodeError (name file))
  end.

Definition of_option {A} (e : error) (o : option A) : M A :=
  match o with
  | Some a => ret a
  | None => raise e
  end.

(** The three accumulators of the loop, lines 9-11 and 21. *)
Record loop_state := {
  sample_definitions : list string;
  array_blocks : list string;
  sample_index : nat
}.

(** One iteration of the loop, lines 23-42. *)
Definition loop_body (pwm_resolution : Z) (acc : loop_state) (file : upload)
    : M loop_state :=
  data <- wavfile_read file ;;
  scaled <- of_option ValueError (scale pwm_resolution data) ;;
  let array_name := array_name_of (name file) in
  ret {| sample_definitions :=
           sample_definitions acc ++
             [sample_definition (sample_index acc) array_name (List.length scaled)];
         array_blocks := array_blocks acc ++ [array_block array_name scaled];
         sample_index := S (sample_index acc) |}.

Fixpoint loop (pwm_resolution : Z) (files : list upload) (acc : loop_state)
    : M loop_state :=
  match files with
  | [] => ret acc
  | file :: rest =>
      acc' <- loop_body pwm_resolution acc file ;;
      loop pwm_resolution rest acc'
  end.

(** Lines 47-49: [NamedTemporaryFile(delete=False, suffix=".h")], write,
    return the path. *)
Definition tmp_path (n : nat) : string :=
  ("/tmp/tmp" ++ str_nat n ++ ".h")%string.

Definition write_temp (content : string) : M string :=
  fun st =>
    if tmp_writable st then
      let path := tmp_path (tmp_next st) in
      (inr path, {| tmp_files := (path, content) :: tmp_files st;
                    tmp_next := S (tmp_next st);
                    tmp_writable := true |})
    else (inl IOError, st).

(** The text of the header, lines 9-45. *)
Definition header_output (files : list upload) (pwm_resolution : Z) : M string :=
  acc <- loop pwm_resolution files
           {| sample_definitions := []; array_blocks := []; sample_index := 0 |} ;;
  ret (assemble (List.length files) (sample_definitions acc) (array_blocks acc)).

Definition convert_wavs_to_header (files : list upload) (pwm_resolution : Z)
    : M string :=
  text <- header_output files pwm_resolution ;;
  write_temp text.

Definition empty_tmpdir : tmpdir :=
  {| tmp_files := []; tmp_next := 0; tmp_writable := true |}.

(** ** Vocabulary of the statements *)

(** [len(data)] after the collapse to mono: the number of frames. *)
Definition frame_count (a : ndarray) : nat :=
  match a with
  | Mono samples => List.length samples
  | Multi frames => List.length frames
  end.

(** A file that decodes to audio with at least one frame. *)
Definition playable (file : upload) : bool :=
  match decoded file with
  | Some a => negb (Nat.eqb (frame_count a) 0)
  | None => false
  end.

Definition frames_of (file : upload) : nat :=
  match decoded file with
  | Some a => frame_count a
  | None => 0%nat
  end.

Definition scaled_of (pwm_resolution : Z) (file : upload) : list Z :=
  match decoded file with
  | Some a => match scale pwm_resolution a with Some v => v | None => [] end
  | None => []
  end.

(** The manifest entry and the data array the header holds for the file
    at position [i]. *)
Definition entry_of (i : nat) (file : upload) : string :=
  sample_definition i (array_name_of (name file)) (frames_of file).

Definition block_of (pwm_resolution : Z) (file : upload) : string :=
  array_block (array_name_of (name file)) (scaled_of pwm_resolution file).

Fixpoint entries_from (i : nat) (files : list upload) : list string :=
  match files with
  | [] => []
  | f :: rest => entry_of i f :: entries_from (S i) rest
  end.

(** ** Vocabulary of the rounding lemmas *)

(** Whether bits were lost by the shifts recorded in a [shr_record], and
    whether a location is off the grid. *)
Definition inexact (r : shr_record) : bool := shr_r r || shr_s r.

Definition is_inexact (l : location) : bool :=
  match l with loc_Exact => false | _ => true end.

Definition b2z (b : bool) : Z := if b then 1 else 0.

(** A float of sign [s] whose magnitude is at most [mb * 2 ^ eb], or a zero
    of sign [s]. *)
Definition below (mb eb : Z) (s : bool) (x : spec_float) : Prop :=
  match x with
  | S754_zero s' => s' = s
  | S754_finite s' m e => s' = s /\ e <= eb /\ Z.pos m <= mb * 2 ^ (eb - e)
  | _ => False
  end.

Section RoundingVocabulary.
Variables prec emax : Z.

(** By how many bits rounding shifts the mantissa [m] at exponent [e]. *)
Definition shift_of (m e : Z) : Z :=
  Z.max 0 (fexp prec emax (Zdigits2 m + e) - e).

(** The float a rounding ends with, from its final mantissa and exponent. *)
Definition pack (s : bool) (m e : Z) : spec_float :=
  match m with
  | Z0 => S754_zero s
  | Zpos p => if e <=? emax - prec then S754_finite s p e else S754_infinity s
  | Zneg _ => S754_nan
  end.

(** The magnitude of a float in units of the smallest subnormal. *)
Definition mag (x : spec_float) : Z :=
  match x with
  | S754_finite _ m e => Z.pos m * 2 ^ (e - emin prec emax)
  | S754_infinity _ => 2 ^ (emax - emin prec emax)
  | _ => 0
  end.

(** A valid float that is neither NaN nor negative: what [np.abs] returns
    on an array without NaN. *)
Definition absval (x : spec_float) : Prop :=
  valid_binary prec emax x = true /\
  match x with
  | S754_zero s | S754_infinity s | S754_finite s _ _ => s = false
  | S754_nan => False
  end.

End RoundingVocabulary.

(** ** Vocabulary of the numeric claims *)

(** The rational number a finite float stands for. *)
Definition SF2Q (x : spec_float) : Q :=
  match x with
  | S754_finite s m e =>
      let v := cond_Zopp s (Z.pos m) in
      match e with
      | Zneg p => Qmake v (2 ^ p)%positive
      | _ => inject_Z (v * 2 ^ e)
      end
  | _ => inject_Z 0
  end.

(** A [float32] that is valid and not NaN. *)
Definition good32 (x : spec_float) : Prop :=
  valid_binary F32.prec F32.emax x = true /\ x <> S754_nan.

(** A [float32] in the unit range: NaN, a zero, or a finite value of
    magnitude at most one. *)
Definition unit_abs (x : spec_float) : Prop :=
  match x with
  | S754_nan | S754_zero _ => True
  | S754_finite _ m e => e <= -23 /\ Z.pos m <= 8388608 * 2 ^ (-23 - e)
  | S754_infinity _ => False
  end.

Definition finite_or_zero (x : spec_float) : Prop :=
  match x with
  | S754_zero _ | S754_finite _ _ _ => True
  | _ => False
  end.

(** Integer PCM as a WAV file can hold it: samples within [int32], and
    between 1 and 65535 channels in every frame of a 2-D array. *)
Definition in_int32 (z : Z) : bool :=
  (-2147483648 <=? z) && (z <=? 2147483647).

Definition row_ok (row : list Z) : bool :=
  forallb in_int32 row
  && (1 <=? Z.of_nat (List.length row)) && (Z.of_nat (List.length row) <=? 65535).

Definition pcm_ok (a : ndarray) : bool :=
  match a with
  | Mono samples => forallb in_int32 samples
  | Multi frames => forallb row_ok frames
  end.

(** The exact sum of the channels of a frame. *)
Definition Zsum (row : list Z) : Z := fold_right Z.add 0 row.

(** Silence: every sample of every channel is zero. *)
Definition silent (a : ndarray) : bool :=
  match a with
  | Mono samples => forallb (Z.eqb 0) samples
  | Multi frames => forallb (forallb (Z.eqb 0)) frames
  end.


(** ** Vocabulary of the further properties *)

(** The exception a file that cannot be converted raises: the decoding
    error of [wavfile.read], or the [ValueError] of [np.max] when the
    file decodes to no frame. *)
Definition failure_of (file : upload) : error :=
  match decoded file with
  | None => DecodeError (name file)
  | Some _ => ValueError
  end.

(** The float twice as large: the exponent one up, the mantissa kept. *)
Definition double (x : spec_float) : spec_float :=
  match x with
  | S754_finite s m e => S754_finite s m (e + 1)
  | _ => x
  end.

(** The same audio at another level: every sample of every channel
    multiplied by [g]. *)
Definition amplify (g : Z) (a : ndarray) : ndarray :=
  match a with
  | Mono samples => Mono (map (Z.mul g) samples)
  | Multi frames => Multi (map (map (Z.mul g)) frames)
  end.
(** * Properties *)

(** ** Binary digits and shifts *)

Lemma digits2_pos_size p : digits2_pos p = Pos.size p.
Proof. induction p; simpl; congruence. Qed.

Lemma Zdigits2_log2 m : 0 < m -> Zdigits2 m = Z.log2 m + 1.
Proof.
  destruct m as [|p|p]; try lia. intros _. simpl.
  rewrite digits2_pos_size. destruct p; simpl; lia.
Qed.

Lemma Zdigits2_bounds m : 0 < m -> 2 ^ (Zdigits2 m - 1) <= m < 2 ^ Zdigits2 m.
Proof.
  intros H. rewrite Zdigits2_log2 by assumption.
  replace (Z.log2 m + 1 - 1) with (Z.log2 m) by lia.
  apply Z.log2_spec in H. unfold Z.succ in H. exact H.
Qed.

Lemma Zdigits2_pos m : 0 < m -> 0 < Zdigits2 m.
Proof. intros H. rewrite Zdigits2_log2 by assumption. pose proof (Z.log2_nonneg m). lia. Qed.

Lemma Zdigits2_le a b : 0 < a -> a <= b -> Zdigits2 a <= Zdigits2 b.
Proof.
  intros Ha Hab. rewrite !Zdigits2_log2 by lia.
  pose proof (Z.log2_le_mono a b Hab). lia.
Qed.

Lemma Zdigits2_mul_pow2 m k : 0 < m -> 0 <= k -> Zdigits2 (m * 2 ^ k) = Zdigits2 m + k.
Proof.
  intros Hm Hk. assert (0 < 2 ^ k) by (apply Z.pow_pos_nonneg; lia).
  rewrite !Zdigits2_log2 by nia.
  rewrite Z.log2_mul_pow2 by lia. lia.
Qed.

Lemma Zdigits2_div_pow2 m k :
  0 < m -> 0 <= k -> 2 ^ k <= m -> Zdigits2 (m / 2 ^ k) = Zdigits2 m - k.
Proof.
  intros Hm Hk Hle.
  assert (Hp : 0 < 2 ^ k) by (apply Z.pow_pos_nonneg; lia).
  assert (Hq : 0 < m / 2 ^ k) by (apply Z.div_str_pos; lia).
  rewrite !Zdigits2_log2 by lia.
  rewrite <- Z.shiftr_div_pow2 by lia.
  rewrite Z.log2_shiftr by lia.
  assert (k <= Z.log2 m) by (apply Z.log2_le_pow2; lia).
  lia.
Qed.

Lemma Zdigits2_lt_pow2 m d : 0 < m -> m < 2 ^ d -> Zdigits2 m <= d.
Proof.
  intros Hm Hlt.
  destruct (Z_lt_le_dec d (Zdigits2 m)) as [Hd|]; [|assumption].
  pose proof (Zdigits2_bounds m Hm) as [Hlo _].
  assert (0 <= d).
  { destruct (Z_lt_le_dec d 0); [|assumption]. rewrite Z.pow_neg_r in Hlt; lia. }
  assert (2 ^ d <= 2 ^ (Zdigits2 m - 1)) by (apply Z.pow_le_mono_r; lia).
  lia.
Qed.

(** The right shift of [shr], one bit at a time. *)

Lemma iter_pos_nat {A} (f : A -> A) p x :
  SpecFloat.iter_pos f p x = Nat.iter (Pos.to_nat p) f x.
Proof.
  revert x; induction p as [p IH|p IH|]; intros x; cbn [SpecFloat.iter_pos].
  - rewrite !IH. rewrite Pos2Nat.inj_xI.
    replace (S (2 * Pos.to_nat p)) with (Pos.to_nat p + S (Pos.to_nat p))%nat by lia.
    rewrite Nat.iter_add. f_equal.
    now rewrite Nat.iter_succ_r.
  - rewrite !IH. rewrite Pos2Nat.inj_xO.
    replace (2 * Pos.to_nat p)%nat with (Pos.to_nat p + Pos.to_nat p)%nat by lia.
    now rewrite Nat.iter_add.
  - reflexivity.
Qed.

Lemma shr_1_spec r :
  0 <= shr_m r ->
  shr_m (shr_1 r) = shr_m r / 2 /\
  inexact (shr_1 r) = inexact r || Z.odd (shr_m r).
Proof.
  destruct r as [m rb sb]; simpl. intros Hm.
  destruct m as [|[p|p|]|p]; try lia; unfold inexact; simpl; split;
    try reflexivity;
    try (rewrite ?orb_false_r, ?orb_true_r; reflexivity).
  - rewrite Pos2Z.inj_xI.
    apply (Z.div_unique (2 * Z.pos p + 1) 2 (Z.pos p) 1); lia.
  - rewrite Pos2Z.inj_xO.
    apply (Z.div_unique (2 * Z.pos p) 2 (Z.pos p) 0); lia.
Qed.

Lemma shr_iter_spec n r :
  0 <= shr_m r ->
  shr_m (Nat.iter n shr_1 r) = shr_m r / 2 ^ Z.of_nat n /\
  inexact (Nat.iter n shr_1 r) =
    inexact r || negb (shr_m r mod 2 ^ Z.of_nat n =? 0).
Proof.
  intros Hm. induction n as [|n [IHm IHi]].
  - simpl. rewrite Z.div_1_r, Z.mod_1_r. simpl. now rewrite orb_false_r.
  - rewrite Nat2Z.inj_succ.
    change (Nat.iter (S n) shr_1 r) with (shr_1 (Nat.iter n shr_1 r)).
    assert (Hp : 0 < 2 ^ Z.of_nat n) by (apply Z.pow_pos_nonneg; lia).
    assert (Hge : 0 <= shr_m (Nat.iter n shr_1 r)).
    { rewrite IHm. apply Z.div_pos; lia. }
    destruct (shr_1_spec _ Hge) as [H1 H2].
    rewrite H1, H2, IHm, IHi. unfold Z.succ.
    rewrite Z.pow_add_r by lia. change (2 ^ 1) with 2.
    split.
    + rewrite Z.div_div by lia. reflexivity.
    + rewrite <- orb_assoc. f_equal.
      set (m := shr_m r) in *. set (q := 2 ^ Z.of_nat n) in *.
      rewrite (Z.rem_mul_r m q 2) by lia.
      pose proof (Z.mod_pos_bound m q Hp).
      rewrite Zodd_mod.
      pose proof (Z.mod_pos_bound (m / q) 2 ltac:(lia)).
      destruct (Z.eqb_spec (m mod q) 0) as [E|E]; simpl.
      * rewrite E. simpl.
        destruct (Z.eqb_spec ((m / q) mod 2) 1) as [E1|E1];
        destruct (Z.eqb_spec (q * ((m / q) mod 2)) 0) as [E2|E2]; simpl; try reflexivity; nia.
      * destruct (Z.eqb_spec (m mod q + q * ((m / q) mod 2)) 0) as [E2|E2]; simpl; try reflexivity; nia.
Qed.

Lemma pos_iter_xO m d : Z.pos (Pos.iter xO m d) = Z.pos m * 2 ^ Z.pos d.
Proof.
  induction d as [|d IH] using Pos.peano_ind.
  - simpl. lia.
  - rewrite Pos.iter_succ, Pos2Z.inj_xO, IH, Pos2Z.inj_succ, Z.pow_succ_r by lia. lia.
Qed.

Lemma shl_align_spec mx ex ex' :
  let '(mz, ez) := shl_align mx ex ex' in
  ez = Z.min ex ex' /\ Z.pos mz = Z.pos mx * 2 ^ (ex - ez).
Proof.
  unfold shl_align. destruct (ex' - ex) as [|p|p] eqn:E.
  - split; [lia|]. rewrite Z.sub_diag. simpl. lia.
  - split; [lia|]. rewrite Z.sub_diag. simpl. lia.
  - split; [lia|]. rewrite pos_iter_xO. f_equal. f_equal. lia.
Qed.

Lemma new_location_inexact nb k :
  is_inexact (new_location nb k) = negb (k =? 0).
Proof.
  unfold new_location, new_location_even, new_location_odd.
  destruct (Z.even nb); destruct (k =? 0); reflexivity.
Qed.

Lemma Zdigits2_pow2 k : 0 <= k -> Zdigits2 (2 ^ k) = k + 1.
Proof.
  intros Hk. rewrite <- (Z.mul_1_l (2 ^ k)).
  rewrite Zdigits2_mul_pow2 by lia. change (Zdigits2 1) with 1. lia.
Qed.

(** ** Rounding to nearest even *)

Section Rounding.
Variables prec emax : Z.
Hypothesis Hprec : 1 < prec.
Hypothesis Hemax : prec < emax.

Local Abbreviation fexp := (fexp prec emax).
Local Abbreviation emin := (emin prec emax).
Local Abbreviation shift_of := (shift_of prec emax).
Local Abbreviation pack := (pack prec emax).
Local Abbreviation mag := (mag prec emax).
Local Abbreviation absval := (absval prec emax).

Lemma fexp_mono a b : a <= b -> fexp a <= fexp b.
Proof. unfold SpecFloat.fexp. lia. Qed.

Lemma fexp_ge_emin a : emin <= fexp a.
Proof. unfold SpecFloat.fexp. lia. Qed.

Lemma shr_record_of_loc_spec m l :
  shr_m (shr_record_of_loc m l) = m /\
  inexact (shr_record_of_loc m l) = is_inexact l.
Proof. destruct l as [|[ | | ]]; split; reflexivity. Qed.

Lemma shr_fexp_spec m e l :
  0 <= m ->
  snd (shr_fexp prec emax m e l) = e + shift_of m e /\
  shr_m (fst (shr_fexp prec emax m e l)) = m / 2 ^ shift_of m e /\
  inexact (fst (shr_fexp prec emax m e l)) =
    is_inexact l || negb (m mod 2 ^ shift_of m e =? 0).
Proof.
  intros Hm. unfold shr_fexp, shift_of, shr.
  destruct (shr_record_of_loc_spec m l) as [Hrm Hri].
  destruct (fexp (Zdigits2 m + e) - e) as [|p|p] eqn:E.
  - simpl. rewrite Z.div_1_r, Z.mod_1_r, Hrm, Hri. simpl.
    rewrite orb_false_r. repeat split; lia.
  - cbn [fst snd]. rewrite iter_pos_nat.
    destruct (shr_iter_spec (Pos.to_nat p) (shr_record_of_loc m l)) as [H1 H2];
      [rewrite Hrm; assumption|].
    rewrite positive_nat_Z in H1, H2.
    rewrite H1, H2, Hrm, Hri.
    replace (Z.max 0 (Z.pos p)) with (Z.pos p) by lia.
    repeat split.
  - simpl. rewrite Z.div_1_r, Z.mod_1_r, Hrm, Hri. simpl.
    rewrite orb_false_r. repeat split; lia.
Qed.

Lemma round_nearest_even_range r :
  shr_m r <= round_nearest_even (shr_m r) (loc_of_shr_record r)
          <= shr_m r + b2z (inexact r).
Proof.
  destruct r as [m [|] [|]]; unfold inexact; simpl; try lia.
  destruct (Z.even m); lia.
Qed.

(** The shape of every rounding: a shift to the target exponent, a step
    of at most one unit, and a second shift. *)
Lemma binary_round_aux_spec s mx ex lx :
  0 <= mx ->
  exists m2,
    let k1 := shift_of mx ex in
    let e1 := ex + k1 in
    let m1 := mx / 2 ^ k1 in
    let k3 := shift_of m2 e1 in
    m1 <= m2 <= m1 + b2z (is_inexact lx || negb (mx mod 2 ^ k1 =? 0)) /\
    binary_round_aux prec emax s mx ex lx = pack s (m2 / 2 ^ k3) (e1 + k3).
Proof.
  intros Hm. unfold binary_round_aux.
  destruct (shr_fexp_spec mx ex lx Hm) as [He1 [Hm1 Hi1]].
  destruct (shr_fexp prec emax mx ex lx) as [r1 e1]. cbn [fst snd] in *.
  set (m2 := round_nearest_even (shr_m r1) (loc_of_shr_record r1)).
  pose proof (round_nearest_even_range r1) as Hr. fold m2 in Hr.
  assert (Hp : 0 < 2 ^ shift_of mx ex)
    by (apply Z.pow_pos_nonneg; unfold shift_of; lia).
  assert (Hm1pos : 0 <= shr_m r1) by (rewrite Hm1; apply Z.div_pos; lia).
  assert (Hm2 : 0 <= m2) by lia.
  destruct (shr_fexp_spec m2 e1 loc_Exact Hm2) as [He3 [Hm3 _]].
  destruct (shr_fexp prec emax m2 e1 loc_Exact) as [r3 e3]. cbn [fst snd] in *.
  exists m2. cbv zeta. rewrite <- He1, <- Hm1, <- Hi1.
  split; [exact Hr|].
  rewrite <- Hm3, <- He3. unfold pack. reflexivity.
Qed.

(** One shift keeps a value under a bound that lies on the coarser grid. *)
Lemma shift_upper m e (inex : bool) mb eb :
  0 <= m -> 0 < mb ->
  fexp (Zdigits2 mb + eb) = eb ->
  e <= eb ->
  m + b2z inex <= mb * 2 ^ (eb - e) ->
  let k := shift_of m e in
  e + k <= eb /\
  m / 2 ^ k + b2z (inex || negb (m mod 2 ^ k =? 0)) <= mb * 2 ^ (eb - (e + k)).
Proof.
  intros Hm Hmb Hcan Hle Hup k.
  assert (Hk0 : 0 <= k) by (unfold k, shift_of; lia).
  assert (Hek : e + k <= eb).
  { unfold k, shift_of.
    destruct (Z.max_spec 0 (fexp (Zdigits2 m + e) - e)) as [[_ ->]|[_ ->]]; [|lia].
    replace (e + (fexp (Zdigits2 m + e) - e)) with (fexp (Zdigits2 m + e)) by lia.
    rewrite <- Hcan. apply fexp_mono.
    destruct (Z.eq_dec m 0) as [->|Hne].
    - simpl. pose proof (Zdigits2_pos mb Hmb). lia.
    - assert (Zdigits2 m <= Zdigits2 (mb * 2 ^ (eb - e))).
      { apply Zdigits2_le; [lia|]. destruct inex; cbv [b2z] in Hup; lia. }
      rewrite Zdigits2_mul_pow2 in H by lia. lia. }
  split; [assumption|].
  assert (Hp : 0 < 2 ^ k) by (apply Z.pow_pos_nonneg; lia).
  set (K := mb * 2 ^ (eb - (e + k))).
  assert (HK : mb * 2 ^ (eb - e) = K * 2 ^ k).
  { unfold K. rewrite <- Z.mul_assoc, <- Z.pow_add_r by lia.
    f_equal. f_equal. lia. }
  rewrite HK in Hup.
  pose proof (Z.div_mod m (2 ^ k) ltac:(lia)) as Hdm.
  pose proof (Z.mod_pos_bound m (2 ^ k) Hp) as Hmod.
  destruct (Z.eqb_spec (m mod 2 ^ k) 0) as [E|E].
  - rewrite orb_false_r. rewrite E in Hdm.
    destruct inex; cbv [b2z] in *; nia.
  - rewrite orb_true_r. simpl.
    assert (Hub : m <= K * 2 ^ k) by (destruct inex; cbv [b2z] in Hup; lia).
    clear Hup HK. generalize dependent (m / 2 ^ k). generalize dependent (m mod 2 ^ k).
    generalize dependent (2 ^ k). intros P HP r Hr Hr0 q Hq. nia.
Qed.

Lemma binary_round_aux_upper s mx ex lx mb eb :
  0 <= mx -> 0 < mb ->
  fexp (Zdigits2 mb + eb) = eb -> eb <= emax - prec ->
  ex <= eb ->
  mx + b2z (is_inexact lx) <= mb * 2 ^ (eb - ex) ->
  below mb eb s (binary_round_aux prec emax s mx ex lx).
Proof.
  intros Hm Hmb Hcan Hfin Hle Hup.
  destruct (binary_round_aux_spec s mx ex lx Hm) as [m2 [Hm2 ->]].
  cbv zeta in Hm2.
  destruct (shift_upper mx ex (is_inexact lx) mb eb Hm Hmb Hcan Hle Hup) as [He1 Hup1].
  cbv zeta in He1, Hup1.
  set (k1 := shift_of mx ex) in *. set (e1 := ex + k1) in *.
  assert (Hp1 : 0 < 2 ^ k1) by (apply Z.pow_pos_nonneg; unfold k1, shift_of; lia).
  assert (H0m2 : 0 <= m2).
  { assert (0 <= mx / 2 ^ k1) by (apply Z.div_pos; lia). lia. }
  assert (Hup2 : m2 + b2z false <= mb * 2 ^ (eb - e1)) by (simpl; lia).
  destruct (shift_upper m2 e1 false mb eb H0m2 Hmb Hcan He1 Hup2) as [He3 Hup3].
  cbv zeta in He3, Hup3.
  set (k3 := shift_of m2 e1) in *.
  assert (Hp3 : 0 < 2 ^ k3) by (apply Z.pow_pos_nonneg; unfold k3, shift_of; lia).
  assert (H0m3 : 0 <= m2 / 2 ^ k3) by (apply Z.div_pos; lia).
  assert (Hb : 0 <= b2z (false || negb (m2 mod 2 ^ k3 =? 0)))
    by (destruct (false || negb (m2 mod 2 ^ k3 =? 0)); simpl; lia).
  unfold pack, below.
  destruct (m2 / 2 ^ k3) as [|p|p] eqn:E; [reflexivity| |lia].
  destruct (Z.leb_spec (e1 + k3) (emax - prec)); [|lia].
  repeat split; lia.
Qed.

Lemma shift_canonical m e :
  0 < m -> e <= fexp (Zdigits2 m + e) ->
  let k := shift_of m e in
  e + k = fexp (Zdigits2 m + e) /\
  (0 < m / 2 ^ k -> fexp (Zdigits2 (m / 2 ^ k) + (e + k)) = e + k) /\
  (m / 2 ^ k = 0 -> e + k = emin).
Proof.
  intros Hm He k.
  assert (Hk : k = fexp (Zdigits2 m + e) - e) by (unfold k, shift_of; lia).
  assert (Hk0 : 0 <= k) by lia.
  assert (Hp : 0 < 2 ^ k) by (apply Z.pow_pos_nonneg; lia).
  split; [lia|]. split.
  - intros Hq.
    assert (2 ^ k <= m).
    { destruct (Z_lt_le_dec m (2 ^ k)) as [Hlt|]; [|assumption].
      rewrite Z.div_small in Hq by lia. lia. }
    rewrite Zdigits2_div_pow2 by lia.
    replace (Zdigits2 m - k + (e + k)) with (Zdigits2 m + e) by lia. lia.
  - intros Hq.
    assert (m < 2 ^ k).
    { destruct (Z_lt_le_dec m (2 ^ k)) as [|Hge]; [assumption|].
      assert (0 < m / 2 ^ k) by (apply Z.div_str_pos; lia). lia. }
    pose proof (Zdigits2_lt_pow2 m k Hm H).
    unfold SpecFloat.fexp in *. lia.
Qed.

Lemma pack_valid s m e :
  0 <= m -> (0 < m -> fexp (Zdigits2 m + e) = e) ->
  valid_binary prec emax (pack s m e) = true.
Proof.
  intros Hm Hc. unfold pack. destruct m as [|p|p]; [reflexivity| |lia].
  destruct (Z.leb_spec e (emax - prec)); [|reflexivity].
  simpl. unfold bounded, canonical_mantissa.
  specialize (Hc ltac:(lia)). simpl in Hc.
  apply andb_true_iff. split; [apply Z.eqb_eq; exact Hc|apply Z.leb_le; assumption].
Qed.

Lemma pack_not_nan s m e : 0 <= m -> pack s m e <> S754_nan.
Proof.
  intros Hm. unfold pack. destruct m; [discriminate| |lia].
  destruct (e <=? emax - prec); discriminate.
Qed.

Lemma binary_round_aux_not_nan s mx ex lx :
  0 <= mx -> binary_round_aux prec emax s mx ex lx <> S754_nan.
Proof.
  intros Hm.
  destruct (binary_round_aux_spec s mx ex lx Hm) as [m2 [Hm2 ->]].
  cbv zeta in Hm2. apply pack_not_nan.
  assert (0 < 2 ^ shift_of mx ex)
    by (apply Z.pow_pos_nonneg; unfold shift_of; lia).
  assert (0 <= mx / 2 ^ shift_of mx ex) by (apply Z.div_pos; lia).
  apply Z.div_pos; [lia|].
  apply Z.pow_pos_nonneg; unfold shift_of; lia.
Qed.

Lemma binary_round_aux_valid s mx ex lx :
  0 < mx -> ex <= fexp (Zdigits2 mx + ex) ->
  valid_binary prec emax (binary_round_aux prec emax s mx ex lx) = true.
Proof.
  intros Hm He.
  destruct (binary_round_aux_spec s mx ex lx ltac:(lia)) as [m2 [Hm2 ->]].
  cbv zeta in Hm2.
  destruct (shift_canonical mx ex Hm He) as [He1 [Hc1 Hz1]]. cbv zeta in *.
  set (k1 := shift_of mx ex) in *.
  set (e1 := ex + k1) in *.
  assert (Hp1 : 0 < 2 ^ k1) by (apply Z.pow_pos_nonneg; unfold k1, shift_of; lia).
  assert (H0m1 : 0 <= mx / 2 ^ k1) by (apply Z.div_pos; lia).
  assert (Hp3 : 0 < 2 ^ shift_of m2 e1)
    by (apply Z.pow_pos_nonneg; unfold shift_of; lia).
  apply pack_valid; [apply Z.div_pos; lia|].
  intros Hm3.
  assert (H0m2 : 0 < m2).
  { destruct (Z.eq_dec m2 0) as [->|]; [|lia]. rewrite Z.div_0_l in Hm3; lia. }
  assert (He2 : e1 <= fexp (Zdigits2 m2 + e1)).
  { destruct (Z.eq_dec (mx / 2 ^ k1) 0) as [E|E].
    - rewrite (Hz1 E). apply fexp_ge_emin.
    - rewrite <- (Hc1 ltac:(lia)) at 1. apply fexp_mono.
      pose proof (Zdigits2_le (mx / 2 ^ k1) m2 ltac:(lia) ltac:(lia)). lia. }
  destruct (shift_canonical m2 e1 H0m2 He2) as [_ [Hc3 _]].
  apply Hc3. exact Hm3.
Qed.

Lemma binary_round_valid s mx ex :
  valid_binary prec emax (binary_round prec emax s mx ex) = true.
Proof.
  unfold binary_round.
  pose proof (shl_align_spec mx ex (fexp (Z.pos (digits2_pos mx) + ex))) as Hs.
  destruct (shl_align mx ex (fexp (Z.pos (digits2_pos mx) + ex))) as [mz ez].
  destruct Hs as [Hez Hmz].
  apply binary_round_aux_valid; [lia|].
  rewrite Hmz, Zdigits2_mul_pow2 by lia.
  change (Zdigits2 (Z.pos mx)) with (Z.pos (digits2_pos mx)).
  replace (Z.pos (digits2_pos mx) + (ex - ez) + ez) with (Z.pos (digits2_pos mx) + ex)
    by lia.
  lia.
Qed.

Lemma binary_round_not_nan s mx ex :
  binary_round prec emax s mx ex <> S754_nan.
Proof.
  unfold binary_round.
  destruct (shl_align mx ex (fexp (Z.pos (digits2_pos mx) + ex))) as [mz ez].
  apply binary_round_aux_not_nan. lia.
Qed.

Lemma binary_normalize_valid m e sz :
  valid_binary prec emax (binary_normalize prec emax m e sz) = true.
Proof. destruct m; simpl; [reflexivity| |]; apply binary_round_valid. Qed.

Lemma binary_normalize_not_nan m e sz :
  binary_normalize prec emax m e sz <> S754_nan.
Proof. destruct m; simpl; [discriminate| |]; apply binary_round_not_nan. Qed.

(** A value that is representable is returned as it is. *)
Lemma binary_round_aux_exact s mz ez M E :
  0 < M ->
  fexp (Zdigits2 M + E) = E -> E <= emax - prec ->
  ez <= E -> mz = M * 2 ^ (E - ez) ->
  binary_round_aux prec emax s mz ez loc_Exact = S754_finite s (Z.to_pos M) E.
Proof.
  intros HM Hcan Hfin Hle Hmz.
  assert (Hp : 0 < 2 ^ (E - ez)) by (apply Z.pow_pos_nonneg; lia).
  destruct (binary_round_aux_spec s mz ez loc_Exact ltac:(nia)) as [m2 [Hm2 ->]].
  cbv zeta in Hm2.
  assert (Hdz : Zdigits2 mz + ez = Zdigits2 M + E).
  { rewrite Hmz, Zdigits2_mul_pow2 by lia. lia. }
  assert (Hk1 : shift_of mz ez = E - ez).
  { unfold shift_of. rewrite Hdz, Hcan. lia. }
  rewrite Hk1 in *.
  rewrite Hmz in Hm2.
  rewrite Z.div_mul, Z.mod_mul in Hm2 by lia. simpl in Hm2.
  assert (m2 = M) by lia. subst m2.
  replace (ez + (E - ez)) with E by lia.
  assert (Hk3 : shift_of M E = 0).
  { unfold shift_of. rewrite Hcan. lia. }
  rewrite Hk3, Z.div_1_r, Z.add_0_r.
  unfold pack. destruct M as [|p|p]; try lia.
  destruct (Z.leb_spec E (emax - prec)); [reflexivity|lia].
Qed.

Lemma binary_round_exact s mx ex M E :
  0 < M ->
  fexp (Zdigits2 M + E) = E -> E <= emax - prec ->
  Z.pos mx * 2 ^ (ex - Z.min ex E) = M * 2 ^ (E - Z.min ex E) ->
  binary_round prec emax s mx ex = S754_finite s (Z.to_pos M) E.
Proof.
  intros HM Hcan Hfin Hval.
  assert (Hd : Z.pos (digits2_pos mx) + ex = Zdigits2 M + E).
  { assert (Zdigits2 (Z.pos mx * 2 ^ (ex - Z.min ex E)) =
            Zdigits2 (M * 2 ^ (E - Z.min ex E))) by congruence.
    rewrite !Zdigits2_mul_pow2 in H by lia.
    change (Zdigits2 (Z.pos mx)) with (Z.pos (digits2_pos mx)) in H. lia. }
  unfold binary_round. rewrite Hd, Hcan.
  pose proof (shl_align_spec mx ex E) as Hs.
  destruct (shl_align mx ex E) as [mz ez]. destruct Hs as [Hez Hmz].
  subst ez. rewrite Hval in Hmz.
  apply binary_round_aux_exact; try assumption. lia.
Qed.


Lemma bounded_canonical m e :
  bounded prec emax m e = true ->
  fexp (Zdigits2 (Z.pos m) + e) = e /\ e <= emax - prec /\ emin <= e /\
  Z.pos m < 2 ^ prec.
Proof.
  unfold bounded, canonical_mantissa. intros H.
  apply andb_true_iff in H as [Hc Hb].
  apply Z.eqb_eq in Hc. apply Z.leb_le in Hb.
  change (Z.pos (digits2_pos m)) with (Zdigits2 (Z.pos m)) in Hc.
  repeat split; try assumption.
  - rewrite <- Hc. apply fexp_ge_emin.
  - pose proof (Zdigits2_bounds (Z.pos m) ltac:(lia)) as [_ Hlt].
    assert (Zdigits2 (Z.pos m) <= prec) by (unfold SpecFloat.fexp in Hc; lia).
    assert (2 ^ Zdigits2 (Z.pos m) <= 2 ^ prec) by (apply Z.pow_le_mono_r; lia).
    lia.
Qed.

Lemma canonical_lt m1 e1 m2 e2 :
  bounded prec emax m1 e1 = true -> bounded prec emax m2 e2 = true ->
  e1 < e2 ->
  Z.pos m1 * 2 ^ (e1 - emin) < Z.pos m2 * 2 ^ (e2 - emin).
Proof.
  intros H1 H2 Hlt.
  destruct (bounded_canonical _ _ H1) as [_ [_ [Hmin1 Hm1]]].
  destruct (bounded_canonical _ _ H2) as [Hc2 [_ [Hmin2 _]]].
  assert (Hd2 : Zdigits2 (Z.pos m2) = prec) by (unfold SpecFloat.fexp in Hc2; lia).
  pose proof (Zdigits2_bounds (Z.pos m2) ltac:(lia)) as [Hlo _].
  rewrite Hd2 in Hlo.
  replace (e2 - emin) with ((e1 - emin) + (e2 - e1)) by lia.
  rewrite Z.pow_add_r by lia.
  assert (HA : 0 < 2 ^ (e1 - emin)) by (apply Z.pow_pos_nonneg; lia).
  assert (HT : 2 ^ 1 <= 2 ^ (e2 - e1)) by (apply Z.pow_le_mono_r; lia).
  change (2 ^ 1) with 2 in HT.
  assert (HP : 2 ^ prec = 2 * 2 ^ (prec - 1)).
  { replace prec with (1 + (prec - 1)) at 1 by lia. rewrite Z.pow_add_r by lia. reflexivity. }
  rewrite HP in Hm1.
  set (P := 2 ^ (prec - 1)) in *. set (A := 2 ^ (e1 - emin)) in *.
  set (T := 2 ^ (e2 - e1)) in *. clearbody P A T.
  assert (Z.pos m1 * A < 2 * P * A) by nia.
  assert (P * A <= Z.pos m2 * A) by nia.
  assert (Z.pos m2 * A * 2 <= Z.pos m2 * A * T) by nia.
  lia.
Qed.

Lemma finite_lt_infinity m e :
  bounded prec emax m e = true ->
  Z.pos m * 2 ^ (e - emin) < 2 ^ (emax - emin).
Proof.
  intros H. destruct (bounded_canonical _ _ H) as [_ [Hfin [Hmin Hm]]].
  assert (HA : 0 < 2 ^ (e - emin)) by (apply Z.pow_pos_nonneg; lia).
  assert (2 ^ (prec + (e - emin)) <= 2 ^ (emax - emin)) by (apply Z.pow_le_mono_r; lia).
  rewrite Z.pow_add_r in H0 by lia. nia.
Qed.

Lemma SFleb_mag a b :
  absval a -> absval b -> SFleb a b = (mag a <=? mag b).
Proof.
  intros [Va Sa] [Vb Sb]. unfold SFleb, SFcompare.
  destruct a as [sa|sa| |sa ma ea]; try contradiction;
  destruct b as [sb|sb| |sb mb eb]; try contradiction; subst; simpl in Va, Vb; cbn [mag].
  - reflexivity.
  - symmetry. apply Z.leb_le. apply Z.pow_nonneg. lia.
  - symmetry. apply Z.leb_le.
    destruct (bounded_canonical _ _ Vb) as [_ [_ [Hmin _]]].
    assert (0 < 2 ^ (eb - emin)) by (apply Z.pow_pos_nonneg; lia). lia.
  - symmetry. apply Z.leb_gt. apply Z.pow_pos_nonneg; [lia|].
    unfold SpecFloat.emin. lia.
  - symmetry. apply Z.leb_le. lia.
  - symmetry. apply Z.leb_gt. apply finite_lt_infinity. assumption.
  - symmetry. apply Z.leb_gt.
    destruct (bounded_canonical _ _ Va) as [_ [_ [Hmin _]]].
    assert (0 < 2 ^ (ea - emin)) by (apply Z.pow_pos_nonneg; lia). lia.
  - symmetry. apply Z.leb_le. pose proof (finite_lt_infinity _ _ Va). lia.
  - destruct (Z.compare_spec ea eb) as [E|E|E].
    + subst eb. rewrite Pos.compare_cont_spec. unfold Pos.switch_Eq.
      destruct (bounded_canonical _ _ Va) as [_ [_ [Hmin _]]].
      assert (0 < 2 ^ (ea - emin)) by (apply Z.pow_pos_nonneg; lia).
      set (A := 2 ^ (ea - emin)) in *. clearbody A.
      destruct (Pos.compare_spec ma mb) as [E|E|E]; symmetry;
        [apply Z.leb_le|apply Z.leb_le|apply Z.leb_gt]; subst;
        try apply Pos2Z.pos_lt_pos in E; nia.
    + symmetry. apply Z.leb_le. pose proof (canonical_lt _ _ _ _ Va Vb E). lia.
    + symmetry. apply Z.leb_gt. apply (canonical_lt _ _ _ _ Vb Va E).
Qed.

Lemma np_maximum_spec a b :
  absval a -> absval b ->
  (np_maximum a b = a \/ np_maximum a b = b) /\
  mag a <= mag (np_maximum a b) /\ mag b <= mag (np_maximum a b).
Proof.
  intros Ha Hb. unfold np_maximum.
  replace (is_nan a) with false by (destruct Ha as [_ Ha]; destruct a; try reflexivity; contradiction).
  rewrite (SFleb_mag b a Hb Ha). simpl.
  destruct (Z.leb_spec (mag b) (mag a)); split; auto; lia.
Qed.

Lemma fold_maximum_spec l : forall x0,
  absval x0 -> Forall absval l ->
  absval (fold_left np_maximum l x0) /\
  mag x0 <= mag (fold_left np_maximum l x0) /\
  Forall (fun y => mag y <= mag (fold_left np_maximum l x0)) l.
Proof.
  induction l as [|y l IH]; intros x0 H0 Hl; simpl.
  - repeat split; try apply H0; [lia|constructor].
  - inversion Hl as [|? ? Hy Hl']; subst.
    destruct (np_maximum_spec x0 y H0 Hy) as [Hor [Hx Hy']].
    assert (Hm : absval (np_maximum x0 y)) by (destruct Hor as [-> | ->]; assumption).
    destruct (IH _ Hm Hl') as [Ha [Hb Hc]].
    split; [assumption|]. split; [lia|].
    constructor; [lia|assumption].
Qed.

Lemma binary_round_upper s mx ex mb eb :
  0 < mb ->
  fexp (Zdigits2 mb + eb) = eb -> eb <= emax - prec ->
  ex <= eb ->
  Z.pos mx <= mb * 2 ^ (eb - ex) ->
  below mb eb s (binary_round prec emax s mx ex).
Proof.
  intros Hmb Hcan Hfin Hle Hup. unfold binary_round.
  pose proof (shl_align_spec mx ex (fexp (Z.pos (digits2_pos mx) + ex))) as Hs.
  destruct (shl_align mx ex (fexp (Z.pos (digits2_pos mx) + ex))) as [mz ez].
  destruct Hs as [Hez Hmz].
  apply binary_round_aux_upper; try assumption; try lia.
  cbn [is_inexact b2z]. rewrite Z.add_0_r, Hmz.
  replace (eb - ez) with ((eb - ex) + (ex - ez)) by lia.
  rewrite Z.pow_add_r by lia.
  assert (0 < 2 ^ (ex - ez)) by (apply Z.pow_pos_nonneg; lia).
  nia.
Qed.

Lemma SFdiv_core_binary_spec m1 e1 m2 e2 :
  0 < m1 -> 0 < m2 ->
  let e' := Z.min (fexp (Zdigits2 m1 + e1 - (Zdigits2 m2 + e2))) (e1 - e2) in
  let m' := m1 * 2 ^ (e1 - e2 - e') in
  exists l,
    SFdiv_core_binary prec emax m1 e1 m2 e2 = (m' / m2, e', l) /\
    is_inexact l = negb (m' mod m2 =? 0).
Proof.
  intros H1 H2 e' m'. unfold SFdiv_core_binary. fold e'.
  assert (Hs : 0 <= e1 - e2 - e') by (unfold e'; lia).
  assert (Hm' : match e1 - e2 - e' with
                | Z.pos _ => Z.shiftl m1 (e1 - e2 - e')
                | 0 => m1
                | Z.neg _ => 0
                end = m').
  { unfold m'. destruct (e1 - e2 - e') as [|p|p] eqn:E; try lia.
    rewrite Z.shiftl_mul_pow2 by lia. reflexivity. }
  rewrite Hm'.
  assert (Hde : Z.div_eucl m' m2 = (m' / m2, m' mod m2)).
  { unfold Z.div, Z.modulo. destruct (Z.div_eucl m' m2). reflexivity. }
  rewrite Hde. eexists. split; [reflexivity|].
  apply new_location_inexact.
Qed.

(** A quotient of two finite floats of which the first is not the larger
    in magnitude is at most one. *)
Lemma SFdiv_upper_one s1 m1 e1 s2 m2 e2 t :
  t <= e1 -> t <= e2 ->
  Z.pos m1 * 2 ^ (e1 - t) <= Z.pos m2 * 2 ^ (e2 - t) ->
  below (2 ^ (prec - 1)) (1 - prec) (xorb s1 s2)
    (SFdiv prec emax (S754_finite s1 m1 e1) (S754_finite s2 m2 e2)).
Proof.
  intros Ht1 Ht2 Hle. cbn [SFdiv].
  destruct (SFdiv_core_binary_spec (Z.pos m1) e1 (Z.pos m2) e2 ltac:(lia) ltac:(lia))
    as [l [Hcore Hl]].
  cbv zeta in Hcore, Hl. rewrite Hcore.
  set (e' := Z.min (fexp (Zdigits2 (Z.pos m1) + e1 - (Zdigits2 (Z.pos m2) + e2))) (e1 - e2)) in *.
  set (m' := Z.pos m1 * 2 ^ (e1 - e2 - e')) in *.
  assert (Hdig : Zdigits2 (Z.pos m1) + e1 <= Zdigits2 (Z.pos m2) + e2).
  { assert (Zdigits2 (Z.pos m1 * 2 ^ (e1 - t)) <= Zdigits2 (Z.pos m2 * 2 ^ (e2 - t))).
    { apply Zdigits2_le; [|assumption].
      assert (0 < 2 ^ (e1 - t)) by (apply Z.pow_pos_nonneg; lia). nia. }
    rewrite !Zdigits2_mul_pow2 in H by lia. lia. }
  assert (He' : e' <= - prec).
  { unfold e'.
    pose proof (fexp_mono (Zdigits2 (Z.pos m1) + e1 - (Zdigits2 (Z.pos m2) + e2)) 0
                  ltac:(lia)).
    unfold SpecFloat.fexp, SpecFloat.emin in *. lia. }
  assert (Hs : 0 <= e1 - e2 - e') by (unfold e'; lia).
  assert (Hp : 0 < 2 ^ (prec - 1)) by (apply Z.pow_pos_nonneg; lia).
  apply binary_round_aux_upper; try assumption; try lia.
  - apply Z.div_pos; [|lia].
    assert (0 < 2 ^ (e1 - e2 - e')) by (apply Z.pow_pos_nonneg; lia). unfold m'. nia.
  - rewrite Zdigits2_pow2 by lia.
    unfold SpecFloat.fexp, SpecFloat.emin. lia.
  - rewrite <- Z.pow_add_r by lia.
    replace (prec - 1 + (1 - prec - e')) with (- e') by lia.
    rewrite Hl.
    (* m' <= m2 * 2 ^ (- e') *)
    assert (Hm' : m' <= Z.pos m2 * 2 ^ (- e')).
    { assert (HA : 0 < 2 ^ (e2 - t)) by (apply Z.pow_pos_nonneg; lia).
      assert (HB : 0 < 2 ^ (- e')) by (apply Z.pow_pos_nonneg; lia).
      assert (m' * 2 ^ (e2 - t) = Z.pos m1 * 2 ^ (e1 - t) * 2 ^ (- e')).
      { unfold m'. rewrite <- !Z.mul_assoc, <- !Z.pow_add_r by lia.
        f_equal. f_equal. lia. }
      assert (m' * 2 ^ (e2 - t) <= Z.pos m2 * 2 ^ (- e') * 2 ^ (e2 - t)) by nia.
      nia. }
    pose proof (Z.div_mod m' (Z.pos m2) ltac:(lia)) as Hdm.
    pose proof (Z.mod_pos_bound m' (Z.pos m2) ltac:(lia)) as Hmod.
    set (K := 2 ^ (- e')) in *. clearbody K.
    set (q := m' / Z.pos m2) in *. set (r := m' mod Z.pos m2) in *. clearbody q r.
    destruct (Z.eqb_spec r 0); cbn [negb b2z]; nia.
Qed.

(** Integers below 2^prec are representable. *)
Lemma binary_round_small s p :
  Z.pos p < 2 ^ prec ->
  binary_round prec emax s p 0 =
  S754_finite s (Z.to_pos (Z.pos p * 2 ^ (prec - Zdigits2 (Z.pos p))))
    (Zdigits2 (Z.pos p) - prec).
Proof.
  intros Hz.
  pose proof (Zdigits2_pos (Z.pos p) ltac:(lia)) as Hd0.
  pose proof (Zdigits2_lt_pow2 (Z.pos p) prec ltac:(lia) ltac:(lia)) as Hd.
  apply binary_round_exact.
  - assert (0 < 2 ^ (prec - Zdigits2 (Z.pos p))) by (apply Z.pow_pos_nonneg; lia). lia.
  - rewrite Zdigits2_mul_pow2 by lia.
    unfold SpecFloat.fexp, SpecFloat.emin. lia.
  - lia.
  - replace (Z.min 0 (Zdigits2 (Z.pos p) - prec)) with (Zdigits2 (Z.pos p) - prec) by lia.
    rewrite Z.sub_diag, Z.mul_1_r. f_equal. f_equal. lia.
Qed.

Lemma binary_normalize_small z :
  0 < z < 2 ^ prec ->
  binary_normalize prec emax z 0 false =
  S754_finite false (Z.to_pos (z * 2 ^ (prec - Zdigits2 z))) (Zdigits2 z - prec).
Proof.
  intros Hz. destruct z as [|p|p]; try lia.
  cbn [binary_normalize]. apply binary_round_small. lia.
Qed.

Lemma binary_normalize_finite z sz :
  - 2 ^ prec < z < 2 ^ prec ->
  finite_or_zero (binary_normalize prec emax z 0 sz).
Proof.
  intros Hz. destruct z as [|p|p]; cbn [binary_normalize].
  - exact I.
  - rewrite binary_round_small by lia. exact I.
  - rewrite binary_round_small by lia. exact I.
Qed.

Lemma SFadd_not_nan a b :
  a <> S754_nan -> finite_or_zero b -> SFadd prec emax a b <> S754_nan.
Proof.
  intros Ha Hb.
  destruct a as [sa|sa| |sa ma ea]; try congruence;
  destruct b as [sb|sb| |sb mb eb]; try contradiction; cbn [SFadd];
    try discriminate.
  - destruct sa, sb; discriminate.
  - apply binary_normalize_not_nan.
Qed.

Lemma SFdiv_not_nan a sb mb eb :
  a <> S754_nan -> SFdiv prec emax a (S754_finite sb mb eb) <> S754_nan.
Proof.
  intros Ha. destruct a as [sa|sa| |sa ma ea]; try congruence; cbn [SFdiv];
    try discriminate.
  destruct (SFdiv_core_binary_spec (Z.pos ma) ea (Z.pos mb) eb ltac:(lia) ltac:(lia))
    as [l [Hcore _]].
  cbv zeta in Hcore. rewrite Hcore.
  apply binary_round_aux_not_nan.
  apply Z.div_pos; [|lia].
  apply Z.mul_nonneg_nonneg; [lia|]. apply Z.pow_nonneg. lia.
Qed.

(** The same dyadic number, written with a longer mantissa, rounds to the
    same float. *)
Lemma binary_round_scaled s mx p a e :
  Z.pos mx = Z.pos p * 2 ^ a -> 0 <= a -> Z.pos p < 2 ^ prec ->
  emin <= Zdigits2 (Z.pos p) - prec + e -> Zdigits2 (Z.pos p) + e <= emax ->
  binary_round prec emax s mx (e - a) =
  S754_finite s (Z.to_pos (Z.pos p * 2 ^ (prec - Zdigits2 (Z.pos p))))
    (Zdigits2 (Z.pos p) - prec + e).
Proof.
  intros Hmx Ha Hp Hlo Hhi.
  set (d := Zdigits2 (Z.pos p)) in *.
  assert (Hd : 0 < d <= prec).
  { split; [apply Zdigits2_pos; lia|apply Zdigits2_lt_pow2; lia]. }
  assert (HP : 0 < 2 ^ (prec - d)) by (apply Z.pow_pos_nonneg; lia).
  apply binary_round_exact.
  - lia.
  - rewrite Zdigits2_mul_pow2 by lia. fold d.
    unfold SpecFloat.fexp. fold emin. lia.
  - lia.
  - set (t := Z.min (e - a) (d - prec + e)).
    rewrite Hmx, <- !Z.mul_assoc, <- !Z.pow_add_r by lia.
    f_equal. f_equal. lia.
Qed.

(** Adding two small integers is exact. *)
Lemma SFadd_small s1 p1 s2 p2 :
  Z.pos p1 < 2 ^ prec -> Z.pos p2 < 2 ^ prec ->
  - 2 ^ prec < cond_Zopp s1 (Z.pos p1) + cond_Zopp s2 (Z.pos p2) < 2 ^ prec ->
  SFadd prec emax (binary_round prec emax s1 p1 0) (binary_round prec emax s2 p2 0) =
  binary_normalize prec emax
    (cond_Zopp s1 (Z.pos p1) + cond_Zopp s2 (Z.pos p2)) 0 false.
Proof.
  intros H1 H2 Hsum.
  rewrite !binary_round_small by assumption.
  set (d1 := Zdigits2 (Z.pos p1)). set (d2 := Zdigits2 (Z.pos p2)).
  assert (Hd1 : 0 < d1 <= prec).
  { split; [apply Zdigits2_pos; lia|apply Zdigits2_lt_pow2; lia]. }
  assert (Hd2 : 0 < d2 <= prec).
  { split; [apply Zdigits2_pos; lia|apply Zdigits2_lt_pow2; lia]. }
  assert (HP1 : 0 < 2 ^ (prec - d1)) by (apply Z.pow_pos_nonneg; lia).
  assert (HP2 : 0 < 2 ^ (prec - d2)) by (apply Z.pow_pos_nonneg; lia).
  cbn [SFadd].
  set (ez := Z.min (d1 - prec) (d2 - prec)).
  pose proof (shl_align_spec (Z.to_pos (Z.pos p1 * 2 ^ (prec - d1))) (d1 - prec) ez) as A1.
  pose proof (shl_align_spec (Z.to_pos (Z.pos p2 * 2 ^ (prec - d2))) (d2 - prec) ez) as A2.
  destruct (shl_align (Z.to_pos (Z.pos p1 * 2 ^ (prec - d1))) (d1 - prec) ez) as [m1 e1].
  destruct (shl_align (Z.to_pos (Z.pos p2 * 2 ^ (prec - d2))) (d2 - prec) ez) as [m2 e2].
  destruct A1 as [E1 M1]. destruct A2 as [E2 M2]. cbn [fst].
  rewrite Z2Pos.id in M1, M2 by lia.
  assert (Hm1 : Z.pos m1 = Z.pos p1 * 2 ^ (- ez)).
  { rewrite M1, <- Z.mul_assoc, <- Z.pow_add_r by lia. f_equal. f_equal. lia. }
  assert (Hm2 : Z.pos m2 = Z.pos p2 * 2 ^ (- ez)).
  { rewrite M2, <- Z.mul_assoc, <- Z.pow_add_r by lia. f_equal. f_equal. lia. }
  assert (HS : cond_Zopp s1 (Z.pos m1) + cond_Zopp s2 (Z.pos m2) =
               (cond_Zopp s1 (Z.pos p1) + cond_Zopp s2 (Z.pos p2)) * 2 ^ (- ez)).
  { rewrite Hm1, Hm2. destruct s1, s2; cbn [cond_Zopp]; lia. }
  rewrite HS.
  assert (HK : 0 < 2 ^ (- ez)) by (apply Z.pow_pos_nonneg; lia).
  assert (Hez : ez <= 0) by lia.
  destruct (cond_Zopp s1 (Z.pos p1) + cond_Zopp s2 (Z.pos p2)) as [|q|q] eqn:Ev.
  - reflexivity.
  - assert (Hq : 0 < Z.pos q * 2 ^ (- ez)) by nia.
    destruct (Z.pos q * 2 ^ (- ez)) as [|mx|mx] eqn:Emx; try lia.
    cbn [binary_normalize].
    rewrite (binary_round_small false q) by lia.
    replace ez with (0 - (- ez)) at 1 by lia.
    rewrite (binary_round_scaled false mx q (- ez) 0); try lia.
    + now rewrite Z.add_0_r.
    + pose proof (Zdigits2_pos (Z.pos q) ltac:(lia)).
      unfold SpecFloat.emin. lia.
    + pose proof (Zdigits2_lt_pow2 (Z.pos q) prec ltac:(lia) ltac:(lia)). lia.
  - assert (Hq : Z.neg q * 2 ^ (- ez) < 0) by nia.
    destruct (Z.neg q * 2 ^ (- ez)) as [|mx|mx] eqn:Emx; try lia.
    cbn [binary_normalize].
    rewrite (binary_round_small true q) by lia.
    replace ez with (0 - (- ez)) at 1 by lia.
    rewrite (binary_round_scaled true mx q (- ez) 0); try lia.
    + now rewrite Z.add_0_r.
    + pose proof (Zdigits2_pos (Z.pos q) ltac:(lia)).
      unfold SpecFloat.emin. lia.
    + pose proof (Zdigits2_lt_pow2 (Z.pos q) prec ltac:(lia) ltac:(lia)). lia.
Qed.

Lemma SFadd_zero_l x :
  finite_or_zero x -> x <> S754_zero true ->
  SFadd prec emax (S754_zero false) x = x.
Proof.
  destruct x as [[|]| | |]; intros H Hn; try contradiction; try reflexivity;
    congruence.
Qed.

Lemma SFadd_zero_r x :
  finite_or_zero x -> x <> S754_zero true ->
  SFadd prec emax x (S754_zero false) = x.
Proof.
  destruct x as [[|]| | |]; intros H Hn; try contradiction; try reflexivity;
    congruence.
Qed.

Lemma binary_normalize_shape z :
  - 2 ^ prec < z < 2 ^ prec ->
  finite_or_zero (binary_normalize prec emax z 0 false) /\
  binary_normalize prec emax z 0 false <> S754_zero true.
Proof.
  intros Hz. split; [apply binary_normalize_finite; assumption|].
  destruct z as [|p|p]; cbn [binary_normalize].
  - discriminate.
  - rewrite binary_round_small by lia. discriminate.
  - rewrite binary_round_small by lia. discriminate.
Qed.

(** The sum of two integers whose magnitudes and whose sum are below
    2^prec is computed without rounding. *)
Lemma SFadd_int l r :
  - 2 ^ prec < l < 2 ^ prec -> - 2 ^ prec < r < 2 ^ prec ->
  - 2 ^ prec < l + r < 2 ^ prec ->
  SFadd prec emax (binary_normalize prec emax l 0 false)
    (binary_normalize prec emax r 0 false) =
  binary_normalize prec emax (l + r) 0 false.
Proof.
  intros Hl Hr Hlr.
  destruct (binary_normalize_shape l Hl) as [Fl Nl].
  destruct (binary_normalize_shape r Hr) as [Fr Nr].
  destruct l as [|p1|p1].
  - cbn [binary_normalize Z.add]. apply SFadd_zero_l; assumption.
  - destruct r as [|p2|p2].
    + rewrite Z.add_0_r. apply SFadd_zero_r; assumption.
    + cbn [binary_normalize].
      apply (SFadd_small false p1 false p2); cbn [cond_Zopp]; lia.
    + cbn [binary_normalize].
      apply (SFadd_small false p1 true p2); cbn [cond_Zopp]; lia.
  - destruct r as [|p2|p2].
    + rewrite Z.add_0_r. apply SFadd_zero_r; assumption.
    + cbn [binary_normalize].
      apply (SFadd_small true p1 false p2); cbn [cond_Zopp]; lia.
    + cbn [binary_normalize].
      apply (SFadd_small true p1 true p2); cbn [cond_Zopp]; lia.
Qed.

Lemma is_inexact_false l : is_inexact l = false -> l = loc_Exact.
Proof. destruct l; [reflexivity|discriminate]. Qed.

(** Halving a small integer is exact. *)
Lemma SFdiv_two_small s p :
  4 <= emax -> Z.pos p < 2 ^ prec ->
  SFdiv prec emax (binary_round prec emax s p 0) (binary_round prec emax false 2 0) =
  S754_finite s (Z.to_pos (Z.pos p * 2 ^ (prec - Zdigits2 (Z.pos p))))
    (Zdigits2 (Z.pos p) - prec - 1).
Proof.
  intros H4 Hp.
  assert (H2 : 2 < 2 ^ prec).
  { assert (2 ^ 2 <= 2 ^ prec) by (apply Z.pow_le_mono_r; lia).
    change (2 ^ 2) with 4 in H. lia. }
  rewrite !binary_round_small by assumption.
  change (Zdigits2 2) with 2.
  set (d := Zdigits2 (Z.pos p)).
  assert (Hd : 0 < d <= prec).
  { split; [apply Zdigits2_pos; lia|apply Zdigits2_lt_pow2; lia]. }
  assert (HP : 0 < 2 ^ (prec - d)) by (apply Z.pow_pos_nonneg; lia).
  assert (HP2 : 0 < 2 ^ (prec - 2)) by (apply Z.pow_pos_nonneg; lia).
  set (m1 := Z.pos p * 2 ^ (prec - d)) in *.
  set (m2 := 2 * 2 ^ (prec - 2)) in *.
  assert (Hd1 : Zdigits2 m1 = prec).
  { unfold m1. rewrite Zdigits2_mul_pow2 by lia. fold d. lia. }
  assert (Hd2 : Zdigits2 m2 = prec).
  { unfold m2. rewrite Zdigits2_mul_pow2 by lia. change (Zdigits2 2) with 2. lia. }
  cbn [SFdiv].
  destruct (SFdiv_core_binary_spec (Z.pos (Z.to_pos m1)) (d - prec)
              (Z.pos (Z.to_pos m2)) (2 - prec) ltac:(lia) ltac:(lia))
    as [l [Hcore Hl]].
  cbv zeta in Hcore, Hl. rewrite !Z2Pos.id in Hcore, Hl by lia.
  rewrite Hd1, Hd2 in Hcore, Hl.
  assert (He : Z.min (fexp (prec + (d - prec) - (prec + (2 - prec))))
                 (d - prec - (2 - prec)) = d - prec - 2).
  { unfold SpecFloat.fexp, SpecFloat.emin. lia. }
  rewrite He in Hcore, Hl.
  replace (d - prec - (2 - prec) - (d - prec - 2)) with (1 + (prec - 2) + 1)
    in Hcore, Hl by lia.
  assert (Hm : m1 * 2 ^ (1 + (prec - 2) + 1) = (2 * m1) * m2).
  { unfold m2. rewrite !Z.pow_add_r by lia. change (2 ^ 1) with 2. lia. }
  rewrite Hm in Hcore, Hl.
  rewrite Z.div_mul in Hcore by lia. rewrite Z.mod_mul in Hl by lia.
  apply is_inexact_false in Hl. subst l.
  rewrite !Z2Pos.id by lia. rewrite Hcore.
  rewrite xorb_false_r.
  apply binary_round_aux_exact; try lia.
  - rewrite Hd1. unfold SpecFloat.fexp, SpecFloat.emin. lia.
  - replace (d - prec - 1 - (d - prec - 2)) with 1 by lia. change (2 ^ 1) with 2. lia.
Qed.

End Rounding.

(** ** The arithmetic of line 33 *)

Lemma F32_one_eq : F32.one = S754_finite false 8388608 (-23).
Proof. reflexivity. Qed.

Lemma F32_two_eq : F32.two = S754_finite false 8388608 (-22).
Proof. reflexivity. Qed.

Lemma pow2_split a b : 0 <= a -> 0 <= b -> 2 ^ (a + b) = 2 ^ a * 2 ^ b.
Proof. intros. apply Z.pow_add_r; assumption. Qed.

Ltac f32_lia := unfold F32.prec, F32.emax in *; lia.

(** [x + 1] for a sample in the unit range lies between 0 and 2. *)
Lemma add_one_below x :
  unit_abs x -> x <> S754_nan ->
  below 8388608 (-22) false (F32.add x F32.one).
Proof.
  rewrite F32_one_eq. unfold F32.add.
  destruct x as [s|s| |s m e]; cbn [unit_abs]; intros Hx Hn.
  - cbn. repeat split; lia.
  - contradiction.
  - congruence.
  - destruct Hx as [He Hm]. cbn [SFadd].
    replace (Z.min e (-23)) with e by lia.
    pose proof (shl_align_spec m e e) as H1.
    pose proof (shl_align_spec 8388608 (-23) e) as H2.
    destruct (shl_align m e e) as [m1 e1].
    destruct (shl_align 8388608 (-23) e) as [m2 e2].
    destruct H1 as [He1 Hm1]. destruct H2 as [He2 Hm2]. cbn [fst].
    replace (e - e1) with 0 in Hm1 by lia. rewrite Z.pow_0_r, Z.mul_1_r in Hm1.
    replace (-23 - e2) with (-23 - e) in Hm2 by lia.
    rewrite Hm1, Hm2.
    assert (Hp : 0 < 2 ^ (-23 - e)) by (apply Z.pow_pos_nonneg; lia).
    assert (Hs : 0 <= cond_Zopp s (Z.pos m) + cond_Zopp false (8388608 * 2 ^ (-23 - e))
                   <= 2 * (8388608 * 2 ^ (-23 - e))).
    { destruct s; cbn [cond_Zopp]; lia. }
    destruct (cond_Zopp s (Z.pos m) + cond_Zopp false (8388608 * 2 ^ (-23 - e)))
      as [|p|p]; cbn [binary_normalize].
    + reflexivity.
    + apply (binary_round_upper F32.prec F32.emax); try reflexivity; try f32_lia.
      replace (-22 - e) with (1 + (-23 - e)) by lia.
      rewrite pow2_split by lia. change (2 ^ 1) with 2. lia.
    + lia.
Qed.

(** Halving brings it between 0 and 1. *)
Lemma half_below x :
  below 8388608 (-22) false x ->
  below 8388608 (-23) false (F32.div x F32.two).
Proof.
  rewrite F32_two_eq. unfold F32.div. intros Hx.
  destruct x as [s|s| |s m e]; cbn [below] in Hx; try contradiction.
  - subst s. reflexivity.
  - destruct Hx as [-> [He Hm]].
    apply (SFdiv_upper_one F32.prec F32.emax ltac:(reflexivity) ltac:(reflexivity)
             false m e false 8388608 (-22) e); try lia.
    rewrite Z.sub_diag, Z.pow_0_r. lia.
Qed.

Lemma F32_of_Z_small n :
  0 < n < 16777216 ->
  F32.of_Z n =
  S754_finite false (Z.to_pos (n * 2 ^ (24 - Zdigits2 n))) (Zdigits2 n - 24).
Proof.
  intros Hn. unfold F32.of_Z.
  apply (binary_normalize_small F32.prec F32.emax); try reflexivity.
  change (2 ^ F32.prec) with 16777216. lia.
Qed.

Lemma digits_small n b :
  0 < n -> 0 <= b -> n < 2 ^ b -> 0 < Zdigits2 n <= b.
Proof.
  intros Hn Hb Hlt. split; [apply Zdigits2_pos; lia|].
  apply Zdigits2_lt_pow2; assumption.
Qed.

Lemma of_Z_canonical n k :
  0 < n < 16777216 -> 0 <= k <= 100 ->
  fexp F32.prec F32.emax
    (Zdigits2 (n * 2 ^ (24 - Zdigits2 n)) + (Zdigits2 n - 24 - k))
  = Zdigits2 n - 24 - k.
Proof.
  intros Hn Hk.
  destruct (digits_small n 24 ltac:(lia) ltac:(lia) ltac:(change (2 ^ 24) with 16777216; lia))
    as [Hd0 Hd].
  rewrite Zdigits2_mul_pow2 by lia.
  unfold fexp, emin, F32.prec, F32.emax. lia.
Qed.

Lemma trunc_scaled n a k :
  0 < n -> 0 <= a -> 0 <= k -> 0 < a + k ->
  trunc (S754_finite false (Z.to_pos (n * 2 ^ a)) (- (a + k))) = Some (n / 2 ^ k).
Proof.
  intros Hn Ha Hk Hak.
  assert (HA : 0 < 2 ^ a) by (apply Z.pow_pos_nonneg; lia).
  assert (HK : 0 < 2 ^ k) by (apply Z.pow_pos_nonneg; lia).
  destruct (- (a + k)) as [|p|p] eqn:E; try lia.
  unfold trunc. rewrite Z2Pos.id by nia.
  replace (Z.pos p) with (k + a) by lia.
  rewrite pow2_split by lia.
  rewrite Z.div_mul_cancel_r by lia. reflexivity.
Qed.

(** The product with [pwm_resolution - 1] stays at or below it, and so
    does its integer part. *)
Lemma mul_below_trunc x n :
  below 8388608 (-23) false x -> 0 <= n <= 32767 ->
  exists t, trunc (F32.mul x (F32.of_Z n)) = Some t /\ 0 <= t <= n.
Proof.
  intros Hx Hn. unfold F32.mul.
  destruct (Z.eq_dec n 0) as [->|Hn0].
  - exists 0. change (F32.of_Z 0) with (S754_zero false).
    destruct x as [s|s| |s m e]; cbn [below] in Hx; try contradiction;
      (split; [reflexivity|lia]).
  - rewrite F32_of_Z_small by lia.
    set (d := Zdigits2 n).
    destruct (digits_small n 15 ltac:(lia) ltac:(lia) ltac:(change (2 ^ 15) with 32768; lia))
      as [Hd0 Hd]. fold d in Hd0, Hd.
    assert (HP : 0 < 2 ^ (24 - d)) by (apply Z.pow_pos_nonneg; lia).
    set (M := n * 2 ^ (24 - d)) in *.
    assert (HM : 0 < M) by (unfold M; nia).
    destruct x as [s|s| |s m e]; cbn [below] in Hx; try contradiction.
    + exists 0. split; [reflexivity|lia].
    + destruct Hx as [-> [He Hm]]. cbn [SFmul xorb].
      assert (Hb : below M (d - 24) false
                 (binary_round_aux F32.prec F32.emax false
                    (Z.pos (m * Z.to_pos M)) (e + (d - 24)) loc_Exact)).
      { apply (binary_round_aux_upper F32.prec F32.emax); try reflexivity; try f32_lia.
        - pose proof (of_Z_canonical n 0 ltac:(lia) ltac:(lia)) as Hc.
          fold d in Hc. fold M in Hc. rewrite Z.sub_0_r in Hc. exact Hc.
        - cbn [is_inexact b2z]. rewrite Pos2Z.inj_mul, Z2Pos.id by lia.
          replace (d - 24 - (e + (d - 24))) with (23 + (-23 - e)) by lia.
          rewrite pow2_split by lia. change (2 ^ 23) with 8388608.
          assert (0 < 2 ^ (-23 - e)) by (apply Z.pow_pos_nonneg; lia). nia. }
      destruct (binary_round_aux F32.prec F32.emax false
                  (Z.pos (m * Z.to_pos M)) (e + (d - 24)) loc_Exact)
        as [s'|s'| |s' m' e']; cbn [below] in Hb; try contradiction.
      * exists 0. split; [reflexivity|lia].
      * destruct Hb as [-> [He' Hm']].
        destruct e' as [|q|q]; try lia.
        assert (Hq : 0 < 2 ^ Z.pos q) by (apply Z.pow_pos_nonneg; lia).
        exists (Z.pos m' / 2 ^ Z.pos q). split; [reflexivity|].
        split; [apply Z.div_pos; lia|].
        apply Z.div_le_upper_bound; [lia|].
        unfold M in Hm'.
        replace (Z.pos q) with ((24 - d) + (d - 24 - Z.neg q)) by lia.
        rewrite pow2_split by lia.
        rewrite <- Z.mul_assoc in Hm'. lia.
Qed.

Lemma astype_int16_small x t :
  trunc x = Some t -> 0 <= t <= 32767 -> astype_int16 x = t.
Proof.
  intros Ht Hr. unfold astype_int16. rewrite Ht.
  replace ((-2147483648 <=? t) && (t <=? 2147483647)) with true
    by (symmetry; apply andb_true_iff; split; apply Z.leb_le; lia).
  unfold wrap16. rewrite Z.mod_small by lia. lia.
Qed.

Lemma clip_small t : 0 <= t <= 32767 -> clip t 0 32767 = t.
Proof. unfold clip. lia. Qed.

(** For a resolution between 1 and 32768 the cast of line 33 is a plain
    truncation and the value stays below the resolution. *)
Lemma affine_trunc res x :
  1 <= res <= 32768 -> unit_abs x -> x <> S754_nan ->
  exists t, trunc (affine res x) = Some t /\ 0 <= t <= res - 1 /\
            quantize res x = t.
Proof.
  intros Hres Hx Hn.
  destruct (mul_below_trunc _ (res - 1) (half_below _ (add_one_below x Hx Hn)) ltac:(lia))
    as [t [Ht Hr]].
  exists t. split; [exact Ht|]. split; [exact Hr|].
  unfold quantize. fold (affine res x) in Ht.
  rewrite (astype_int16_small _ _ Ht) by lia. apply clip_small. lia.
Qed.

Lemma quantize_unit res x :
  1 <= res <= 32768 -> unit_abs x -> 0 <= quantize res x <= res - 1.
Proof.
  intros Hres Hx. destruct x as [s|s| |s m e] eqn:E.
  - destruct (affine_trunc res (S754_zero s) Hres Hx ltac:(discriminate))
      as [t [_ [Hr ->]]]. exact Hr.
  - contradiction.
  - cbn. lia.
  - destruct (affine_trunc res (S754_finite s m e) Hres Hx ltac:(discriminate))
      as [t [_ [Hr ->]]]. exact Hr.
Qed.

(** A full-scale sample, 1.0, maps to [pwm_resolution - 1]. *)
Lemma mul_one_exact n :
  0 < n < 16777216 -> F32.mul F32.one (F32.of_Z n) = F32.of_Z n.
Proof.
  intros Hn. rewrite F32_one_eq, F32_of_Z_small by assumption.
  unfold F32.mul. cbn [SFmul xorb].
  destruct (digits_small n 24 ltac:(lia) ltac:(lia) ltac:(change (2 ^ 24) with 16777216; lia))
    as [Hd0 Hd].
  assert (HP : 0 < 2 ^ (24 - Zdigits2 n)) by (apply Z.pow_pos_nonneg; lia).
  apply (binary_round_aux_exact F32.prec F32.emax); try f32_lia.
  - pose proof (of_Z_canonical n 0 Hn ltac:(lia)) as Hc.
    rewrite Z.sub_0_r in Hc. exact Hc.
  - rewrite Pos2Z.inj_mul, Z2Pos.id by nia.
    replace (Zdigits2 n - 24 - (-23 + (Zdigits2 n - 24))) with 23 by lia.
    change (2 ^ 23) with 8388608. lia.
Qed.

Lemma quantize_full_scale res :
  1 <= res <= 32768 -> quantize res F32.one = res - 1.
Proof.
  intros Hres. unfold quantize, affine.
  change (F32.div (F32.add F32.one F32.one) F32.two) with F32.one.
  destruct (Z.eq_dec res 1) as [->|Hne]; [reflexivity|].
  rewrite mul_one_exact by lia. rewrite F32_of_Z_small by lia.
  destruct (digits_small (res - 1) 15 ltac:(lia) ltac:(lia)
              ltac:(change (2 ^ 15) with 32768; lia)) as [Hd0 Hd].
  pose proof (trunc_scaled (res - 1) (24 - Zdigits2 (res - 1)) 0
                ltac:(lia) ltac:(lia) ltac:(lia) ltac:(lia)) as Ht.
  replace (- (24 - Zdigits2 (res - 1) + 0)) with (Zdigits2 (res - 1) - 24) in Ht by lia.
  rewrite Z.pow_0_r, Z.div_1_r in Ht.
  rewrite (astype_int16_small _ _ Ht) by lia. apply clip_small. lia.
Qed.

(** A zero sample maps to half of [pwm_resolution - 1], rounded down. *)
Lemma mul_half_exact n :
  0 < n < 16777216 ->
  F32.mul (S754_finite false 8388608 (-24)) (F32.of_Z n) =
  S754_finite false (Z.to_pos (n * 2 ^ (24 - Zdigits2 n))) (Zdigits2 n - 24 - 1).
Proof.
  intros Hn. rewrite F32_of_Z_small by assumption.
  unfold F32.mul. cbn [SFmul xorb].
  destruct (digits_small n 24 ltac:(lia) ltac:(lia) ltac:(change (2 ^ 24) with 16777216; lia))
    as [Hd0 Hd].
  assert (HP : 0 < 2 ^ (24 - Zdigits2 n)) by (apply Z.pow_pos_nonneg; lia).
  apply (binary_round_aux_exact F32.prec F32.emax); try f32_lia.
  - apply (of_Z_canonical n 1 Hn). lia.
  - rewrite Pos2Z.inj_mul, Z2Pos.id by nia.
    replace (Zdigits2 n - 24 - 1 - (-24 + (Zdigits2 n - 24))) with 23 by lia.
    change (2 ^ 23) with 8388608. lia.
Qed.

Lemma quantize_zero res s :
  1 <= res <= 65536 -> quantize res (S754_zero s) = (res - 1) / 2.
Proof.
  intros Hres. unfold quantize, affine.
  change (F32.div (F32.add (S754_zero s) F32.one) F32.two)
    with (S754_finite false 8388608 (-24)).
  destruct (Z.eq_dec res 1) as [->|Hne]; [reflexivity|].
  rewrite mul_half_exact by lia.
  destruct (digits_small (res - 1) 16 ltac:(lia) ltac:(lia)
              ltac:(change (2 ^ 16) with 65536; lia)) as [Hd0 Hd].
  pose proof (trunc_scaled (res - 1) (24 - Zdigits2 (res - 1)) 1
                ltac:(lia) ltac:(lia) ltac:(lia) ltac:(lia)) as Ht.
  replace (- (24 - Zdigits2 (res - 1) + 1)) with (Zdigits2 (res - 1) - 24 - 1) in Ht by lia.
  change (2 ^ 1) with 2 in Ht.
  assert (0 <= (res - 1) / 2 <= 32767).
  { split; [apply Z.div_pos; lia|].
    assert ((res - 1) / 2 < 32768) by (apply Z.div_lt_upper_bound; lia). lia. }
  rewrite (astype_int16_small _ _ Ht) by lia. apply clip_small. lia.
Qed.

(** ** The samples that reach the quantizer *)

Lemma F32_of_Z_good z : good32 (F32.of_Z z).
Proof.
  split.
  - apply binary_normalize_valid; reflexivity.
  - apply binary_normalize_not_nan.
Qed.

Lemma f64_to_f32_good y : y <> S754_nan -> good32 (f64_to_f32 y).
Proof.
  intros Hy. destruct y as [s|s| |s m e]; try congruence; cbn [f64_to_f32].
  - split; [reflexivity|discriminate].
  - split; [reflexivity|discriminate].
  - split; [apply binary_round_valid; reflexivity|apply binary_round_not_nan].
Qed.

Lemma in_int32_range z : in_int32 z = true -> - 2 ^ F64.prec < z < 2 ^ F64.prec.
Proof.
  unfold in_int32. intros H. apply andb_true_iff in H as [H1 H2].
  apply Z.leb_le in H1, H2.
  change (2 ^ F64.prec) with 9007199254740992. lia.
Qed.

Lemma row_sum_not_nan row : forall acc,
  acc <> S754_nan -> forallb in_int32 row = true ->
  fold_left (fun a z => F64.add a (F64.of_Z z)) row acc <> S754_nan.
Proof.
  induction row as [|z row IH]; intros acc Hacc Hrow; simpl; [assumption|].
  simpl in Hrow. apply andb_true_iff in Hrow as [Hz Hrow].
  apply IH; [|assumption].
  apply SFadd_not_nan; [assumption|].
  apply (binary_normalize_finite F64.prec F64.emax); try reflexivity.
  apply in_int32_range. assumption.
Qed.

Lemma row_mean_not_nan row : row_ok row = true -> row_mean row <> S754_nan.
Proof.
  unfold row_ok. intros H.
  apply andb_true_iff in H as [H Hhi]. apply andb_true_iff in H as [Hrow Hlo].
  apply Z.leb_le in Hlo, Hhi.
  unfold row_mean, F64.div, F64.of_Z.
  rewrite (binary_normalize_small F64.prec F64.emax ltac:(reflexivity) ltac:(reflexivity))
    by (change (2 ^ F64.prec) with 9007199254740992; lia).
  apply SFdiv_not_nan.
  apply row_sum_not_nan; [discriminate|assumption].
Qed.

Lemma to_mono_good a : pcm_ok a = true -> Forall good32 (to_mono_f32 a).
Proof.
  destruct a as [samples|frames]; simpl; intros H; apply Forall_forall;
    intros x Hx; apply in_map_iff in Hx as [y [<- Hy]].
  - apply F32_of_Z_good.
  - apply f64_to_f32_good. apply row_mean_not_nan.
    apply (proj1 (forallb_forall _ _) H). assumption.
Qed.

Lemma SFabs_absval x : good32 x -> absval F32.prec F32.emax (SFabs x).
Proof.
  intros [Hv Hn]. destruct x; try congruence; split; try reflexivity; exact Hv.
Qed.

Lemma gt_zero_absval p :
  absval F32.prec F32.emax p -> gt_zero p = false -> p = S754_zero false.
Proof.
  intros [_ Hs] Hg. destruct p as [s|s| |s m e]; try contradiction; subst;
    try reflexivity; discriminate.
Qed.

Lemma mag_zero x :
  good32 x -> mag F32.prec F32.emax (SFabs x) <= 0 -> exists s, x = S754_zero s.
Proof.
  intros [Hv Hn] Hm. destruct x as [s|s| |s m e]; try congruence.
  - now exists s.
  - cbn [SFabs mag] in Hm.
    assert (0 < 2 ^ (F32.emax - emin F32.prec F32.emax))
      by (apply Z.pow_pos_nonneg; [lia|discriminate]).
    lia.
  - cbn [SFabs mag] in Hm. simpl in Hv.
    destruct (bounded_canonical F32.prec F32.emax ltac:(reflexivity) _ _ Hv)
      as [_ [_ [Hmin _]]].
    assert (0 < 2 ^ (e - emin F32.prec F32.emax)) by (apply Z.pow_pos_nonneg; lia).
    lia.
Qed.

Lemma div_by_peak x p :
  good32 x -> absval F32.prec F32.emax p ->
  mag F32.prec F32.emax (SFabs x) <= mag F32.prec F32.emax p ->
  gt_zero p = true ->
  unit_abs (F32.div x p).
Proof.
  intros [Hvx Hnx] [Hvp Hsp] Hmag Hgt. unfold F32.div.
  destruct p as [sp|sp| |sp mp ep]; try contradiction; subst sp;
    try discriminate;
  destruct x as [sx|sx| |sx mx ex]; try congruence; cbn [SFdiv unit_abs]; try exact I.
  - (* infinity over a finite peak *)
    cbn [SFabs mag] in Hmag. simpl in Hvp.
    pose proof (finite_lt_infinity F32.prec F32.emax ltac:(reflexivity) _ _ Hvp).
    lia.
  - simpl in Hvx, Hvp. cbn [SFabs mag] in Hmag.
    destruct (bounded_canonical F32.prec F32.emax ltac:(reflexivity) _ _ Hvx)
      as [_ [_ [Hminx _]]].
    destruct (bounded_canonical F32.prec F32.emax ltac:(reflexivity) _ _ Hvp)
      as [_ [_ [Hminp _]]].
    pose proof (SFdiv_upper_one F32.prec F32.emax ltac:(reflexivity) ltac:(reflexivity)
                  sx mx ex false mp ep (emin F32.prec F32.emax) Hminx Hminp Hmag) as Hb.
    cbn [SFdiv] in Hb.
    destruct (let '(mz, ez, lz) :=
                SFdiv_core_binary F32.prec F32.emax (Z.pos mx) ex (Z.pos mp) ep in
              binary_round_aux F32.prec F32.emax (xorb sx false) mz ez lz)
      as [s|s| |s m e]; cbn [below] in Hb; try contradiction; cbn [unit_abs].
    + exact I.
    + destruct Hb as [_ [He Hm]]. split; [exact He|exact Hm].
Qed.

Lemma normalize_unit d d' :
  Forall good32 d -> normalize d = Some d' -> Forall unit_abs d'.
Proof.
  intros Hd. unfold normalize, np_max.
  destruct d as [|x0 l]; [discriminate|].
  change (map SFabs (x0 :: l)) with (SFabs x0 :: map SFabs l).
  inversion Hd as [|? ? Hx0 Hl]; subst.
  assert (Habs : Forall (absval F32.prec F32.emax) (map SFabs l)).
  { apply Forall_forall. intros y Hy. apply in_map_iff in Hy as [x [<- Hx]].
    apply SFabs_absval. apply (proj1 (Forall_forall _ _) Hl). assumption. }
  destruct (fold_maximum_spec F32.prec F32.emax ltac:(reflexivity) ltac:(reflexivity)
              (map SFabs l) (SFabs x0) (SFabs_absval _ Hx0) Habs) as [Hp [Hp0 Hpl]].
  set (peak := fold_left np_maximum (map SFabs l) (SFabs x0)) in *.
  assert (Hall : forall x, In x (x0 :: l) ->
            mag F32.prec F32.emax (SFabs x) <= mag F32.prec F32.emax peak).
  { intros x [<-|Hx]; [assumption|].
    apply (proj1 (Forall_forall _ _) Hpl). apply in_map. assumption. }
  intros H; injection H as <-.
  apply Forall_forall. intros y Hy.
  destruct (gt_zero peak) eqn:Hg.
  - change (In y (map (fun x => F32.div x peak) (x0 :: l))) in Hy.
    apply in_map_iff in Hy as [x [<- Hx]].
    apply div_by_peak; try assumption.
    + apply (proj1 (Forall_forall _ _) Hd). assumption.
    + apply Hall. assumption.
  - pose proof (gt_zero_absval _ Hp Hg) as Hz.
    specialize (Hall y Hy). rewrite Hz in Hall. cbn [mag] in Hall.
    destruct (mag_zero y (proj1 (Forall_forall _ _) Hd y Hy) Hall) as [s ->].
    exact I.
Qed.

(** ** The collapse to mono *)

Lemma in_int32_bounds z : in_int32 z = true -> -2147483648 <= z <= 2147483647.
Proof.
  unfold in_int32. intros H. apply andb_true_iff in H as [H1 H2].
  apply Z.leb_le in H1, H2. lia.
Qed.

(** The accumulation of a frame in [float64] is exact, in whatever order
    the channels are added: every partial sum is an integer below 2^53. *)
Lemma row_sum_from row : forall s,
  forallb in_int32 row = true ->
  Z.abs s + Z.of_nat (List.length row) * 2147483648 < 9007199254740992 ->
  fold_left (fun a z => F64.add a (F64.of_Z z)) row (F64.of_Z s)
  = F64.of_Z (s + Zsum row).
Proof.
  induction row as [|z row IH]; intros s Hrow Hs.
  - cbn [fold_left Zsum fold_right]. now rewrite Z.add_0_r.
  - cbn [forallb] in Hrow. apply andb_true_iff in Hrow as [Hz Hrow].
    apply in_int32_bounds in Hz.
    cbn [List.length] in Hs. rewrite Nat2Z.inj_succ in Hs.
    cbn [fold_left Zsum fold_right].
    unfold F64.add at 2. unfold F64.of_Z at 2 3.
    rewrite (SFadd_int F64.prec F64.emax ltac:(reflexivity) ltac:(reflexivity))
      by (change (2 ^ F64.prec) with 9007199254740992; lia).
    fold (F64.of_Z (s + z)).
    rewrite IH by (try assumption; lia).
    f_equal. unfold Zsum. lia.
Qed.

Lemma row_sum_exact row :
  row_ok row = true -> row_sum row = F64.of_Z (Zsum row).
Proof.
  unfold row_ok. intros H.
  apply andb_true_iff in H as [H Hhi]. apply andb_true_iff in H as [Hrow _].
  apply Z.leb_le in Hhi.
  unfold row_sum. change F64.zero with (F64.of_Z 0).
  rewrite row_sum_from by (try assumption; lia). reflexivity.
Qed.

Lemma row_sum_pair l r :
  in_int32 l = true -> in_int32 r = true ->
  row_sum [l; r] = F64.of_Z (l + r).
Proof.
  intros Hl Hr. rewrite row_sum_exact.
  - unfold Zsum. cbn [fold_right]. now rewrite Z.add_0_r.
  - unfold row_ok. cbn [forallb]. now rewrite Hl, Hr.
Qed.

Lemma SF2Q_half s p :
  Z.pos p < 2 ^ 53 ->
  Qeq (SF2Q (S754_finite s
               (Z.to_pos (Z.pos p * 2 ^ (53 - Zdigits2 (Z.pos p))))
               (Zdigits2 (Z.pos p) - 53 - 1)))
      (Qmake (cond_Zopp s (Z.pos p)) 2).
Proof.
  intros Hp.
  destruct (digits_small (Z.pos p) 53 ltac:(lia) ltac:(lia) Hp) as [Hd0 Hd].
  set (d := Zdigits2 (Z.pos p)) in *.
  assert (HP : 0 < 2 ^ (53 - d)) by (apply Z.pow_pos_nonneg; lia).
  unfold SF2Q. destruct (d - 53 - 1) as [|q|q] eqn:E; try lia.
  unfold Qeq. cbn [Qnum Qden].
  rewrite Pos2Z.inj_pow, Z2Pos.id by lia.
  replace (Z.pos q) with (1 + (53 - d)) by lia.
  rewrite pow2_split by lia. change (2 ^ 1) with 2.
  destruct s; cbn [cond_Zopp]; lia.
Qed.

(** The mean of a stereo frame is the exact half of the sum of the two
    channels. *)
Lemma row_mean_pair l r :
  in_int32 l = true -> in_int32 r = true ->
  finite_or_zero (row_mean [l; r]) /\ Qeq (SF2Q (row_mean [l; r])) (Qmake (l + r) 2).
Proof.
  intros Hl Hr. unfold row_mean. rewrite (row_sum_pair l r Hl Hr).
  apply in_int32_bounds in Hl, Hr.
  change (F64.of_Z (Z.of_nat (List.length [l; r])))
    with (binary_round F64.prec F64.emax false 2 0).
  unfold F64.div, F64.of_Z.
  destruct (l + r) as [|p|p] eqn:E; cbn [binary_normalize].
  - split; [exact I|reflexivity].
  - rewrite (SFdiv_two_small F64.prec F64.emax ltac:(reflexivity) ltac:(reflexivity))
      by (try discriminate; change (2 ^ F64.prec) with 9007199254740992; lia).
    split; [exact I|].
    apply (SF2Q_half false p). change (2 ^ 53) with 9007199254740992. lia.
  - rewrite (SFdiv_two_small F64.prec F64.emax ltac:(reflexivity) ltac:(reflexivity))
      by (try discriminate; change (2 ^ F64.prec) with 9007199254740992; lia).
    split; [exact I|].
    apply (SF2Q_half true p). change (2 ^ 53) with 9007199254740992. lia.
Qed.

(** ** Silence *)

Lemma row_sum_zeros row : forall acc,
  forallb (Z.eqb 0) row = true -> acc = S754_zero false ->
  fold_left (fun a z => F64.add a (F64.of_Z z)) row acc = S754_zero false.
Proof.
  induction row as [|z row IH]; intros acc Hrow Hacc; simpl; [assumption|].
  cbn [forallb] in Hrow. apply andb_true_iff in Hrow as [Hz Hrow].
  apply Z.eqb_eq in Hz. subst z acc. apply IH; [assumption|reflexivity].
Qed.

Lemma row_mean_zeros row :
  row_ok row = true -> forallb (Z.eqb 0) row = true ->
  f64_to_f32 (row_mean row) = S754_zero false.
Proof.
  unfold row_ok. intros H Hz.
  apply andb_true_iff in H as [H Hhi]. apply andb_true_iff in H as [_ Hlo].
  apply Z.leb_le in Hlo, Hhi.
  unfold row_mean, row_sum, F64.zero. rewrite (row_sum_zeros row _ Hz eq_refl).
  unfold F64.div, F64.of_Z.
  rewrite (binary_normalize_small F64.prec F64.emax ltac:(reflexivity) ltac:(reflexivity))
    by (change (2 ^ F64.prec) with 9007199254740992; lia).
  reflexivity.
Qed.

Lemma to_mono_silent a :
  pcm_ok a = true -> silent a = true ->
  to_mono_f32 a = repeat (S754_zero false) (frame_count a).
Proof.
  destruct a as [samples|frames]; cbn [pcm_ok silent to_mono_f32 frame_count].
  - intros _. induction samples as [|z l IH]; intros H; [reflexivity|].
    cbn [forallb] in H. apply andb_true_iff in H as [Hz Hl].
    apply Z.eqb_eq in Hz. subst z. cbn [map List.length repeat].
    now rewrite IH.
  - induction frames as [|row l IH]; intros Hok H; [reflexivity|].
    cbn [forallb] in Hok, H.
    apply andb_true_iff in Hok as [Hrow Hok]. apply andb_true_iff in H as [Hz Hl].
    cbn [map List.length repeat].
    now rewrite (row_mean_zeros row Hrow Hz), IH.
Qed.

Lemma fold_maximum_zeros k :
  fold_left np_maximum (map SFabs (repeat (S754_zero false) k)) (S754_zero false)
  = S754_zero false.
Proof. induction k as [|k IH]; [reflexivity|exact IH]. Qed.

Lemma normalize_zeros k :
  normalize (repeat (S754_zero false) (S k)) = Some (repeat (S754_zero false) (S k)).
Proof.
  unfold normalize. cbn [repeat map np_max].
  change (SFabs (S754_zero false)) with (S754_zero false).
  rewrite fold_maximum_zeros. reflexivity.
Qed.

Lemma scale_silent res a :
  1 <= res <= 65536 -> pcm_ok a = true -> silent a = true ->
  scale res a =
  match frame_count a with
  | O => None
  | S _ => Some (repeat ((res - 1) / 2) (frame_count a))
  end.
Proof.
  intros Hres Hok Hs. unfold scale. rewrite (to_mono_silent a Hok Hs).
  destruct (frame_count a) as [|k]; [reflexivity|].
  rewrite normalize_zeros, map_repeat. now rewrite quantize_zero.
Qed.


(** ** The loop and the text *)

Example array_name_of_drum_loop :
  array_name_of "/tmp/gradio/My Drum Loop.wav" = "My_Drum_Loop"%string.
Proof. reflexivity. Qed.

Lemma scale_length res a v :
  scale res a = Some v -> List.length v = frame_count a.
Proof.
  unfold scale, normalize.
  destruct (np_max (map SFabs (to_mono_f32 a))) as [peak|]; [|discriminate].
  intros H; injection H as <-.
  rewrite length_map.
  destruct (gt_zero peak); [rewrite length_map|];
    destruct a; simpl; now rewrite length_map.
Qed.

Lemma scale_None res a :
  scale res a = None <-> frame_count a = 0%nat.
Proof.
  unfold scale, normalize.
  destruct a as [l|l]; simpl; destruct l; simpl; split;
    intros H; try reflexivity; try discriminate.
Qed.

Lemma entries_from_manifest files i :
  entries_from i files =
  map (fun p => entry_of (fst p) (snd p)) (combine (seq i (List.length files)) files).
Proof.
  revert i; induction files as [|f rest IH]; intros i; simpl; [reflexivity|].
  now rewrite IH.
Qed.

(** The loop never touches the temporary directory. *)
Lemma loop_body_tmpdir res acc file st :
  snd (loop_body res acc file st) = st.
Proof.
  unfold loop_body, bind, wavfile_read, of_option, ret, raise.
  destruct (decoded file) as [a|]; simpl; [|reflexivity].
  destruct (scale res a); reflexivity.
Qed.

Lemma loop_tmpdir res files : forall acc st,
  snd (loop res files acc st) = st.
Proof.
  induction files as [|f rest IH]; intros acc st; simpl; [reflexivity|].
  unfold bind.
  pose proof (loop_body_tmpdir res acc f st) as Hb.
  destruct (loop_body res acc f st) as [[e|acc'] st']; simpl in Hb; subst st'.
  - reflexivity.
  - apply IH.
Qed.

Lemma loop_body_playable res acc f st :
  playable f = true ->
  loop_body res acc f st =
  (inr {| sample_definitions :=
            sample_definitions acc ++ [entry_of (sample_index acc) f];
          array_blocks := array_blocks acc ++ [block_of res f];
          sample_index := S (sample_index acc) |}, st).
Proof.
  unfold playable, loop_body, bind, wavfile_read, of_option, ret, raise,
    entry_of, block_of, frames_of, scaled_of.
  destruct (decoded f) as [a|]; [|discriminate].
  intros Hp.
  destruct (scale res a) as [v|] eqn:Hs.
  - now rewrite (scale_length _ _ _ Hs).
  - apply scale_None in Hs. rewrite Hs in Hp. discriminate.
Qed.

Lemma loop_playable res files : forall acc st,
  forallb playable files = true ->
  loop res files acc st =
  (inr {| sample_definitions :=
            sample_definitions acc ++ entries_from (sample_index acc) files;
          array_blocks := array_blocks acc ++ map (block_of res) files;
          sample_index := sample_index acc + List.length files |}, st).
Proof.
  induction files as [|f rest IH]; intros acc st Hall; simpl.
  - unfold ret. rewrite !app_nil_r, Nat.add_0_r. now destruct acc.
  - simpl in Hall. apply andb_true_iff in Hall as [Hf Hrest].
    unfold bind. rewrite (loop_body_playable _ _ _ _ Hf).
    rewrite IH by assumption. simpl.
    rewrite <- !app_assoc. simpl.
    now rewrite Nat.add_succ_r.
Qed.

Lemma loop_undecodable res files : forall acc st,
  existsb (fun f => match decoded f with None => true | Some _ => false end) files = true ->
  exists e, loop res files acc st = (inl e, st).
Proof.
  induction files as [|f rest IH]; intros acc st Hex; simpl in Hex; [discriminate|].
  simpl. unfold bind.
  pose proof (loop_body_tmpdir res acc f st) as Hb.
  destruct (loop_body res acc f st) as [[e|acc'] st'] eqn:Hl; simpl in Hb; subst st'.
  - now exists e.
  - apply orb_true_iff in Hex as [Hf|Hrest]; [|now apply IH].
    unfold loop_body, bind, wavfile_read, raise in Hl.
    destruct (decoded f); discriminate.
Qed.

Lemma string_app_assoc (a b c : string) :
  ((a ++ b) ++ c = a ++ (b ++ c))%string.
Proof. induction a as [|x a IH]; simpl; [reflexivity|now rewrite IH]. Qed.

Lemma nth_error_combine_seq {A} (l : list A) : forall k i x,
  nth_error l i = Some x ->
  nth_error (combine (seq k (List.length l)) l) i = Some ((k + i)%nat, x).
Proof.
  induction l as [|y l IH]; intros k [|i] x H; simpl in *; try discriminate.
  - injection H as ->. now rewrite Nat.add_0_r.
  - rewrite (IH (S k) i x H). f_equal. f_equal. lia.
Qed.

Lemma clip_range v lo hi : lo <= hi -> lo <= clip v lo hi <= hi.
Proof. unfold clip; lia. Qed.

Lemma quantize_range res x : 0 <= quantize res x <= 32767.
Proof. unfold quantize. apply clip_range. lia. Qed.

Lemma In_existsb_undecodable (f : upload) files :
  In f files -> decoded f = None ->
  existsb (fun f => match decoded f with None => true | Some _ => false end) files = true.
Proof.
  intros Hin Hd. apply existsb_exists. exists f. split; [assumption|].
  now rewrite Hd.
Qed.


(** The lines of a data array: after the tenth value of a line comes the
    line break, and the next line starts with the eleventh value. *)
Lemma array_lines_wrap array_name scaled :
  (10 < List.length scaled)%nat ->
  exists rest,
    array_lines array_name scaled =
    ("const int16_t " ++ array_name ++ "[] PROGMEM = {")%string
      :: join ", " (map str_Z (firstn 10 scaled))
      :: join ", " (map str_Z (firstn 10 (skipn 10 scaled)))
      :: rest
    /\ array_block array_name scaled =
       (("const int16_t " ++ array_name ++ "[] PROGMEM = {") ++ nl
          ++ join ", " (map str_Z (firstn 10 scaled)) ++ nl
          ++ join nl (join ", " (map str_Z (firstn 10 (skipn 10 scaled))) :: rest))%string.
Proof.
  intros Hlen. unfold array_block, array_lines, range_step.
  assert (Hk : (2 <= (List.length scaled + 10 - 1) / 10)%nat)
    by (apply Nat.div_le_lower_bound; lia).
  destruct ((List.length scaled + 10 - 1) / 10)%nat as [|[|k]]; try lia.
  cbn [seq map]. unfold slice.
  change (0 * 10)%nat with 0%nat. change (1 * 10)%nat with 10%nat.
  change (0 + 10 - 0)%nat with 10%nat. change (10 + 10 - 10)%nat with 10%nat.
  cbn [skipn app].
  eexists. split; reflexivity.
Qed.

(** ** The lines of a data array, line 37 *)

Lemma slice_ten {A} (l : list A) i : slice l i (i + 10) = firstn 10 (skipn i l).
Proof. unfold slice. f_equal. lia. Qed.

Lemma chunks_concat {A} k : forall l : list A,
  (List.length l <= 10 * k)%nat ->
  List.concat (map (fun j => firstn 10 (skipn (j * 10) l)) (seq 0 k)) = l.
Proof.
  induction k as [|k IH]; intros l Hl.
  - destruct l; [reflexivity|simpl in Hl; lia].
  - cbn [seq map List.concat]. rewrite <- seq_shift, map_map.
    cbn [Nat.mul skipn].
    rewrite (map_ext _ (fun j => firstn 10 (skipn (j * 10) (skipn 10 l)))).
    + rewrite IH by (rewrite length_skipn; lia). apply firstn_skipn.
    + intros j. f_equal. rewrite skipn_skipn. f_equal. lia.
Qed.

Lemma range_step_count n : (10 * ((n + 10 - 1) / 10) < n + 10)%nat.
Proof.
  pose proof (Nat.div_mod_eq (n + 10 - 1) 10) as H.
  pose proof (Nat.mod_upper_bound (n + 10 - 1) 10 ltac:(lia)). lia.
Qed.

Lemma range_step_covers n : (n <= 10 * ((n + 10 - 1) / 10))%nat.
Proof.
  pose proof (Nat.div_mod_eq (n + 10 - 1) 10) as H.
  pose proof (Nat.mod_upper_bound (n + 10 - 1) 10 ltac:(lia)). lia.
Qed.

Lemma value_lines_eq {A} (scaled : list A) :
  map (fun i => slice scaled i (i + 10)) (range_step (List.length scaled) 10)
  = map (fun j => firstn 10 (skipn (j * 10) scaled))
        (seq 0 ((List.length scaled + 10 - 1) / 10)).
Proof.
  unfold range_step. rewrite map_map. apply map_ext.
  intros j. apply slice_ten.
Qed.

(** ** Decimal numerals *)

Lemma to_uint_not_nil n : Nat.to_uint n <> Decimal.Nil.
Proof.
  pose proof (DecimalNat.Unsigned.to_of (Nat.to_uint n)) as H.
  rewrite DecimalNat.Unsigned.of_to in H. rewrite H.
  unfold Decimal.unorm. destruct (Decimal.nzhead _); discriminate.
Qed.
(** * The claims *)

Section Claims.
Local Open Scope string_scope.

(** ** C1 *)

(** C1: at resolution 40001 the affine map sends a full-scale sample
    (1.0 after normalization) to 40000.0, which truncates to 40000; the
    clip of that integer to [0, 32767], as the claim has it, is
    min(40000, 32767) = 32767.  Line 33 casts to int16 before it clips:
    the cast wraps 40000 to -25536 and the clip raises it to 0, so the
    mono file with the samples -1, 0, 1 converts to 0, 20000, 0. *)
Theorem full_scale_cast_precedes_clip :
  trunc (affine 40001 F32.one) = Some 40000
  /\ clip 40000 0 32767 = 32767
  /\ Z.min (40001 - 1) 32767 = 32767
  /\ astype_int16 (affine 40001 F32.one) = -25536
  /\ quantize 40001 F32.one = 0
  /\ scale 40001 (Mono [-1; 0; 1]) = Some [0; 20000; 0].
Proof. repeat split; vm_compute; reflexivity. Qed.

(** ** C2 *)

(** C2, at a mono file of eleven frames: the ten values of the first line
    are separated by a comma and a space, and the line ends right after
    the tenth value: the text has no comma between the tenth and the
    eleventh value, only the line break. *)
Theorem no_comma_at_line_break st :
  header_output
    [ {| name := "click.wav";
         decoded := Some (Mono [-1; 1; -1; 1; -1; 1; -1; 1; -1; 1; -1]) |} ]
    4096 st
  = (inr ("#define NUM_SAMPLES 1" ++ nl ++
          nl ++
          "struct SampleData {" ++ nl ++
          "    const uint16_t index;" ++ nl ++
          "    const int16_t* data;" ++ nl ++
          "    const uint32_t size;" ++ nl ++
          "    const char* name;" ++ nl ++
          "};" ++ nl ++
          nl ++
          "SampleData sample[NUM_SAMPLES] = {" ++ nl ++
          "    { 0, &click[0], 11, " ++ dquote ++ "click" ++ dquote ++ " }," ++ nl ++
          "};" ++ nl ++
          nl ++
          "const int16_t click[] PROGMEM = {" ++ nl ++
          "0, 4095, 0, 4095, 0, 4095, 0, 4095, 0, 4095" ++ nl ++
          "0" ++ nl ++
          "};" ++ nl), st).
Proof. vm_compute. reflexivity. Qed.

(** ** C3 *)

(** C3: whatever the file and the resolution, every quantized value v
    that the conversion emits satisfies 0 <= v <= 32767. *)
Theorem quantized_values_in_int16_range res a v :
  scale res a = Some v -> Forall (fun q => 0 <= q <= 32767) v.
Proof.
  unfold scale. destruct (normalize (to_mono_f32 a)) as [d|]; [|discriminate].
  intros H; injection H as <-.
  apply Forall_forall. intros q Hq.
  apply in_map_iff in Hq as [x [<- _]].
  apply quantize_range.
Qed.

Lemma quantized_values_in_int16_range_witness :
  Forall (fun q => 0 <= q <= 32767) [0; 20000; 0].
Proof.
  apply (quantized_values_in_int16_range 40001 (Mono [-1; 0; 1])).
  vm_compute. reflexivity.
Defined.

(** ** C4 *)

(** C4, where the claim fails: at resolution 0, which is at most 32768,
    a one-frame silent file quantizes to the value 0, and 0 is not within
    [0, 0 - 1]. *)
Lemma range_empty_at_resolution_zero :
  0 <= 32768 /\ scale 0 (Mono [0]) = Some [0] /\ ~ (0 <= 0 <= 0 - 1).
Proof.
  split; [lia|]. split; [vm_compute; reflexivity|lia].
Qed.

(** C4, amended: for a resolution between 1 and 32768 and every integer
    PCM file, every quantized value lies within [0, resolution - 1]. *)
Theorem quantized_below_resolution res a v :
  1 <= res <= 32768 -> pcm_ok a = true ->
  scale res a = Some v -> Forall (fun q => 0 <= q <= res - 1) v.
Proof.
  intros Hres Hok. unfold scale.
  destruct (normalize (to_mono_f32 a)) as [d|] eqn:Hd; [|discriminate].
  intros H; injection H as <-.
  pose proof (normalize_unit _ _ (to_mono_good a Hok) Hd) as Hu.
  apply Forall_forall. intros q Hq.
  apply in_map_iff in Hq as [x [<- Hx]].
  apply quantize_unit; [assumption|].
  apply (proj1 (Forall_forall _ _) Hu). assumption.
Qed.

Lemma quantized_below_resolution_witness :
  Forall (fun q => 0 <= q <= 1024 - 1) [0; 170; 682; 1023].
Proof.
  apply (quantized_below_resolution 1024 (Multi [[-3; -3]; [-1; -3]; [2; 0]; [3; 3]])).
  - lia.
  - reflexivity.
  - vm_compute. reflexivity.
Defined.

(** ** C5 *)

(** C5, where the claim fails: a one-frame silent file quantizes to 0 at
    resolution 0, where floor((0 + 1) / 2 * (0 - 1)) is -1, and to 0 at
    resolution 70001, where floor((0 + 1) / 2 * 70000) is 35000. *)
Lemma silence_not_at_midpoint :
  scale 0 (Mono [0]) = Some [0] /\ (0 - 1) / 2 = -1
  /\ scale 70001 (Mono [0]) = Some [0] /\ (70001 - 1) / 2 = 35000.
Proof. repeat split; vm_compute; reflexivity. Qed.

(** C5, amended: for a resolution between 1 and 65536, a silent integer
    PCM file converts without a division by zero, and every value it
    emits is floor((resolution - 1) / 2), which is 2047 at resolution
    4096; a file without frames emits no value ([np.max] raises
    ValueError). *)
Theorem silence_quantizes_to_midpoint res a :
  1 <= res <= 65536 -> pcm_ok a = true -> silent a = true ->
  scale res a =
    match frame_count a with
    | O => None
    | S _ => Some (repeat ((res - 1) / 2) (frame_count a))
    end
  /\ (4096 - 1) / 2 = 2047.
Proof.
  intros Hres Hok Hs. split; [apply scale_silent; assumption|reflexivity].
Qed.

Lemma silence_quantizes_to_midpoint_witness :
  scale 4096 (Multi [[0; 0]; [0; 0]; [0; 0]]) = Some [2047; 2047; 2047].
Proof.
  exact (proj1 (silence_quantizes_to_midpoint 4096 (Multi [[0; 0]; [0; 0]; [0; 0]])
                  ltac:(lia) eq_refl eq_refl)).
Defined.

(** ** C6 *)

(** C6: a 2-D array is collapsed to mono first, and what is normalized
    and quantized is, frame by frame, the mean of the channels; for a
    stereo frame of integer samples l and r that mean is exactly
    (l + r) / 2, and the channels L = 1, -1 and R = -1, 1 reduce to the
    mono signal 0, 0. *)
Theorem stereo_collapses_to_mean l r :
  in_int32 l = true -> in_int32 r = true ->
  finite_or_zero (row_mean [l; r])
  /\ Qeq (SF2Q (row_mean [l; r])) (Qmake (l + r) 2)
  /\ (forall res frames,
        scale res (Multi frames) =
        match normalize (map (fun row => f64_to_f32 (row_mean row)) frames) with
        | None => None
        | Some d => Some (map (quantize res) d)
        end)
  /\ map row_mean [[1; -1]; [-1; 1]] = [S754_zero false; S754_zero false].
Proof.
  intros Hl Hr.
  destruct (row_mean_pair l r Hl Hr) as [Hf Hq].
  split; [exact Hf|]. split; [exact Hq|]. split; [reflexivity|].
  vm_compute. reflexivity.
Qed.

Lemma stereo_collapses_to_mean_witness :
  Qeq (SF2Q (row_mean [3; -8])) (Qmake (3 + -8) 2).
Proof.
  exact (proj1 (proj2 (stereo_collapses_to_mean 3 (-8) eq_refl eq_refl))).
Defined.

(** ** C7 *)

(** C7: for N files that each decode to audio with at least one frame,
    the header that is generated and written is the text below: the
    NUM_SAMPLES N line, the struct, one manifest entry per file in input
    order, the entry at position i printing the index i and, as its size,
    the frame count of file i, and then the data arrays, the array of a
    file holding exactly as many values as the file has frames.  The
    numbers in the text are decimal numerals that read back as the
    numbers printed. *)
Theorem manifest_counts_and_indices files res st :
  forallb playable files = true ->
  let N := List.length files in
  let entry (p : nat * upload) :=
    "    { " ++ str_nat (fst p) ++ ", &" ++ array_name_of (name (snd p))
      ++ "[0], " ++ str_nat (frames_of (snd p)) ++ ", "
      ++ dquote ++ array_name_of (name (snd p)) ++ dquote ++ " }," in
  let data_array (f : upload) :=
    let values := scaled_of res f in
    join nl
      (("const int16_t " ++ array_name_of (name f) ++ "[] PROGMEM = {")
         :: map (fun j => join ", " (map str_Z (firstn 10 (skipn (j * 10) values))))
                (seq 0 ((List.length values + 9) / 10))
         ++ ["};" ++ nl]) in
  let text :=
    "#define NUM_SAMPLES " ++ str_nat N ++ nl ++ nl ++
    "struct SampleData {" ++ nl ++
    "    const uint16_t index;" ++ nl ++
    "    const int16_t* data;" ++ nl ++
    "    const uint32_t size;" ++ nl ++
    "    const char* name;" ++ nl ++
    "};" ++ nl ++ nl ++
    "SampleData sample[NUM_SAMPLES] = {" ++ nl ++
    join nl (map entry (combine (seq 0 N) files)) ++ nl ++
    "};" ++ nl ++ nl ++
    join nl (map data_array files) in
  header_output files res st = (inr text, st)
  /\ convert_wavs_to_header files res st = write_temp text st
  /\ List.length (combine (seq 0 N) files) = N
  /\ (forall i f, nth_error files i = Some f ->
        nth_error (combine (seq 0 N) files) i = Some (i, f)
        /\ List.length (scaled_of res f) = frames_of f)
  /\ (forall n, option_map Nat.of_uint (NilZero.uint_of_string (str_nat n)) = Some n).
Proof.
  intros Hall N entry data_array text.
  assert (Hblocks : map (block_of res) files = map data_array files).
  { apply map_ext. intros f. unfold data_array, block_of, array_block, array_lines.
    cbv zeta. rewrite <- map_map with (g := fun run => join ", " (map str_Z run)).
    rewrite value_lines_eq, map_map.
    replace ((List.length (scaled_of res f) + 10 - 1) / 10)%nat
      with ((List.length (scaled_of res f) + 9) / 10)%nat by (f_equal; lia).
    reflexivity. }
  assert (Hout : header_output files res st = (inr text, st)).
  { unfold text, header_output, bind.
    rewrite (loop_playable res files _ st Hall).
    cbn [sample_definitions array_blocks app sample_index].
    unfold ret, assemble, sample_def_block, header_lines.
    rewrite entries_from_manifest, Hblocks.
    cbn [join]. rewrite !string_app_assoc. reflexivity. }
  split; [exact Hout|]. split; [|split; [|split]].
  - unfold convert_wavs_to_header, bind. now rewrite Hout.
  - unfold N. rewrite length_combine, length_seq. apply Nat.min_id.
  - intros i f Hi. split.
    + apply (nth_error_combine_seq files 0 i f Hi).
    + apply nth_error_In in Hi.
      apply (proj1 (forallb_forall _ _) Hall) in Hi.
      unfold playable, scaled_of, frames_of in *.
      destruct (decoded f) as [a|]; [|discriminate].
      destruct (scale res a) as [v|] eqn:Hs.
      * apply (scale_length _ _ _ Hs).
      * apply scale_None in Hs. rewrite Hs in Hi. discriminate.
  - intros n. unfold str_nat.
    rewrite NilZero.usu by apply to_uint_not_nil.
    cbn [option_map]. f_equal. apply DecimalNat.Unsigned.of_to.
Qed.

Lemma manifest_counts_and_indices_witness :
  header_output
    [ {| name := "/tmp/gradio/kick.wav"; decoded := Some (Mono [-1; 0; 1]) |};
      {| name := "/tmp/gradio/wide pad.wav";
         decoded := Some (Multi [[1; -1]; [-1; 1]]) |} ]
    4096 empty_tmpdir
  = (inr ("#define NUM_SAMPLES 2" ++ nl ++
          nl ++
          "struct SampleData {" ++ nl ++
          "    const uint16_t index;" ++ nl ++
          "    const int16_t* data;" ++ nl ++
          "    const uint32_t size;" ++ nl ++
          "    const char* name;" ++ nl ++
          "};" ++ nl ++
          nl ++
          "SampleData sample[NUM_SAMPLES] = {" ++ nl ++
          "    { 0, &kick[0], 3, " ++ dquote ++ "kick" ++ dquote ++ " }," ++ nl ++
          "    { 1, &wide_pad[0], 2, " ++ dquote ++ "wide_pad" ++ dquote ++ " }," ++ nl ++
          "};" ++ nl ++
          nl ++
          "const int16_t kick[] PROGMEM = {" ++ nl ++
          "0, 2047, 4095" ++ nl ++
          "};" ++ nl ++
          nl ++
          "const int16_t wide_pad[] PROGMEM = {" ++ nl ++
          "2047, 2047" ++ nl ++
          "};" ++ nl),
     empty_tmpdir).
Proof.
  refine (eq_trans
    (proj1 (manifest_counts_and_indices
       [ {| name := "/tmp/gradio/kick.wav"; decoded := Some (Mono [-1; 0; 1]) |};
         {| name := "/tmp/gradio/wide pad.wav";
            decoded := Some (Multi [[1; -1]; [-1; 1]]) |} ]
       4096 empty_tmpdir eq_refl)) _).
  vm_compute. reflexivity.
Defined.

(** ** C8 *)

(** C8: the mono file with the three decoded values -1, 0, 1 (peak 1.0)
    quantizes at resolution 4096 to exactly 0, 2047, 4095, and the three
    values are at most 32767. *)
Theorem three_sample_round_trip :
  scale 4096 (Mono [-1; 0; 1]) = Some [0; 2047; 4095]
  /\ Forall (fun v => v <= 32767) [0; 2047; 4095].
Proof.
  split; [vm_compute; reflexivity|].
  repeat constructor; lia.
Qed.

(** ** C9 *)

(** C9: when one file of the batch cannot be decoded, the call fails and
    the temporary directory is left as it was: no header is written, not
    even for the files that decoded before the failure. *)
Theorem decode_failure_aborts_batch files res st f :
  In f files -> decoded f = None ->
  exists e, convert_wavs_to_header files res st = (inl e, st).
Proof.
  intros Hin Hd.
  destruct (loop_undecodable res files
              {| sample_definitions := []; array_blocks := []; sample_index := 0 |}
              st (In_existsb_undecodable f files Hin Hd)) as [e He].
  exists e. unfold convert_wavs_to_header, header_output, bind.
  now rewrite He.
Qed.

Lemma decode_failure_aborts_batch_witness :
  exists e,
    convert_wavs_to_header
      [ {| name := "kick.wav"; decoded := Some (Mono [-1; 0; 1]) |};
        {| name := "broken.wav"; decoded := None |};
        {| name := "snare.wav"; decoded := Some (Mono [3; -3]) |} ]
      4096 empty_tmpdir
    = (inl e, empty_tmpdir).
Proof.
  apply (decode_failure_aborts_batch _ _ _
           {| name := "broken.wav"; decoded := None |}).
  - simpl. right. left. reflexivity.
  - reflexivity.
Defined.

(** ** C10 *)

(** C10: with no input file the conversion succeeds for every resolution;
    the text it writes is the NUM_SAMPLES 0 line, the SampleData struct
    and a manifest literal whose braces enclose one blank line, with no
    data array after it. *)
Theorem empty_batch_header res written next :
  convert_wavs_to_header [] res
    {| tmp_files := written; tmp_next := next; tmp_writable := true |}
  = (inr (tmp_path next),
     {| tmp_files :=
          (tmp_path next,
           "#define NUM_SAMPLES 0" ++ nl ++
           nl ++
           "struct SampleData {" ++ nl ++
           "    const uint16_t index;" ++ nl ++
           "    const int16_t* data;" ++ nl ++
           "    const uint32_t size;" ++ nl ++
           "    const char* name;" ++ nl ++
           "};" ++ nl ++
           nl ++
           "SampleData sample[NUM_SAMPLES] = {" ++ nl ++
           nl ++
           "};" ++ nl ++
           nl) :: written;
        tmp_next := S next;
        tmp_writable := true |}).
Proof. reflexivity. Qed.

End Claims.

(** * Further properties of the generator *)

(** ** The identifier of a file, line 35 *)

Section Identifiers.
Local Open Scope string_scope.

Lemma contains_app c a b :
  contains c (a ++ b) = contains c a || contains c b.
Proof.
  induction a as [|x a IH]; cbn [append contains]; [reflexivity|].
  now rewrite IH, orb_assoc.
Qed.

Lemma contains_replace_spaces c s :
  c <> " "%char -> c <> "_"%char ->
  contains c (replace_spaces s) = contains c s.
Proof.
  intros Hs Hu. induction s as [|x s IH]; cbn [replace_spaces contains]; [reflexivity|].
  rewrite IH. f_equal.
  destruct (Ascii.eqb_spec x " ") as [->|Hx].
  - destruct (Ascii.eqb_spec c "_"), (Ascii.eqb_spec c " "); congruence.
  - reflexivity.
Qed.

Lemma replace_spaces_no_space s : contains " " (replace_spaces s) = false.
Proof.
  induction s as [|x s IH]; cbn [replace_spaces contains]; [reflexivity|].
  rewrite IH, orb_false_r.
  destruct (Ascii.eqb_spec x " ") as [->|Hx]; [reflexivity|].
  apply Ascii.eqb_neq. congruence.
Qed.

Lemma replace_spaces_idem s : replace_spaces (replace_spaces s) = replace_spaces s.
Proof.
  induction s as [|x s IH]; cbn [replace_spaces]; [reflexivity|].
  rewrite IH. f_equal.
  destruct (Ascii.eqb_spec x " ") as [->|Hx]; [reflexivity|].
  destruct (Ascii.eqb_spec x " "); congruence.
Qed.

Lemma basename_replace_spaces p :
  basename (replace_spaces p) = replace_spaces (basename p).
Proof.
  induction p as [|x p IH]; [reflexivity|].
  cbn [replace_spaces basename].
  rewrite contains_replace_spaces by discriminate.
  destruct (contains "/" p); [exact IH|].
  destruct (Ascii.eqb_spec x " ") as [->|Hx]; [reflexivity|].
  destruct (Ascii.eqb x "/"); [reflexivity|].
  cbn [replace_spaces]. destruct (Ascii.eqb_spec x " "); congruence.
Qed.

Lemma upto_last_dot_replace_spaces p :
  upto_last_dot (replace_spaces p) = replace_spaces (upto_last_dot p).
Proof.
  induction p as [|x p IH]; [reflexivity|].
  cbn [replace_spaces upto_last_dot].
  rewrite contains_replace_spaces by discriminate.
  destruct (contains "." p).
  - cbn [replace_spaces]. now rewrite IH.
  - destruct (Ascii.eqb_spec x " ") as [->|Hx]; [reflexivity|].
    destruct (Ascii.eqb x "."); [reflexivity|].
    cbn [replace_spaces]. destruct (Ascii.eqb_spec x " "); congruence.
Qed.

Lemma all_dots_replace_spaces s : all_dots (replace_spaces s) = all_dots s.
Proof.
  induction s as [|x s IH]; [reflexivity|].
  cbn [replace_spaces all_dots]. rewrite IH. f_equal.
  destruct (Ascii.eqb_spec x " ") as [->|Hx]; reflexivity.
Qed.

Lemma splitext_root_replace_spaces p :
  splitext_root (replace_spaces p) = replace_spaces (splitext_root p).
Proof.
  unfold splitext_root.
  rewrite upto_last_dot_replace_spaces, all_dots_replace_spaces.
  now destruct (all_dots (upto_last_dot p)).
Qed.

Lemma basename_dir dir base :
  contains "/" base = false -> basename (dir ++ String "/" base) = base.
Proof.
  intros Hb. induction dir as [|x dir IH].
  - cbn [append basename]. now rewrite Hb, Ascii.eqb_refl.
  - cbn [append basename]. rewrite contains_app. cbn [contains].
    rewrite Ascii.eqb_refl, orb_true_r. exact IH.
Qed.

Lemma basename_plain base : contains "/" base = false -> basename base = base.
Proof.
  destruct base as [|x base]; [reflexivity|].
  cbn [contains basename]. intros H. apply orb_false_iff in H as [Hx Hb].
  rewrite Hb. rewrite Ascii.eqb_sym in Hx. now rewrite Hx.
Qed.

Lemma upto_last_dot_ext stem ext :
  contains "." ext = false -> upto_last_dot (stem ++ String "." ext) = stem.
Proof.
  intros He. induction stem as [|x stem IH].
  - cbn [append upto_last_dot]. now rewrite He, Ascii.eqb_refl.
  - cbn [append upto_last_dot]. rewrite contains_app. cbn [contains].
    rewrite Ascii.eqb_refl, orb_true_r. now rewrite IH.
Qed.

Lemma upto_last_dot_no_dot p : contains "." p = false -> upto_last_dot p = p.
Proof.
  destruct p as [|x p]; [reflexivity|].
  cbn [contains upto_last_dot]. intros H. apply orb_false_iff in H as [Hx Hp].
  rewrite Hp. rewrite Ascii.eqb_sym in Hx. now rewrite Hx.
Qed.

Lemma upto_last_dot_leading dots rest :
  all_dots dots = true -> contains "." rest = false ->
  upto_last_dot (dots ++ rest) = dots ++ rest
  \/ all_dots (upto_last_dot (dots ++ rest)) = true.
Proof.
  intros Hd Hr. induction dots as [|x dots IH].
  - left. apply upto_last_dot_no_dot. exact Hr.
  - cbn [all_dots] in Hd. apply andb_true_iff in Hd as [Hx Hd].
    cbn [append upto_last_dot].
    destruct (contains "." (dots ++ rest)).
    + destruct (IH Hd) as [E|E].
      * left. now rewrite E.
      * right. cbn [all_dots]. now rewrite Hx, E.
    + right. now rewrite Hx.
Qed.

Lemma splitext_root_leading dots rest :
  all_dots dots = true -> contains "." rest = false ->
  splitext_root (dots ++ rest) = dots ++ rest.
Proof.
  intros Hd Hr. unfold splitext_root.
  destruct (upto_last_dot_leading dots rest Hd Hr) as [E|E].
  - rewrite E. now destruct (all_dots (dots ++ rest)).
  - now rewrite E.
Qed.

End Identifiers.

(** ** The order of failures, lines 22-31 and 47-49 *)

Lemma loop_app res pre : forall rest acc st,
  loop res (pre ++ rest) acc st =
  match loop res pre acc st with
  | (inl e, st') => (inl e, st')
  | (inr acc', st') => loop res rest acc' st'
  end.
Proof.
  induction pre as [|f pre IH]; intros rest acc st; [reflexivity|].
  cbn [app loop]. unfold bind.
  destruct (loop_body res acc f st) as [[e|acc'] st']; [reflexivity|].
  apply IH.
Qed.

Lemma loop_body_unplayable res acc f st :
  playable f = false -> loop_body res acc f st = (inl (failure_of f), st).
Proof.
  unfold playable, failure_of, loop_body, bind, wavfile_read, of_option, ret, raise.
  destruct (decoded f) as [a|]; [|reflexivity].
  intros Hp. apply negb_false_iff, Nat.eqb_eq in Hp.
  apply (proj2 (scale_None res a)) in Hp. now rewrite Hp.
Qed.


Lemma loop_first_failure res pre f post acc st :
  forallb playable pre = true -> playable f = false ->
  loop res (pre ++ f :: post) acc st = (inl (failure_of f), st).
Proof.
  intros Hpre Hf. rewrite loop_app, (loop_playable res pre acc st Hpre).
  cbn [loop]. unfold bind. now rewrite (loop_body_unplayable _ _ _ _ Hf).
Qed.

(** ** The cast and the clip, line 33 *)

Lemma wrap16_range z : -32768 <= wrap16 z <= 32767.
Proof.
  unfold wrap16. pose proof (Z.mod_pos_bound (z + 32768) 65536 ltac:(lia)). lia.
Qed.

Lemma astype_int16_range y : -32768 <= astype_int16 y <= 32767.
Proof.
  unfold astype_int16. destruct (trunc y) as [t|]; [|lia].
  destruct ((-2147483648 <=? t) && (t <=? 2147483647)); [apply wrap16_range|lia].
Qed.

Lemma mul_zero_r_cast h : astype_int16 (F32.mul h (S754_zero false)) = 0.
Proof. destruct h as [s|s| |s m e]; reflexivity. Qed.

Lemma mul_zero_l_cast s y :
  y <> S754_nan -> astype_int16 (F32.mul (S754_zero s) y) = 0.
Proof. destruct y as [t|t| |t m e]; intros H; try reflexivity; congruence. Qed.

Lemma trunc_of_Z_small n :
  0 < n < 16777216 -> trunc (F32.of_Z n) = Some n.
Proof.
  intros Hn. rewrite F32_of_Z_small by assumption.
  destruct (digits_small n 24 ltac:(lia) ltac:(lia) ltac:(change (2 ^ 24) with 16777216; lia))
    as [Hd0 Hd].
  destruct (Z.eq_dec (Zdigits2 n) 24) as [E|E].
  - rewrite E. change (24 - 24) with 0. rewrite Z.pow_0_r, Z.mul_1_r.
    cbn [trunc]. rewrite Z2Pos.id by lia. now rewrite Z.pow_0_r, Z.mul_1_r.
  - pose proof (trunc_scaled n (24 - Zdigits2 n) 0
                  ltac:(lia) ltac:(lia) ltac:(lia) ltac:(lia)) as Ht.
    replace (- (24 - Zdigits2 n + 0)) with (Zdigits2 n - 24) in Ht by lia.
    now rewrite Z.pow_0_r, Z.div_1_r in Ht.
Qed.

(** ** More on rounding *)

Lemma shr_1_double p :
  shr_1 {| shr_m := Z.pos p~0; shr_r := false; shr_s := false |}
  = {| shr_m := Z.pos p; shr_r := false; shr_s := false |}.
Proof. reflexivity. Qed.

Lemma shr_iter_scaled b : forall P,
  0 < P ->
  Nat.iter b shr_1 {| shr_m := P * 2 ^ Z.of_nat b; shr_r := false; shr_s := false |}
  = {| shr_m := P; shr_r := false; shr_s := false |}.
Proof.
  induction b as [|b IH]; intros P HP.
  - cbn [Nat.iter nat_rect]. change (Z.of_nat 0) with 0.
    now rewrite Z.pow_0_r, Z.mul_1_r.
  - rewrite Nat.iter_succ_r, Nat2Z.inj_succ, Z.pow_succ_r by lia.
    replace (P * (2 * 2 ^ Z.of_nat b)) with (2 * (P * 2 ^ Z.of_nat b)) by lia.
    assert (0 < 2 ^ Z.of_nat b) by (apply Z.pow_pos_nonneg; lia).
    destruct (P * 2 ^ Z.of_nat b) as [|q|q] eqn:E; try nia.
    change (2 * Z.pos q) with (Z.pos q~0). rewrite shr_1_double, <- E.
    apply IH. assumption.
Qed.

Section Rounding2.
Variables prec emax : Z.
Hypothesis Hprec : 1 < prec.
Hypothesis Hemax : prec < emax.

Local Abbreviation fexp := (fexp prec emax).
Local Abbreviation emin := (emin prec emax).

(** Rounding depends on the number, not on how long its mantissa is
    written. *)
Lemma shr_fexp_scaled P b E :
  0 < P -> 0 <= b -> E <= fexp (Zdigits2 P + E) ->
  shr_fexp prec emax (P * 2 ^ b) (E - b) loc_Exact
  = shr_fexp prec emax P E loc_Exact.
Proof.
  intros HP Hb HE. unfold shr_fexp.
  rewrite Zdigits2_mul_pow2 by lia.
  replace (Zdigits2 P + b + (E - b)) with (Zdigits2 P + E) by lia.
  set (t := fexp (Zdigits2 P + E)) in *.
  cbn [shr_record_of_loc]. unfold shr.
  assert (Hone : forall n : Z, 0 <= n ->
            (match n with
             | Z.pos p => (SpecFloat.iter_pos shr_1 p
                             {| shr_m := P; shr_r := false; shr_s := false |}, E + n)
             | _ => ({| shr_m := P; shr_r := false; shr_s := false |}, E)
             end)
            = (Nat.iter (Z.to_nat n) shr_1
                 {| shr_m := P; shr_r := false; shr_s := false |}, E + n)).
  { intros [|p|p] Hn; try lia.
    - now rewrite Z.add_0_r.
    - now rewrite iter_pos_nat. }
  assert (Htwo : forall n : Z, 0 <= n ->
            (match n with
             | Z.pos p => (SpecFloat.iter_pos shr_1 p
                             {| shr_m := P * 2 ^ b; shr_r := false; shr_s := false |},
                           E - b + n)
             | _ => ({| shr_m := P * 2 ^ b; shr_r := false; shr_s := false |}, E - b)
             end)
            = (Nat.iter (Z.to_nat n) shr_1
                 {| shr_m := P * 2 ^ b; shr_r := false; shr_s := false |}, E - b + n)).
  { intros [|p|p] Hn; try lia.
    - now rewrite Z.add_0_r.
    - now rewrite iter_pos_nat. }
  rewrite (Hone (t - E)) by lia. rewrite (Htwo (t - (E - b))) by lia.
  f_equal; [|lia].
  replace (Z.to_nat (t - (E - b))) with (Z.to_nat (t - E) + Z.to_nat b)%nat by lia.
  rewrite Nat.iter_add. f_equal.
  rewrite <- (Z2Nat.id b) at 2 by lia.
  apply shr_iter_scaled. assumption.
Qed.

Lemma binary_round_aux_scaled s P b E :
  0 < P -> 0 <= b -> E <= fexp (Zdigits2 P + E) ->
  binary_round_aux prec emax s (P * 2 ^ b) (E - b) loc_Exact
  = binary_round_aux prec emax s P E loc_Exact.
Proof.
  intros HP Hb HE. unfold binary_round_aux.
  now rewrite shr_fexp_scaled.
Qed.

Lemma binary_round_rescaled s mx p a e :
  Z.pos mx = Z.pos p * 2 ^ a -> 0 <= a ->
  binary_round prec emax s mx (e - a) = binary_round prec emax s p e.
Proof.
  intros Hmx Ha. unfold binary_round.
  assert (Hd : Z.pos (digits2_pos mx) + (e - a) = Z.pos (digits2_pos p) + e).
  { change (Z.pos (digits2_pos mx)) with (Zdigits2 (Z.pos mx)).
    change (Z.pos (digits2_pos p)) with (Zdigits2 (Z.pos p)).
    rewrite Hmx, Zdigits2_mul_pow2 by lia. lia. }
  rewrite Hd. set (t := fexp (Z.pos (digits2_pos p) + e)).
  pose proof (shl_align_spec mx (e - a) t) as H1.
  pose proof (shl_align_spec p e t) as H2.
  destruct (shl_align mx (e - a) t) as [m1 e1].
  destruct (shl_align p e t) as [m2 e2].
  destruct H1 as [E1 M1]. destruct H2 as [E2 M2].
  assert (Hm1 : Z.pos m1 = Z.pos m2 * 2 ^ (e2 - e1)).
  { rewrite M1, M2, Hmx, <- !Z.mul_assoc, <- !Z.pow_add_r by lia.
    f_equal. f_equal. lia. }
  rewrite Hm1. replace e1 with (e2 - (e2 - e1)) at 2 by lia.
  apply binary_round_aux_scaled; try lia.
  rewrite M2, Zdigits2_mul_pow2 by lia.
  change (Zdigits2 (Z.pos p)) with (Z.pos (digits2_pos p)).
  replace (Z.pos (digits2_pos p) + (e - e2) + e2) with (Z.pos (digits2_pos p) + e) by lia.
  fold t. lia.
Qed.

(** A number at or above the smallest subnormal never rounds to zero. *)
Lemma shift_lt_digits m e :
  0 < m -> emin <= e -> shift_of prec emax m e < Zdigits2 m.
Proof.
  intros Hm He. pose proof (Zdigits2_pos m Hm).
  unfold shift_of, SpecFloat.fexp. lia.
Qed.

Lemma shift_keeps_positive m e :
  0 < m -> emin <= e -> 0 < m / 2 ^ shift_of prec emax m e.
Proof.
  intros Hm He. pose proof (shift_lt_digits m e Hm He) as Hk.
  assert (Hk0 : 0 <= shift_of prec emax m e) by (unfold shift_of; lia).
  apply Z.div_str_pos. split; [apply Z.pow_pos_nonneg; lia|].
  pose proof (Zdigits2_bounds m Hm) as [Hlo _].
  assert (2 ^ shift_of prec emax m e <= 2 ^ (Zdigits2 m - 1))
    by (apply Z.pow_le_mono_r; lia).
  lia.
Qed.

Lemma binary_round_aux_nonzero s mx ex lx z :
  0 < mx -> emin <= ex -> binary_round_aux prec emax s mx ex lx <> S754_zero z.
Proof.
  intros Hm He.
  destruct (binary_round_aux_spec prec emax s mx ex lx ltac:(lia)) as [m2 [Hm2 ->]].
  cbv zeta in Hm2.
  pose proof (shift_keeps_positive mx ex Hm He) as H1.
  assert (Hk1 : 0 <= shift_of prec emax mx ex) by (unfold shift_of; lia).
  pose proof (shift_keeps_positive m2 (ex + shift_of prec emax mx ex)
                ltac:(lia) ltac:(lia)) as H3.
  unfold pack.
  destruct (m2 / 2 ^ shift_of prec emax m2 (ex + shift_of prec emax mx ex)) as [|q|q];
    try lia.
  destruct (_ <=? _); discriminate.
Qed.

Lemma binary_round_nonzero s p e z :
  emin <= e -> binary_round prec emax s p e <> S754_zero z.
Proof.
  intros He. unfold binary_round.
  pose proof (shl_align_spec p e (fexp (Z.pos (digits2_pos p) + e))) as Hs.
  destruct (shl_align p e (fexp (Z.pos (digits2_pos p) + e))) as [mz ez].
  destruct Hs as [Hez _].
  apply binary_round_aux_nonzero; [lia|].
  pose proof (fexp_ge_emin prec emax (Z.pos (digits2_pos p) + e)). lia.
Qed.

(** A float divided by its own magnitude is plus or minus one. *)
Lemma SFdiv_self s m e :
  SFdiv prec emax (S754_finite s m e) (S754_finite false m e)
  = S754_finite s (Z.to_pos (2 ^ (prec - 1))) (1 - prec).
Proof.
  cbn [SFdiv].
  destruct (SFdiv_core_binary_spec prec emax (Z.pos m) e (Z.pos m) e ltac:(lia) ltac:(lia))
    as [l [Hcore Hl]].
  cbv zeta in Hcore, Hl.
  assert (He : Z.min (fexp (Zdigits2 (Z.pos m) + e - (Zdigits2 (Z.pos m) + e))) (e - e)
               = - prec).
  { rewrite !Z.sub_diag. unfold SpecFloat.fexp, SpecFloat.emin. lia. }
  rewrite He in Hcore, Hl.
  replace (e - e - - prec) with prec in Hcore, Hl by lia.
  rewrite (Z.mul_comm (Z.pos m)) in Hcore, Hl.
  rewrite Z.div_mul in Hcore by lia. rewrite Z.mod_mul in Hl by lia.
  apply is_inexact_false in Hl. subst l. rewrite Hcore.
  rewrite xorb_false_r.
  assert (HP : 0 < 2 ^ (prec - 1)) by (apply Z.pow_pos_nonneg; lia).
  apply binary_round_aux_exact; try lia.
  - rewrite Zdigits2_pow2 by lia. unfold SpecFloat.fexp, SpecFloat.emin. lia.
  - replace (1 - prec - - prec) with 1 by lia.
    replace prec with ((prec - 1) + 1) at 1 by lia.
    rewrite Z.pow_add_r by lia. reflexivity.
Qed.

(** A quotient whose numerator is at most 2^k times the denominator is at
    most 2^k. *)
Lemma SFdiv_upper_pow2 k s1 m1 e1 s2 m2 e2 t :
  0 <= k < prec -> k + 1 <= emax ->
  t <= e1 -> t <= e2 ->
  Z.pos m1 * 2 ^ (e1 - t) <= 2 ^ k * (Z.pos m2 * 2 ^ (e2 - t)) ->
  below (2 ^ (prec - 1)) (1 - prec + k) (xorb s1 s2)
    (SFdiv prec emax (S754_finite s1 m1 e1) (S754_finite s2 m2 e2)).
Proof.
  intros Hk Hkmax Ht1 Ht2 Hle. cbn [SFdiv].
  destruct (SFdiv_core_binary_spec prec emax (Z.pos m1) e1 (Z.pos m2) e2
              ltac:(lia) ltac:(lia)) as [l [Hcore Hl]].
  cbv zeta in Hcore, Hl. rewrite Hcore.
  set (e' := Z.min (fexp (Zdigits2 (Z.pos m1) + e1 - (Zdigits2 (Z.pos m2) + e2))) (e1 - e2)) in *.
  set (m' := Z.pos m1 * 2 ^ (e1 - e2 - e')) in *.
  assert (HK : 0 < 2 ^ k) by (apply Z.pow_pos_nonneg; lia).
  assert (HA : 0 < 2 ^ (e2 - t)) by (apply Z.pow_pos_nonneg; lia).
  assert (Hdig : Zdigits2 (Z.pos m1) + e1 <= Zdigits2 (Z.pos m2) + e2 + k).
  { assert (Zdigits2 (Z.pos m1 * 2 ^ (e1 - t)) <= Zdigits2 (Z.pos m2 * 2 ^ (e2 - t + k))).
    { apply Zdigits2_le.
      - assert (0 < 2 ^ (e1 - t)) by (apply Z.pow_pos_nonneg; lia). nia.
      - rewrite Z.pow_add_r by lia. lia. }
    rewrite !Zdigits2_mul_pow2 in H by lia. lia. }
  assert (He' : e' <= k - prec).
  { unfold e'.
    pose proof (fexp_mono prec emax (Zdigits2 (Z.pos m1) + e1 - (Zdigits2 (Z.pos m2) + e2)) k
                  ltac:(lia)).
    unfold SpecFloat.fexp, SpecFloat.emin in *. lia. }
  assert (Hs : 0 <= e1 - e2 - e') by (unfold e'; lia).
  assert (Hp : 0 < 2 ^ (prec - 1)) by (apply Z.pow_pos_nonneg; lia).
  apply binary_round_aux_upper; try assumption; try lia.
  - apply Z.div_pos; [|lia].
    assert (0 < 2 ^ (e1 - e2 - e')) by (apply Z.pow_pos_nonneg; lia). unfold m'. nia.
  - rewrite Zdigits2_pow2 by lia.
    unfold SpecFloat.fexp, SpecFloat.emin. lia.
  - rewrite <- Z.pow_add_r by lia.
    replace (prec - 1 + (1 - prec + k - e')) with (k - e') by lia.
    rewrite Hl.
    assert (Hm' : m' <= Z.pos m2 * 2 ^ (k - e')).
    { assert (HB : 0 < 2 ^ (- e')) by (apply Z.pow_pos_nonneg; lia).
      assert (m' * 2 ^ (e2 - t) = Z.pos m1 * 2 ^ (e1 - t) * 2 ^ (- e')).
      { unfold m'. rewrite <- !Z.mul_assoc, <- !Z.pow_add_r by lia.
        f_equal. f_equal. lia. }
      replace (k - e') with (k + - e') by lia. rewrite Z.pow_add_r by lia.
      assert (m' * 2 ^ (e2 - t) <= Z.pos m2 * (2 ^ k * 2 ^ (- e')) * 2 ^ (e2 - t)) by nia.
      nia. }
    pose proof (Z.div_mod m' (Z.pos m2) ltac:(lia)) as Hdm.
    pose proof (Z.mod_pos_bound m' (Z.pos m2) ltac:(lia)) as Hmod.
    set (K := 2 ^ (k - e')) in *. clearbody K.
    set (q := m' / Z.pos m2) in *. set (r := m' mod Z.pos m2) in *. clearbody q r.
    destruct (Z.eqb_spec r 0); cbn [negb b2z]; nia.
Qed.

End Rounding2.

(** ** The samples of a PCM file are finite *)

Lemma below_finite_or_zero mb eb s x : below mb eb s x -> finite_or_zero x.
Proof. destruct x; cbn; tauto. Qed.

Lemma F32_of_Z_below z :
  in_int32 z = true ->
  below 8388608 8 (z <? 0) (F32.of_Z z).
Proof.
  intros Hz. apply in_int32_bounds in Hz. unfold F32.of_Z.
  destruct z as [|p|p]; cbn [binary_normalize Z.ltb Z.compare].
  - reflexivity.
  - apply (binary_round_upper F32.prec F32.emax); try reflexivity; try f32_lia.
  - apply (binary_round_upper F32.prec F32.emax); try reflexivity; try f32_lia.
Qed.

Lemma F32_of_Z_nonzero z s : z <> 0 -> F32.of_Z z <> S754_zero s.
Proof.
  intros Hz. unfold F32.of_Z. destruct z as [|p|p]; [congruence| |];
    cbn [binary_normalize]; apply (binary_round_nonzero F32.prec F32.emax);
    try reflexivity; unfold emin, F32.prec, F32.emax; lia.
Qed.

Lemma Zsum_bound row :
  forallb in_int32 row = true ->
  Z.abs (Zsum row) <= Z.of_nat (List.length row) * 2147483648.
Proof.
  induction row as [|z row IH]; intros H; [cbn; lia|].
  cbn [forallb] in H. apply andb_true_iff in H as [Hz Hrow].
  apply in_int32_bounds in Hz. specialize (IH Hrow).
  cbn [List.length]. rewrite Nat2Z.inj_succ.
  unfold Zsum in *. cbn [fold_right]. lia.
Qed.

Lemma F64_of_Z_explicit s p :
  Z.pos p < 9007199254740992 ->
  binary_round F64.prec F64.emax s p 0 =
  S754_finite s (Z.to_pos (Z.pos p * 2 ^ (53 - Zdigits2 (Z.pos p))))
    (Zdigits2 (Z.pos p) - 53).
Proof.
  intros Hp.
  apply (binary_round_small F64.prec F64.emax); try reflexivity.
  change (2 ^ F64.prec) with 9007199254740992. lia.
Qed.

(** The mean of a frame is zero or a finite [float64] below 2^47. *)
Lemma row_mean_below row :
  row_ok row = true ->
  exists s, below 4503599627370496 (-5) s (row_mean row).
Proof.
  intros Hok. unfold row_mean. rewrite (row_sum_exact row Hok).
  unfold row_ok in Hok.
  apply andb_true_iff in Hok as [H Hhi]. apply andb_true_iff in H as [Hrow Hlo].
  apply Z.leb_le in Hlo, Hhi.
  pose proof (Zsum_bound row Hrow) as Hsum.
  set (n := Z.of_nat (List.length row)) in *.
  unfold F64.div, F64.of_Z.
  destruct n as [|q|q] eqn:En; try lia. cbn [binary_normalize].
  rewrite (F64_of_Z_explicit false q) by lia.
  assert (Hdq : 0 < Zdigits2 (Z.pos q) <= 53)
    by (apply digits_small; [lia|lia|change (2 ^ 53) with 9007199254740992; lia]).
  assert (HPq : 0 < 2 ^ (53 - Zdigits2 (Z.pos q))) by (apply Z.pow_pos_nonneg; lia).
  assert (Hgen : forall s p, Z.pos p <= Z.pos q * 2147483648 ->
            below 4503599627370496 (-5) (xorb s false)
              (SFdiv F64.prec F64.emax (binary_round F64.prec F64.emax s p 0)
                 (S754_finite false
                    (Z.to_pos (Z.pos q * 2 ^ (53 - Zdigits2 (Z.pos q))))
                    (Zdigits2 (Z.pos q) - 53)))).
  { intros s p Hp. rewrite (F64_of_Z_explicit s p) by lia.
    assert (Hdp : 0 < Zdigits2 (Z.pos p) <= 53)
      by (apply digits_small; [lia|lia|change (2 ^ 53) with 9007199254740992; lia]).
    assert (HPp : 0 < 2 ^ (53 - Zdigits2 (Z.pos p))) by (apply Z.pow_pos_nonneg; lia).
    apply (SFdiv_upper_pow2 F64.prec F64.emax ltac:(reflexivity) ltac:(reflexivity)
             47 s _ _ false _ _ (-53)); try f32_lia; try (unfold F64.prec, F64.emax; lia).
    rewrite !Z2Pos.id by lia.
    rewrite <- !Z.mul_assoc, <- !Z.pow_add_r by lia.
    replace (53 - Zdigits2 (Z.pos p) + (Zdigits2 (Z.pos p) - 53 - -53)) with 53 by lia.
    replace (53 - Zdigits2 (Z.pos q) + (Zdigits2 (Z.pos q) - 53 - -53)) with 53 by lia.
    change (2 ^ 47) with 140737488355328.
    change (2 ^ 53) with 9007199254740992. lia. }
  destruct (Zsum row) as [|p|p] eqn:Es; cbn [binary_normalize].
  - exists false. reflexivity.
  - exists (xorb false false). apply Hgen. lia.
  - exists (xorb true false). apply Hgen. lia.
Qed.

Lemma f64_to_f32_below s y :
  below 4503599627370496 (-5) s y -> below 8388608 24 s (f64_to_f32 y).
Proof.
  destruct y as [t|t| |t m e]; cbn [below f64_to_f32]; try tauto.
  intros [-> [He Hm]].
  apply (binary_round_upper F32.prec F32.emax); try reflexivity; try f32_lia.
  replace (24 - e) with (29 + (-5 - e)) by lia.
  rewrite pow2_split by lia.
  change 4503599627370496 with (8388608 * 2 ^ 29) in Hm. lia.
Qed.

Lemma to_mono_finite a :
  pcm_ok a = true -> Forall finite_or_zero (to_mono_f32 a).
Proof.
  destruct a as [samples|frames]; cbn [pcm_ok to_mono_f32]; intros H;
    apply Forall_forall; intros x Hx; apply in_map_iff in Hx as [y [<- Hy]].
  - apply (below_finite_or_zero _ _ _ _ (F32_of_Z_below y
             (proj1 (forallb_forall _ _) H y Hy))).
  - destruct (row_mean_below y (proj1 (forallb_forall _ _) H y Hy)) as [s Hb].
    apply (below_finite_or_zero _ _ _ _ (f64_to_f32_below s _ Hb)).
Qed.

(** ** The peak and the normalized samples *)

Lemma np_maximum_either a b : np_maximum a b = a \/ np_maximum a b = b.
Proof. unfold np_maximum. destruct (is_nan a || SFleb b a); auto. Qed.

Lemma fold_maximum_in l : forall x0, In (fold_left np_maximum l x0) (x0 :: l).
Proof.
  induction l as [|y l IH]; intros x0; cbn [fold_left]; [now left|].
  destruct (IH (np_maximum x0 y)) as [H|H].
  - destruct (np_maximum_either x0 y) as [E|E].
    + left. congruence.
    + right. left. congruence.
  - right. right. assumption.
Qed.

Lemma div_by_peak_finite x p :
  good32 x -> finite_or_zero x -> absval F32.prec F32.emax p -> finite_or_zero p ->
  mag F32.prec F32.emax (SFabs x) <= mag F32.prec F32.emax p ->
  gt_zero p = true ->
  finite_or_zero (F32.div x p).
Proof.
  intros [Hvx Hnx] Hfx [Hvp Hsp] Hfp Hmag Hgt. unfold F32.div.
  destruct p as [sp|sp| |sp mp ep]; try contradiction; subst sp; try discriminate.
  destruct x as [sx|sx| |sx mx ex]; try contradiction; [exact I|].
  simpl in Hvx, Hvp. cbn [SFabs mag] in Hmag.
  destruct (bounded_canonical F32.prec F32.emax ltac:(reflexivity) _ _ Hvx)
    as [_ [_ [Hminx _]]].
  destruct (bounded_canonical F32.prec F32.emax ltac:(reflexivity) _ _ Hvp)
    as [_ [_ [Hminp _]]].
  apply (below_finite_or_zero _ _ _ _
           (SFdiv_upper_one F32.prec F32.emax ltac:(reflexivity) ltac:(reflexivity)
              sx mx ex false mp ep (emin F32.prec F32.emax) Hminx Hminp Hmag)).
Qed.

(** After the normalization every sample of a PCM file is a finite number
    of magnitude at most one. *)
Lemma normalize_finite a d :
  pcm_ok a = true -> normalize (to_mono_f32 a) = Some d ->
  Forall (fun x => unit_abs x /\ finite_or_zero x) d.
Proof.
  intros Hok Hd.
  pose proof (to_mono_good a Hok) as Hgood.
  pose proof (to_mono_finite a Hok) as Hfin.
  pose proof (normalize_unit _ _ Hgood Hd) as Hunit.
  apply Forall_forall. intros y Hy.
  split; [apply (proj1 (Forall_forall _ _) Hunit y Hy)|].
  revert Hd Hy. unfold normalize, np_max.
  destruct (to_mono_f32 a) as [|x0 l] eqn:El; [discriminate|].
  change (map SFabs (x0 :: l)) with (SFabs x0 :: map SFabs l).
  inversion Hgood as [|? ? Hx0 Hl]; subst.
  assert (Habs : Forall (absval F32.prec F32.emax) (map SFabs l)).
  { apply Forall_forall. intros z Hz. apply in_map_iff in Hz as [x [<- Hx]].
    apply SFabs_absval. apply (proj1 (Forall_forall _ _) Hl). assumption. }
  destruct (fold_maximum_spec F32.prec F32.emax ltac:(reflexivity) ltac:(reflexivity)
              (map SFabs l) (SFabs x0) (SFabs_absval _ Hx0) Habs) as [Hp [Hp0 Hpl]].
  pose proof (fold_maximum_in (map SFabs l) (SFabs x0)) as Hin.
  set (peak := fold_left np_maximum (map SFabs l) (SFabs x0)) in *.
  assert (Hpf : finite_or_zero peak).
  { change (SFabs x0 :: map SFabs l) with (map SFabs (x0 :: l)) in Hin.
    apply in_map_iff in Hin as [x [<- Hx]].
    pose proof (proj1 (Forall_forall _ _) Hfin x Hx) as Hf.
    destruct x; try contradiction; exact I. }
  intros H; injection H as <-.
  destruct (gt_zero peak) eqn:Hg; intros Hy.
  - change (In y (map (fun x => F32.div x peak) (x0 :: l))) in Hy.
    apply in_map_iff in Hy as [x [<- Hx]].
    apply div_by_peak_finite; try assumption.
    + apply (proj1 (Forall_forall _ _) Hgood). assumption.
    + apply (proj1 (Forall_forall _ _) Hfin). assumption.
    + destruct Hx as [<-|Hx]; [assumption|].
      apply (proj1 (Forall_forall _ _) Hpl). apply in_map. assumption.
  - apply (proj1 (Forall_forall _ _) Hfin). assumption.
Qed.

(** ** Full-scale samples *)

Lemma quantize_minus_one res :
  quantize res (S754_finite true 8388608 (-23)) = 0.
Proof.
  unfold quantize, affine.
  change (F32.div (F32.add (S754_finite true 8388608 (-23)) F32.one) F32.two)
    with (S754_zero false).
  rewrite mul_zero_l_cast; [reflexivity|].
  apply binary_normalize_not_nan.
Qed.

Lemma silent_false_nonzero samples :
  forallb (Z.eqb 0) samples = false -> exists z, In z samples /\ z <> 0.
Proof.
  induction samples as [|y l IH]; [discriminate|].
  cbn [forallb]. destruct (Z.eqb_spec 0 y) as [<-|Hy].
  - intros H. destruct (IH H) as [z [Hz Hn]]. exists z. split; [now right|assumption].
  - intros _. exists y. split; [now left|congruence].
Qed.

(** The peak of a signal that holds a sample other than zero is the
    magnitude of one of its samples, finite and not zero. *)
Lemma peak_of_signal x0 l y :
  Forall good32 (x0 :: l) -> Forall finite_or_zero (x0 :: l) ->
  In y (x0 :: l) -> (forall s, y <> S754_zero s) ->
  exists s m e,
    In (S754_finite s m e) (x0 :: l) /\
    fold_left np_maximum (map SFabs l) (SFabs x0) = S754_finite false m e.
Proof.
  intros Hgood Hfin Hyin Hy0.
  inversion Hgood as [|? ? Hx0 Hl]; subst.
  assert (Habs : Forall (absval F32.prec F32.emax) (map SFabs l)).
  { apply Forall_forall. intros u Hu. apply in_map_iff in Hu as [x [<- Hx]].
    apply SFabs_absval. apply (proj1 (Forall_forall _ _) Hl). assumption. }
  destruct (fold_maximum_spec F32.prec F32.emax ltac:(reflexivity) ltac:(reflexivity)
              (map SFabs l) (SFabs x0) (SFabs_absval _ Hx0) Habs) as [Hp [Hp0 Hpl]].
  pose proof (fold_maximum_in (map SFabs l) (SFabs x0)) as Hin.
  set (peak := fold_left np_maximum (map SFabs l) (SFabs x0)) in *.
  (* the peak is at least the magnitude of the non-zero sample *)
  assert (Hmz : 0 < mag F32.prec F32.emax (SFabs y)).
  { pose proof (proj1 (Forall_forall _ _) Hgood _ Hyin) as [Hv _].
    pose proof (proj1 (Forall_forall _ _) Hfin _ Hyin) as Hf.
    destruct y as [s|s| |s m e]; try contradiction.
    - exfalso. apply (Hy0 s). reflexivity.
    - cbn [SFabs mag]. simpl in Hv.
      destruct (bounded_canonical F32.prec F32.emax ltac:(reflexivity) _ _ Hv)
        as [_ [_ [Hmin _]]].
      assert (0 < 2 ^ (e - emin F32.prec F32.emax)) by (apply Z.pow_pos_nonneg; lia).
      lia. }
  assert (Hmp : 0 < mag F32.prec F32.emax peak).
  { destruct Hyin as [Heq|Hyl]; [rewrite <- Heq in Hmz; lia|].
    pose proof (proj1 (Forall_forall _ _) Hpl (SFabs y)
                  (in_map SFabs _ _ Hyl)) as Hle.
    cbv beta in Hle. lia. }
  change (SFabs x0 :: map SFabs l) with (map SFabs (x0 :: l)) in Hin.
  apply in_map_iff in Hin as [x [Hxp Hx]].
  pose proof (proj1 (Forall_forall _ _) Hfin x Hx) as Hxf.
  destruct x as [s|s| |s m e]; try contradiction.
  - rewrite <- Hxp in Hmp. cbn [SFabs mag] in Hmp. lia.
  - exists s, m, e. split; [assumption|]. now rewrite <- Hxp.
Qed.

Lemma peak_of_sound samples x0 l :
  forallb in_int32 samples = true -> forallb (Z.eqb 0) samples = false ->
  map F32.of_Z samples = x0 :: l ->
  exists s m e,
    In (S754_finite s m e) (x0 :: l) /\
    fold_left np_maximum (map SFabs l) (SFabs x0) = S754_finite false m e.
Proof.
  intros Hok Hsil El.
  pose proof (to_mono_good (Mono samples) Hok) as Hgood.
  pose proof (to_mono_finite (Mono samples) Hok) as Hfin.
  cbn [to_mono_f32] in Hgood, Hfin.
  destruct (silent_false_nonzero samples Hsil) as [z [Hz Hz0]].
  assert (Hzin : In (F32.of_Z z) (map F32.of_Z samples)) by (apply in_map; assumption).
  rewrite El in Hgood, Hfin, Hzin.
  apply (peak_of_signal x0 l (F32.of_Z z) Hgood Hfin Hzin).
  intros s. apply F32_of_Z_nonzero. assumption.
Qed.

(** The normalized signal of a mono file that is not silent holds a
    sample at plus or minus one: the loudest sample. *)
Lemma normalize_peak samples d :
  forallb in_int32 samples = true -> forallb (Z.eqb 0) samples = false ->
  normalize (map F32.of_Z samples) = Some d ->
  exists s, In (S754_finite s 8388608 (-23)) d.
Proof.
  intros Hok Hsil. unfold normalize, np_max.
  destruct (map F32.of_Z samples) as [|x0 l] eqn:El; [discriminate|].
  destruct (peak_of_sound samples x0 l Hok Hsil El) as [s [m [e [Hin Hpeak]]]].
  change (map SFabs (x0 :: l)) with (SFabs x0 :: map SFabs l).
  cbv beta iota.
  rewrite Hpeak. change (gt_zero (S754_finite false m e)) with true. cbv iota.
  intros H; injection H as <-.
  exists s.
  change (In (S754_finite s 8388608 (-23))
            (map (fun x => F32.div x (S754_finite false m e)) (x0 :: l))).
  apply in_map_iff. exists (S754_finite s m e). split; [|assumption].
  unfold F32.div. rewrite SFdiv_self by reflexivity. reflexivity.
Qed.

(** ** Stereo files *)

Lemma f64_to_f32_of_Z z :
  in_int32 z = true -> f64_to_f32 (F64.of_Z z) = F32.of_Z z.
Proof.
  intros Hz. apply in_int32_bounds in Hz.
  assert (Hgen : forall s p, Z.pos p <= 2147483648 ->
            f64_to_f32 (binary_round F64.prec F64.emax s p 0)
            = binary_round F32.prec F32.emax s p 0).
  { intros s p Hp. rewrite F64_of_Z_explicit by lia. cbn [f64_to_f32].
    assert (Hd : 0 < Zdigits2 (Z.pos p) <= 53)
      by (apply digits_small; [lia|lia|change (2 ^ 53) with 9007199254740992; lia]).
    assert (HP : 0 < 2 ^ (53 - Zdigits2 (Z.pos p))) by (apply Z.pow_pos_nonneg; lia).
    replace (Zdigits2 (Z.pos p) - 53) with (0 - (53 - Zdigits2 (Z.pos p))) by lia.
    apply (binary_round_rescaled F32.prec F32.emax); [|lia].
    rewrite Z2Pos.id by lia. reflexivity. }
  unfold F64.of_Z, F32.of_Z. destruct z as [|p|p]; cbn [binary_normalize].
  - reflexivity.
  - apply Hgen. lia.
  - apply Hgen. lia.
Qed.

Lemma row_mean_twice z :
  in_int32 z = true -> row_mean [z; z] = F64.of_Z z.
Proof.
  intros Hz. unfold row_mean. rewrite (row_sum_pair z z Hz Hz).
  apply in_int32_bounds in Hz.
  change (F64.of_Z (Z.of_nat (List.length [z; z])))
    with (binary_round F64.prec F64.emax false 2 0).
  assert (Hgen : forall s p, Z.pos p <= 2147483648 ->
            F64.div (binary_round F64.prec F64.emax s (p~0) 0)
              (binary_round F64.prec F64.emax false 2 0)
            = binary_round F64.prec F64.emax s p 0).
  { intros s p Hp. unfold F64.div.
    rewrite (SFdiv_two_small F64.prec F64.emax ltac:(reflexivity) ltac:(reflexivity))
      by (try discriminate; change (2 ^ F64.prec) with 9007199254740992; lia).
    rewrite F64_of_Z_explicit by lia.
    assert (Hd : 0 < Zdigits2 (Z.pos p) <= 33)
      by (apply digits_small; [lia|lia|change (2 ^ 33) with 8589934592; lia]).
    assert (Hd2 : Zdigits2 (Z.pos p~0) = Zdigits2 (Z.pos p) + 1).
    { cbn [Zdigits2 digits2_pos]. lia. }
    rewrite Hd2. unfold F64.prec.
    f_equal; [|lia]. f_equal.
    replace (53 - Zdigits2 (Z.pos p)) with (1 + (53 - (Zdigits2 (Z.pos p) + 1))) by lia.
    rewrite pow2_split by lia. change (2 ^ 1) with 2. lia. }
  unfold F64.of_Z. destruct z as [|p|p]; cbn [Z.add binary_normalize].
  - reflexivity.
  - rewrite Pos.add_diag. apply Hgen. lia.
  - rewrite Pos.add_diag. apply Hgen. lia.
Qed.

Lemma Zsum_perm row row' : Permutation row row' -> Zsum row = Zsum row'.
Proof.
  unfold Zsum. induction 1; cbn [fold_right]; lia.
Qed.

Lemma row_ok_perm row row' :
  Permutation row row' -> row_ok row = true -> row_ok row' = true.
Proof.
  intros Hp. unfold row_ok.
  rewrite <- (Permutation_length Hp). intros H.
  apply andb_true_iff in H as [H Hhi]. apply andb_true_iff in H as [Hrow Hlo].
  rewrite Hhi, Hlo, !andb_true_r.
  apply forallb_forall. intros z Hz.
  apply (proj1 (forallb_forall _ _) Hrow).
  apply (Permutation_in _ (Permutation_sym Hp)). assumption.
Qed.

Lemma row_mean_perm row row' :
  Permutation row row' -> row_ok row = true -> row_mean row' = row_mean row.
Proof.
  intros Hp Hok. unfold row_mean.
  rewrite (row_sum_exact row Hok), (row_sum_exact row' (row_ok_perm _ _ Hp Hok)).
  now rewrite (Zsum_perm _ _ Hp), (Permutation_length Hp).
Qed.

Lemma row_mean_cancel row :
  row_ok row = true -> Zsum row = 0 ->
  f64_to_f32 (row_mean row) = S754_zero false.
Proof.
  intros Hok Hs. unfold row_mean. rewrite (row_sum_exact row Hok), Hs.
  unfold row_ok in Hok.
  apply andb_true_iff in Hok as [H Hhi]. apply andb_true_iff in H as [_ Hlo].
  apply Z.leb_le in Hlo, Hhi.
  unfold F64.div, F64.of_Z at 2.
  rewrite (binary_normalize_small F64.prec F64.emax ltac:(reflexivity) ltac:(reflexivity))
    by (change (2 ^ F64.prec) with 9007199254740992; lia).
  reflexivity.
Qed.

(** ** Negative factors *)

Lemma binary_round_aux_opp prec emax s mx ex lx :
  binary_round_aux prec emax (negb s) mx ex lx
  = SFopp (binary_round_aux prec emax s mx ex lx).
Proof.
  unfold binary_round_aux.
  destruct (shr_fexp prec emax mx ex lx) as [r1 e1].
  destruct (shr_fexp prec emax _ e1 loc_Exact) as [r2 e2].
  destruct (shr_m r2); [reflexivity| |reflexivity].
  destruct (e2 <=? emax - prec); reflexivity.
Qed.

Lemma binary_round_opp prec emax s m e :
  binary_round prec emax (negb s) m e = SFopp (binary_round prec emax s m e).
Proof.
  unfold binary_round.
  destruct (shl_align m e _) as [mz ez]. apply binary_round_aux_opp.
Qed.

Lemma F32_of_Z_opp n : n <> 0 -> F32.of_Z (- n) = SFopp (F32.of_Z n).
Proof.
  intros Hn. unfold F32.of_Z.
  destruct n as [|p|p]; [congruence| |]; cbn [Z.opp binary_normalize].
  - apply (binary_round_opp F32.prec F32.emax false).
  - rewrite (binary_round_opp F32.prec F32.emax false).
    now destruct (binary_round F32.prec F32.emax false p 0) as [[]|[]| |[] ? ?].
Qed.

Lemma SFmul_opp_r x y :
  match y with S754_finite _ _ _ => True | _ => False end ->
  finite_or_zero x ->
  F32.mul x (SFopp y) = SFopp (F32.mul x y).
Proof.
  unfold F32.mul.
  destruct y as [| | |sy my ey]; try contradiction. intros _.
  destruct x as [sx|sx| |sx mx ex]; try contradiction; intros _; cbn [SFmul SFopp].
  - now destruct sx, sy.
  - replace (xorb sx (negb sy)) with (negb (xorb sx sy)) by (now destruct sx, sy).
    apply binary_round_aux_opp.
Qed.

Lemma trunc_opp y : trunc (SFopp y) = option_map Z.opp (trunc y).
Proof.
  destruct y as [s|s| |s m e]; try reflexivity.
  cbn [SFopp trunc option_map]. f_equal. destruct s; cbn [negb]; lia.
Qed.

(** With a factor between -32767 and 0 no sample of the unit range is
    mapped above zero. *)
Lemma quantize_nonpositive res x :
  -32766 <= res <= 1 -> unit_abs x -> x <> S754_nan -> quantize res x = 0.
Proof.
  intros Hres Hx Hn.
  pose proof (half_below _ (add_one_below x Hx Hn)) as Hh.
  unfold quantize, affine.
  set (h := F32.div (F32.add x F32.one) F32.two) in *.
  destruct (Z.eq_dec res 1) as [->|Hne].
  - change (F32.of_Z (1 - 1)) with (S754_zero false).
    now rewrite mul_zero_r_cast.
  - replace (res - 1) with (- (1 - res)) by lia.
    rewrite F32_of_Z_opp by lia.
    rewrite SFmul_opp_r.
    + destruct (mul_below_trunc h (1 - res) Hh ltac:(lia)) as [t [Ht Hr]].
      unfold astype_int16. rewrite trunc_opp, Ht. cbn [option_map].
      replace ((-2147483648 <=? - t) && (- t <=? 2147483647)) with true
        by (symmetry; apply andb_true_iff; split; apply Z.leb_le; lia).
      unfold clip, wrap16.
      replace ((- t + 32768) mod 65536) with (- t + 32768)
        by (symmetry; apply Z.mod_small; lia).
      lia.
    + rewrite F32_of_Z_small by lia. exact I.
    + apply (below_finite_or_zero _ _ _ _ Hh).
Qed.

(** ** Constant signals *)

Lemma np_maximum_same a : np_maximum a a = a.
Proof. unfold np_maximum. now destruct (is_nan a || SFleb a a). Qed.

Lemma fold_maximum_repeat a k :
  fold_left np_maximum (repeat a k) a = a.
Proof.
  induction k as [|k IH]; [reflexivity|].
  cbn [repeat fold_left]. now rewrite np_maximum_same.
Qed.

Lemma F32_of_Z_finite z :
  in_int32 z = true -> z <> 0 ->
  exists m e, F32.of_Z z = S754_finite (z <? 0) m e.
Proof.
  intros Hz Hn. pose proof (F32_of_Z_below z Hz) as Hb.
  pose proof (F32_of_Z_nonzero z) as Hnz.
  destruct (F32.of_Z z) as [s|s| |s m e]; cbn [below] in Hb; try contradiction.
  - exfalso. apply (Hnz s Hn). reflexivity.
  - destruct Hb as [-> _]. now exists m, e.
Qed.

(** A constant signal that is not zero is normalized to plus or minus
    one throughout. *)
Lemma normalize_constant c k :
  in_int32 c = true -> c <> 0 ->
  normalize (repeat (F32.of_Z c) (S k))
  = Some (repeat (S754_finite (c <? 0) 8388608 (-23)) (S k)).
Proof.
  intros Hc Hn. destruct (F32_of_Z_finite c Hc Hn) as [m [e ->]].
  unfold normalize, np_max. rewrite map_repeat.
  cbn [repeat SFabs]. rewrite fold_maximum_repeat.
  change (gt_zero (S754_finite false m e)) with true. cbv iota.
  f_equal. change (S754_finite (c <? 0) m e :: repeat (S754_finite (c <? 0) m e) k)
    with (repeat (S754_finite (c <? 0) m e) (S k)).
  rewrite map_repeat. f_equal.
  unfold F32.div. rewrite SFdiv_self by reflexivity. reflexivity.
Qed.

(** ** One bit of gain *)

Lemma double_compare a b : SFcompare (double a) (double b) = SFcompare a b.
Proof.
  destruct a as [sa|sa| |sa ma ea], b as [sb|sb| |sb mb eb]; try reflexivity.
  cbn [double SFcompare].
  now rewrite (Z.add_comm ea 1), (Z.add_comm eb 1), Z.add_compare_mono_l.
Qed.

Lemma double_maximum a b :
  np_maximum (double a) (double b) = double (np_maximum a b).
Proof.
  unfold np_maximum, SFleb. rewrite double_compare.
  replace (is_nan (double a)) with (is_nan a) by (now destruct a).
  match goal with |- (if ?c then _ else _) = _ => destruct c end; reflexivity.
Qed.

Lemma double_fold l : forall a,
  fold_left np_maximum (map double l) (double a)
  = double (fold_left np_maximum l a).
Proof.
  induction l as [|y l IH]; intros a; cbn [map fold_left]; [reflexivity|].
  rewrite double_maximum. apply IH.
Qed.

Lemma double_abs x : SFabs (double x) = double (SFabs x).
Proof. now destruct x. Qed.

(** A quotient depends on the difference of the exponents only. *)
Lemma double_div prec emax x sy my ey :
  SFdiv prec emax (double x) (S754_finite sy my (ey + 1))
  = SFdiv prec emax x (S754_finite sy my ey).
Proof.
  destruct x as [sx|sx| |sx mx ex]; try reflexivity.
  cbn [double SFdiv]. unfold SFdiv_core_binary.
  replace (Zdigits2 (Z.pos mx) + (ex + 1) - (Zdigits2 (Z.pos my) + (ey + 1)))
    with (Zdigits2 (Z.pos mx) + ex - (Zdigits2 (Z.pos my) + ey)) by lia.
  replace (ex + 1 - (ey + 1)) with (ex - ey) by lia.
  reflexivity.
Qed.

Section Translation.
Variables prec emax : Z.
Hypothesis Hprec : 1 < prec.
Hypothesis Hemax : prec < emax.

Local Abbreviation fexp := (fexp prec emax).
Local Abbreviation emin := (emin prec emax).

(** Away from the subnormal range the shift of a rounding does not
    depend on the exponent. *)
Lemma shr_fexp_exp_succ m e l :
  emin + prec <= Zdigits2 m + e ->
  shr_fexp prec emax m (e + 1) l
  = (fst (shr_fexp prec emax m e l), snd (shr_fexp prec emax m e l) + 1).
Proof.
  intros Hn. unfold shr_fexp.
  replace (fexp (Zdigits2 m + (e + 1)) - (e + 1)) with (Zdigits2 m - prec)
    by (unfold SpecFloat.fexp; lia).
  replace (fexp (Zdigits2 m + e) - e) with (Zdigits2 m - prec)
    by (unfold SpecFloat.fexp; lia).
  unfold shr. destruct (Zdigits2 m - prec); cbn [fst snd]; f_equal; lia.
Qed.

Lemma binary_round_aux_exp_succ s mx ex lx :
  0 < mx -> emin + prec <= Zdigits2 mx + ex ->
  ex + 1 <= emax - prec -> Zdigits2 mx + ex + 2 <= emax ->
  binary_round_aux prec emax s mx (ex + 1) lx
  = double (binary_round_aux prec emax s mx ex lx).
Proof.
  intros Hm Hn Hx Hd. unfold binary_round_aux.
  rewrite shr_fexp_exp_succ by assumption.
  destruct (shr_fexp_spec prec emax mx ex lx ltac:(lia)) as [He1 [Hm1 _]].
  destruct (shr_fexp prec emax mx ex lx) as [r1 e1]. cbn [fst snd] in *.
  pose proof (round_nearest_even_range r1) as Hr.
  set (m2 := round_nearest_even (shr_m r1) (loc_of_shr_record r1)) in *.
  assert (Hb : 0 <= b2z (inexact r1) <= 1)
    by (destruct (inexact r1); cbv [b2z]; lia).
  pose proof (Zdigits2_pos mx Hm) as Hd0.
  set (k1 := shift_of prec emax mx ex) in *.
  assert (Hk1 : k1 = Z.max 0 (Zdigits2 mx - prec)).
  { unfold k1, shift_of, SpecFloat.fexp. lia. }
  assert (Hm1d : 0 < shr_m r1 /\ Zdigits2 (shr_m r1) = Zdigits2 mx - k1).
  { rewrite Hm1. destruct (Z.le_gt_cases (Zdigits2 mx) prec).
    - replace k1 with 0 by lia. rewrite Z.pow_0_r, Z.div_1_r. lia.
    - pose proof (Zdigits2_bounds mx Hm) as [Hlo _].
      assert (2 ^ k1 <= mx).
      { apply Z.le_trans with (2 ^ (Zdigits2 mx - 1)); [|assumption].
        apply Z.pow_le_mono_r; lia. }
      split; [apply Z.div_str_pos; split; [apply Z.pow_pos_nonneg; lia|assumption]|].
      apply Zdigits2_div_pow2; lia. }
  destruct Hm1d as [Hm1p Hm1d].
  assert (Hm2d : Zdigits2 (shr_m r1) <= Zdigits2 m2 <= Zdigits2 (shr_m r1) + 1).
  { split; [apply Zdigits2_le; lia|].
    replace (Zdigits2 (shr_m r1) + 1) with (Zdigits2 (shr_m r1 * 2 ^ 1))
      by (rewrite Zdigits2_mul_pow2; lia).
    apply Zdigits2_le; [lia|]. change (2 ^ 1) with 2. lia. }
  rewrite shr_fexp_exp_succ by lia.
  destruct (shr_fexp_spec prec emax m2 e1 loc_Exact ltac:(lia)) as [He2 _].
  destruct (shr_fexp prec emax m2 e1 loc_Exact) as [r2 e2]. cbn [fst snd] in *.
  assert (He2' : e2 + 1 <= emax - prec).
  { rewrite He2. unfold shift_of, SpecFloat.fexp. lia. }
  destruct (shr_m r2) as [|p|p]; [reflexivity| |reflexivity].
  replace (e2 + 1 <=? emax - prec) with true by (symmetry; apply Z.leb_le; lia).
  replace (e2 <=? emax - prec) with true by (symmetry; apply Z.leb_le; lia).
  reflexivity.
Qed.

Lemma binary_round_exp_succ s p e :
  emin + prec <= Zdigits2 (Z.pos p) + e -> Zdigits2 (Z.pos p) + e + 2 <= emax ->
  binary_round prec emax s p (e + 1) = double (binary_round prec emax s p e).
Proof.
  intros Hn Hd. unfold binary_round.
  change (Z.pos (digits2_pos p)) with (Zdigits2 (Z.pos p)).
  pose proof (Zdigits2_pos (Z.pos p) ltac:(lia)) as Hd0.
  replace (fexp (Zdigits2 (Z.pos p) + (e + 1)))
    with (fexp (Zdigits2 (Z.pos p) + e) + 1) by (unfold SpecFloat.fexp; lia).
  unfold shl_align.
  replace (fexp (Zdigits2 (Z.pos p) + e) + 1 - (e + 1))
    with (fexp (Zdigits2 (Z.pos p) + e) - e) by lia.
  destruct (fexp (Zdigits2 (Z.pos p) + e) - e) as [|k|k] eqn:E;
    unfold SpecFloat.fexp in E.
  - apply binary_round_aux_exp_succ; lia.
  - apply binary_round_aux_exp_succ; lia.
  - assert (Hdk : Zdigits2 (Z.pos (Pos.iter xO p k)) = Zdigits2 (Z.pos p) + Z.pos k).
    { rewrite pos_iter_xO. apply Zdigits2_mul_pow2; lia. }
    apply binary_round_aux_exp_succ; unfold SpecFloat.fexp; lia.
Qed.

(** In the normal range a rounding gives a finite float of the size of
    its argument, up to one bit. *)
Lemma binary_round_aux_normal s mx ex lx :
  0 < mx -> emin + prec <= Zdigits2 mx + ex ->
  ex <= emax - prec -> Zdigits2 mx + ex + 1 <= emax ->
  exists m e,
    binary_round_aux prec emax s mx ex lx = S754_finite s m e /\
    Zdigits2 mx + ex <= Zdigits2 (Z.pos m) + e <= Zdigits2 mx + ex + 1.
Proof.
  intros Hm Hn Hx Hd.
  destruct (binary_round_aux_spec prec emax s mx ex lx ltac:(lia)) as [m2 [Hm2 ->]].
  cbv zeta in Hm2 |- *.
  pose proof (Zdigits2_pos mx Hm) as Hd0.
  set (k1 := shift_of prec emax mx ex) in *.
  assert (Hk1 : k1 = Z.max 0 (Zdigits2 mx - prec)).
  { unfold k1, shift_of, SpecFloat.fexp. lia. }
  set (m1 := mx / 2 ^ k1) in *.
  assert (Hb : forall b : bool, 0 <= b2z b <= 1) by (intros []; cbv [b2z]; lia).
  pose proof (Hb (is_inexact lx || negb (mx mod 2 ^ k1 =? 0))) as Hb1.
  assert (Hm1d : 0 < m1 /\ Zdigits2 m1 = Zdigits2 mx - k1).
  { unfold m1. destruct (Z.le_gt_cases (Zdigits2 mx) prec).
    - replace k1 with 0 by lia. rewrite Z.pow_0_r, Z.div_1_r. lia.
    - pose proof (Zdigits2_bounds mx Hm) as [Hlo _].
      assert (2 ^ k1 <= mx).
      { apply Z.le_trans with (2 ^ (Zdigits2 mx - 1)); [|assumption].
        apply Z.pow_le_mono_r; lia. }
      split; [apply Z.div_str_pos; split; [apply Z.pow_pos_nonneg; lia|assumption]|].
      apply Zdigits2_div_pow2; lia. }
  destruct Hm1d as [Hm1p Hm1d].
  assert (Hm2d : Zdigits2 m1 <= Zdigits2 m2 <= Zdigits2 m1 + 1).
  { split; [apply Zdigits2_le; lia|].
    replace (Zdigits2 m1 + 1) with (Zdigits2 (m1 * 2 ^ 1))
      by (rewrite Zdigits2_mul_pow2; lia).
    apply Zdigits2_le; [lia|]. change (2 ^ 1) with 2. lia. }
  assert (Hm2p : 0 < m2) by lia.
  set (k3 := shift_of prec emax m2 (ex + k1)) in *.
  assert (Hk3 : k3 = Z.max 0 (Zdigits2 m2 - prec)).
  { unfold k3, shift_of, SpecFloat.fexp. lia. }
  assert (Hm3d : 0 < m2 / 2 ^ k3 /\ Zdigits2 (m2 / 2 ^ k3) = Zdigits2 m2 - k3).
  { destruct (Z.le_gt_cases (Zdigits2 m2) prec).
    - replace k3 with 0 by lia. rewrite Z.pow_0_r, Z.div_1_r. lia.
    - pose proof (Zdigits2_bounds m2 Hm2p) as [Hlo _].
      assert (2 ^ k3 <= m2).
      { apply Z.le_trans with (2 ^ (Zdigits2 m2 - 1)); [|assumption].
        apply Z.pow_le_mono_r; lia. }
      split; [apply Z.div_str_pos; split; [apply Z.pow_pos_nonneg; lia|assumption]|].
      apply Zdigits2_div_pow2; lia. }
  destruct Hm3d as [Hm3p Hm3d].
  unfold pack. destruct (m2 / 2 ^ k3) as [|p|p] eqn:E3; try lia.
  replace (ex + k1 + k3 <=? emax - prec) with true
    by (symmetry; apply Z.leb_le; lia).
  exists p, (ex + k1 + k3). split; [reflexivity|lia].
Qed.

Lemma SFdiv_core_binary_exp_succ m1 e1 m2 e2 :
  emin + prec <= Zdigits2 m1 + e1 - (Zdigits2 m2 + e2) ->
  SFdiv_core_binary prec emax m1 (e1 + 1) m2 e2
  = let '(q, e', l) := SFdiv_core_binary prec emax m1 e1 m2 e2 in (q, e' + 1, l).
Proof.
  intros Hn. unfold SFdiv_core_binary. cbv zeta.
  replace (Z.min (fexp (Zdigits2 m1 + (e1 + 1) - (Zdigits2 m2 + e2))) (e1 + 1 - e2))
    with (Z.min (fexp (Zdigits2 m1 + e1 - (Zdigits2 m2 + e2))) (e1 - e2) + 1)
    by (unfold SpecFloat.fexp; lia).
  set (E := Z.min (fexp (Zdigits2 m1 + e1 - (Zdigits2 m2 + e2))) (e1 - e2)).
  replace (e1 + 1 - e2 - (E + 1)) with (e1 - e2 - E) by lia.
  now destruct (Z.div_eucl _ m2).
Qed.

(** The quotient of two floats with full mantissas doubles with its
    numerator, and has the size of the difference of the exponents. *)
Lemma SFdiv_double_l s1 m1 e1 s2 m2 e2 :
  Zdigits2 (Z.pos m1) = prec -> Zdigits2 (Z.pos m2) = prec ->
  emin + prec <= e1 - e2 -> e1 - e2 + 3 <= emax ->
  SFdiv prec emax (S754_finite s1 m1 (e1 + 1)) (S754_finite s2 m2 e2)
  = double (SFdiv prec emax (S754_finite s1 m1 e1) (S754_finite s2 m2 e2))
  /\ exists m e,
       SFdiv prec emax (S754_finite s1 m1 e1) (S754_finite s2 m2 e2)
       = S754_finite (xorb s1 s2) m e
       /\ e1 - e2 <= Zdigits2 (Z.pos m) + e <= e1 - e2 + 2.
Proof.
  intros Hd1 Hd2 Hlo Hhi. cbn [SFdiv].
  rewrite SFdiv_core_binary_exp_succ by lia.
  destruct (SFdiv_core_binary_spec prec emax (Z.pos m1) e1 (Z.pos m2) e2
              ltac:(lia) ltac:(lia)) as [l [Hcore _]].
  cbv zeta in Hcore. rewrite Hcore. clear Hcore.
  rewrite Hd1, Hd2.
  replace (Z.min (fexp (prec + e1 - (prec + e2))) (e1 - e2)) with (e1 - e2 - prec)
    by (unfold SpecFloat.fexp; lia).
  replace (e1 - e2 - (e1 - e2 - prec)) with prec by lia.
  set (q := Z.pos m1 * 2 ^ prec / Z.pos m2).
  pose proof (Zdigits2_bounds (Z.pos m1) ltac:(lia)) as [Hl1 Hu1].
  pose proof (Zdigits2_bounds (Z.pos m2) ltac:(lia)) as [Hl2 Hu2].
  rewrite Hd1 in Hl1, Hu1. rewrite Hd2 in Hl2, Hu2.
  assert (HP : 2 ^ prec = 2 * 2 ^ (prec - 1)).
  { rewrite <- Z.pow_succ_r by lia. f_equal. lia. }
  assert (HP1 : 0 < 2 ^ (prec - 1)) by (apply Z.pow_pos_nonneg; lia).
  assert (Hq1 : 2 ^ (prec - 1) <= q).
  { unfold q. apply Z.div_le_lower_bound; [lia|]. nia. }
  assert (Hq2 : q < 2 ^ (prec + 1)).
  { unfold q. apply Z.div_lt_upper_bound; [lia|].
    replace (2 ^ (prec + 1)) with (2 * 2 ^ prec)
      by (rewrite <- Z.pow_succ_r by lia; f_equal; lia).
    nia. }
  assert (Hdq : prec <= Zdigits2 q <= prec + 1).
  { split.
    - replace prec with (Zdigits2 (2 ^ (prec - 1))) at 1
        by (rewrite Zdigits2_pow2 by lia; lia).
      apply Zdigits2_le; lia.
    - apply Zdigits2_lt_pow2; lia. }
  split.
  - apply binary_round_aux_exp_succ; lia.
  - destruct (binary_round_aux_normal (xorb s1 s2) q (e1 - e2 - prec) l)
      as [m [e [Hr Hb]]]; try lia.
    exists m, e. split; [exact Hr|lia].
Qed.

End Translation.

Lemma F32_of_Z_double z :
  in_int32 (2 * z) = true -> F32.of_Z (2 * z) = double (F32.of_Z z).
Proof.
  intros Hz. apply in_int32_bounds in Hz. unfold F32.of_Z.
  assert (Hgen : forall s p, Z.pos p <= 2147483648 ->
            binary_round F32.prec F32.emax s (p~0) 0
            = double (binary_round F32.prec F32.emax s p 0)).
  { intros s p Hp.
    destruct (digits_small (Z.pos p) 33 ltac:(lia) ltac:(lia)
                ltac:(change (2 ^ 33) with 8589934592; lia)) as [Hd0 Hd].
    rewrite <- (binary_round_exp_succ F32.prec F32.emax)
      by (try reflexivity; unfold emin, F32.prec, F32.emax; lia).
    apply (binary_round_rescaled F32.prec F32.emax s (p~0) p 1 1); lia. }
  destruct z as [|p|p]; [reflexivity| |];
    change (2 * Z.pos p) with (Z.pos p~0) in *;
    change (2 * Z.neg p) with (Z.neg p~0) in *;
    cbn [binary_normalize]; apply Hgen; lia.
Qed.

Lemma in_int32_half z : in_int32 (2 * z) = true -> in_int32 z = true.
Proof.
  intros H. apply in_int32_bounds in H.
  unfold in_int32. apply andb_true_iff; split; apply Z.leb_le; lia.
Qed.

Lemma forallb_in_int32_half row :
  forallb in_int32 (map (Z.mul 2) row) = true -> forallb in_int32 row = true.
Proof.
  intros H. apply forallb_forall. intros z Hz. apply in_int32_half.
  apply (proj1 (forallb_forall _ _) H). apply in_map. assumption.
Qed.

Lemma row_ok_half row : row_ok (map (Z.mul 2) row) = true -> row_ok row = true.
Proof.
  unfold row_ok. rewrite length_map. intros H.
  apply andb_true_iff in H as [H Hhi]. apply andb_true_iff in H as [Hrow Hlo].
  now rewrite (forallb_in_int32_half row Hrow), Hlo, Hhi.
Qed.

Lemma Zsum_double row : Zsum (map (Z.mul 2) row) = 2 * Zsum row.
Proof.
  unfold Zsum. induction row as [|z row IH]; [reflexivity|].
  cbn [map fold_right]. rewrite IH. lia.
Qed.

(** The mean of a frame doubles with its samples, also after the
    conversion to [float32]. *)
Lemma row_mean_double row :
  row_ok (map (Z.mul 2) row) = true ->
  f64_to_f32 (row_mean (map (Z.mul 2) row)) = double (f64_to_f32 (row_mean row)).
Proof.
  intros Hok2. pose proof (row_ok_half row Hok2) as Hok.
  destruct (Z.eq_dec (Zsum row) 0) as [Hz|Hnz].
  - rewrite (row_mean_cancel row Hok Hz).
    apply row_mean_cancel; [assumption|]. rewrite Zsum_double. lia.
  - unfold row_mean. rewrite (row_sum_exact _ Hok2), (row_sum_exact row Hok).
    rewrite Zsum_double, length_map.
    unfold row_ok in Hok.
    apply andb_true_iff in Hok as [H Hhi]. apply andb_true_iff in H as [Hrow Hlo].
    apply Z.leb_le in Hlo, Hhi.
    pose proof (Zsum_bound row Hrow) as Hsum.
    set (n := Z.of_nat (List.length row)) in *.
    unfold F64.div, F64.of_Z.
    destruct n as [|q|q] eqn:En; try lia. cbn [binary_normalize].
    rewrite (F64_of_Z_explicit false q) by lia.
    assert (Hdq : 0 < Zdigits2 (Z.pos q) <= 16)
      by (apply digits_small; [lia|lia|change (2 ^ 16) with 65536; lia]).
    assert (HPq : 0 < 2 ^ (53 - Zdigits2 (Z.pos q))) by (apply Z.pow_pos_nonneg; lia).
    assert (Hgen : forall s p, Z.pos p <= Z.pos q * 2147483648 ->
              f64_to_f32
                (SFdiv F64.prec F64.emax (binary_round F64.prec F64.emax s (p~0) 0)
                   (S754_finite false
                      (Z.to_pos (Z.pos q * 2 ^ (53 - Zdigits2 (Z.pos q))))
                      (Zdigits2 (Z.pos q) - 53)))
              = double (f64_to_f32
                (SFdiv F64.prec F64.emax (binary_round F64.prec F64.emax s p 0)
                   (S754_finite false
                      (Z.to_pos (Z.pos q * 2 ^ (53 - Zdigits2 (Z.pos q))))
                      (Zdigits2 (Z.pos q) - 53))))).
    { intros s p Hp.
      assert (Hdp : 0 < Zdigits2 (Z.pos p) <= 47)
        by (apply digits_small; [lia|lia|change (2 ^ 47) with 140737488355328; lia]).
      assert (HPp : 0 < 2 ^ (53 - Zdigits2 (Z.pos p))) by (apply Z.pow_pos_nonneg; lia).
      assert (Hd2 : Zdigits2 (Z.pos p~0) = Zdigits2 (Z.pos p) + 1).
      { cbn [Zdigits2 digits2_pos]. lia. }
      rewrite (F64_of_Z_explicit s p), (F64_of_Z_explicit s (p~0)) by lia.
      rewrite Hd2.
      replace (Z.pos p~0 * 2 ^ (53 - (Zdigits2 (Z.pos p) + 1)))
        with (Z.pos p * 2 ^ (53 - Zdigits2 (Z.pos p))).
      2:{ replace (53 - Zdigits2 (Z.pos p)) with (1 + (53 - (Zdigits2 (Z.pos p) + 1))) by lia.
          rewrite pow2_split by lia. change (2 ^ 1) with 2. lia. }
      replace (Zdigits2 (Z.pos p) + 1 - 53) with (Zdigits2 (Z.pos p) - 53 + 1) by lia.
      destruct (SFdiv_double_l F64.prec F64.emax ltac:(reflexivity)
                  s (Z.to_pos (Z.pos p * 2 ^ (53 - Zdigits2 (Z.pos p))))
                  (Zdigits2 (Z.pos p) - 53)
                  false (Z.to_pos (Z.pos q * 2 ^ (53 - Zdigits2 (Z.pos q))))
                  (Zdigits2 (Z.pos q) - 53))
        as [Hdbl [m [e [Hfin Hsize]]]].
      - rewrite Z2Pos.id by lia. rewrite Zdigits2_mul_pow2 by lia.
        unfold F64.prec. lia.
      - rewrite Z2Pos.id by lia. rewrite Zdigits2_mul_pow2 by lia.
        unfold F64.prec. lia.
      - unfold emin, F64.prec, F64.emax. lia.
      - unfold F64.emax. lia.
      - rewrite Hdbl, Hfin. cbn [double f64_to_f32].
        apply (binary_round_exp_succ F32.prec F32.emax); try reflexivity;
          unfold emin, F32.prec, F32.emax; lia. }
    destruct (Zsum row) as [|p|p] eqn:Es; [congruence| |];
      change (2 * Z.pos p) with (Z.pos p~0);
      change (2 * Z.neg p) with (Z.neg p~0);
      cbn [binary_normalize]; apply Hgen; lia.
Qed.

Lemma forallb_false_exists {A} (f : A -> bool) l :
  forallb f l = false -> exists x, In x l /\ f x = false.
Proof.
  induction l as [|y l IH]; [discriminate|].
  cbn [forallb]. destruct (f y) eqn:Hy.
  - intros H. destruct (IH H) as [x [Hx Hf]]. exists x. split; [now right|assumption].
  - intros _. exists y. split; [now left|assumption].
Qed.

(** Normalization undoes a doubling of the signal. *)
Lemma normalize_double d :
  Forall good32 d -> Forall finite_or_zero d ->
  normalize (map double d) = normalize d.
Proof.
  intros Hgood Hfin.
  destruct (forallb (fun x => match x with S754_zero _ => true | _ => false end) d)
    eqn:Hz.
  - replace (map double d) with d; [reflexivity|].
    rewrite <- (map_id d) at 1. apply map_ext_in. intros x Hx.
    apply (proj1 (forallb_forall _ _) Hz) in Hx. now destruct x.
  - destruct (forallb_false_exists _ _ Hz) as [y [Hy Hy0]].
    destruct d as [|x0 l]; [contradiction|].
    destruct (peak_of_signal x0 l y Hgood Hfin Hy) as [s [m [e [_ Hpeak]]]].
    { intros s ->. discriminate. }
    unfold normalize.
    assert (Hp1 : np_max (map SFabs (x0 :: l)) = Some (S754_finite false m e)).
    { cbn [map np_max]. now rewrite Hpeak. }
    assert (Hp2 : np_max (map SFabs (map double (x0 :: l)))
                  = Some (S754_finite false m (e + 1))).
    { cbn [map np_max]. rewrite map_map.
      rewrite (map_ext (fun x => SFabs (double x)) (fun x => double (SFabs x)) double_abs).
      rewrite <- (map_map SFabs double), double_abs, double_fold, Hpeak.
      reflexivity. }
    rewrite Hp1, Hp2.
    change (gt_zero (S754_finite false m (e + 1))) with true.
    change (gt_zero (S754_finite false m e)) with true. cbv iota.
    f_equal. rewrite map_map. apply map_ext. intros x.
    apply double_div.
Qed.

Lemma pcm_ok_half a : pcm_ok (amplify 2 a) = true -> pcm_ok a = true.
Proof.
  destruct a as [samples|frames]; cbn [amplify pcm_ok].
  - apply forallb_in_int32_half.
  - intros H. apply forallb_forall. intros row Hrow. apply row_ok_half.
    apply (proj1 (forallb_forall _ _) H). apply in_map. assumption.
Qed.

Lemma to_mono_double a :
  pcm_ok (amplify 2 a) = true ->
  to_mono_f32 (amplify 2 a) = map double (to_mono_f32 a).
Proof.
  destruct a as [samples|frames]; cbn [amplify pcm_ok to_mono_f32]; intros Hok;
    rewrite !map_map; apply map_ext_in; intros x Hx.
  - apply F32_of_Z_double.
    apply (proj1 (forallb_forall _ _) Hok). apply in_map. assumption.
  - apply row_mean_double.
    apply (proj1 (forallb_forall _ _) Hok). apply in_map. assumption.
Qed.

(** A file and the file with every sample doubled convert to the same
    values. *)
Lemma scale_double res a :
  pcm_ok (amplify 2 a) = true -> scale res (amplify 2 a) = scale res a.
Proof.
  intros Hok2. pose proof (pcm_ok_half a Hok2) as Hok.
  unfold scale. rewrite (to_mono_double a Hok2).
  now rewrite (normalize_double _ (to_mono_good a Hok) (to_mono_finite a Hok)).
Qed.

Lemma amplify_amplify g h a : amplify g (amplify h a) = amplify (g * h) a.
Proof.
  destruct a as [samples|frames]; cbn [amplify]; f_equal; rewrite map_map.
  - apply map_ext. intros z. lia.
  - apply map_ext. intros row. rewrite map_map. apply map_ext. intros z. lia.
Qed.

Lemma amplify_one a : amplify 1 a = a.
Proof.
  destruct a as [samples|frames]; cbn [amplify]; f_equal.
  - rewrite <- (map_id samples) at 2. apply map_ext. intros z. lia.
  - rewrite <- (map_id frames) at 2. apply map_ext. intros row.
    rewrite <- (map_id row) at 2. apply map_ext. intros z. lia.
Qed.

(** ** The array identifier (line 35) *)

Section IdentifierProperties.
Local Open Scope string_scope.

Lemma all_dots_no_slash s : all_dots s = true -> contains "/" s = false.
Proof.
  induction s as [|x s IH]; [reflexivity|].
  cbn [all_dots contains]. intros H. apply andb_true_iff in H as [Hx Hs].
  apply Ascii.eqb_eq in Hx. subst x. now rewrite (IH Hs).
Qed.

(** X1: the identifier derived from a path never holds a space, whatever
    the path. *)
Theorem array_name_has_no_space path :
  contains " " (array_name_of path) = false.
Proof. unfold array_name_of. apply replace_spaces_no_space. Qed.

(** X2: for a path dir/stem.ext, where the stem is not made of dots only
    and the extension holds no further dot, the identifier is the stem
    with its spaces replaced by underscores: the directory and the
    extension leave no trace. *)
Theorem array_name_of_path dir stem ext :
  contains "/" stem = false -> contains "/" ext = false ->
  contains "." ext = false -> all_dots stem = false ->
  array_name_of (dir ++ "/" ++ stem ++ "." ++ ext) = replace_spaces stem.
Proof.
  intros Hs He Hd Hstem.
  change (dir ++ "/" ++ stem ++ "." ++ ext)
    with (dir ++ String "/" (stem ++ String "." ext)).
  unfold array_name_of.
  rewrite basename_dir
    by (rewrite contains_app; cbn [contains]; now rewrite Hs, He).
  unfold splitext_root. rewrite upto_last_dot_ext by assumption.
  now rewrite Hstem.
Qed.

Lemma array_name_of_path_witness :
  array_name_of ("/tmp/gradio/8f3a" ++ "/" ++ "My Drum Loop" ++ "." ++ "wav")
  = "My_Drum_Loop".
Proof.
  exact (array_name_of_path "/tmp/gradio/8f3a" "My Drum Loop" "wav"
           eq_refl eq_refl eq_refl eq_refl).
Defined.

(** X3: a file name without a dot, or whose only dots are leading ones,
    has no extension to drop: the identifier is the whole file name with
    its spaces replaced, leading dots included. *)
Theorem array_name_of_dotfile dir dots rest :
  all_dots dots = true -> contains "." rest = false ->
  contains "/" rest = false ->
  array_name_of (dir ++ "/" ++ dots ++ rest) = replace_spaces (dots ++ rest).
Proof.
  intros Hd Hr Hs.
  change (dir ++ "/" ++ dots ++ rest) with (dir ++ String "/" (dots ++ rest)).
  unfold array_name_of.
  rewrite basename_dir
    by (rewrite contains_app; now rewrite (all_dots_no_slash dots Hd), Hs).
  now rewrite splitext_root_leading.
Qed.

Lemma array_name_of_dotfile_witness :
  array_name_of ("/tmp/upload" ++ "/" ++ "." ++ "wav") = ".wav".
Proof.
  exact (array_name_of_dotfile "/tmp/upload" "." "wav" eq_refl eq_refl eq_refl).
Defined.

(** X4: a path with spaces and the same path with underscores in their
    place get the same identifier, so a batch that holds both defines
    one array name twice. *)
Theorem array_name_of_underscore path :
  array_name_of (replace_spaces path) = array_name_of path.
Proof.
  unfold array_name_of.
  now rewrite basename_replace_spaces, splitext_root_replace_spaces,
    replace_spaces_idem.
Qed.

End IdentifierProperties.

(** ** The value lines (lines 36-38) *)

(** X5: the value lines of an array literal are consecutive runs of the
    quantized values: put one after the other they give back the values
    in order, every line holds between one and ten values, and there are
    ceil(n / 10) lines for n values. *)
Theorem value_lines_partition array_name (scaled : list Z) :
  let runs := map (fun i => slice scaled i (i + 10))
                  (range_step (List.length scaled) 10) in
  array_lines array_name scaled
    = (("const int16_t " ++ array_name ++ "[] PROGMEM = {")%string
         :: map (fun run => join ", " (map str_Z run)) runs)
      ++ [("};" ++ nl)%string]
  /\ List.concat runs = scaled
  /\ Forall (fun run => (1 <= List.length run <= 10)%nat) runs
  /\ List.length runs = ((List.length scaled + 9) / 10)%nat.
Proof.
  cbv zeta. split; [|split; [|split]].
  - unfold array_lines. now rewrite map_map.
  - rewrite value_lines_eq. apply chunks_concat. apply range_step_covers.
  - rewrite value_lines_eq. apply Forall_forall. intros run Hrun.
    apply in_map_iff in Hrun as [j [<- Hj]]. apply in_seq in Hj.
    pose proof (range_step_count (List.length scaled)).
    rewrite length_firstn, length_skipn. lia.
  - rewrite length_map. unfold range_step. rewrite length_map, length_seq.
    f_equal. lia.
Qed.

(** ** Failures (lines 22-31 and 47-49) *)

(** X6: the first file of the batch that cannot be converted decides the
    outcome: the call raises the error of that file (the decoding error
    of wavfile.read, or the ValueError of np.max for a file without
    frames), whatever comes after it, and the temporary directory is
    left as it was. *)
Theorem first_failure_is_reported pre f post res st :
  forallb playable pre = true -> playable f = false ->
  convert_wavs_to_header (pre ++ f :: post) res st = (inl (failure_of f), st).
Proof.
  intros Hpre Hf. unfold convert_wavs_to_header, header_output, bind.
  now rewrite (loop_first_failure res pre f post _ st Hpre Hf).
Qed.

Lemma first_failure_is_reported_witness :
  convert_wavs_to_header
    ([ {| name := "kick.wav"; decoded := Some (Mono [-1; 0; 1]) |} ]
       ++ {| name := "empty.wav"; decoded := Some (Mono []) |}
       :: [ {| name := "broken.wav"; decoded := None |} ])
    4096 empty_tmpdir
  = (inl ValueError, empty_tmpdir).
Proof.
  exact (first_failure_is_reported
           [ {| name := "kick.wav"; decoded := Some (Mono [-1; 0; 1]) |} ]
           {| name := "empty.wav"; decoded := Some (Mono []) |}
           [ {| name := "broken.wav"; decoded := None |} ]
           4096 empty_tmpdir eq_refl eq_refl).
Defined.



(** X8: when every file converts but the temporary file cannot be
    created, the call raises the I/O error and writes nothing; the error
    comes after the whole batch has been converted. *)
Theorem unwritable_tmpdir_fails_last files res st :
  forallb playable files = true -> tmp_writable st = false ->
  convert_wavs_to_header files res st = (inl IOError, st).
Proof.
  intros Hall Hw. unfold convert_wavs_to_header, header_output, bind.
  rewrite (loop_playable res files _ st Hall).
  unfold ret, write_temp. now rewrite Hw.
Qed.

Lemma unwritable_tmpdir_fails_last_witness :
  convert_wavs_to_header
    [ {| name := "kick.wav"; decoded := Some (Mono [-1; 0; 1]) |} ] 4096
    {| tmp_files := []; tmp_next := 7; tmp_writable := false |}
  = (inl IOError, {| tmp_files := []; tmp_next := 7; tmp_writable := false |}).
Proof.
  exact (unwritable_tmpdir_fails_last
           [ {| name := "kick.wav"; decoded := Some (Mono [-1; 0; 1]) |} ] 4096
           {| tmp_files := []; tmp_next := 7; tmp_writable := false |}
           eq_refl eq_refl).
Defined.

(** ** The cast and the clip (line 33) *)

(** X9: the upper bound of np.clip never binds: the cast to int16 comes
    first and leaves nothing above 32767, so for every resolution and
    every sample the quantized value is the cast value with the negative
    ones raised to 0. *)
Theorem upper_clip_never_binds res x :
  astype_int16 (affine res x) <= 32767
  /\ quantize res x = Z.max 0 (astype_int16 (affine res x)).
Proof.
  pose proof (astype_int16_range (affine res x)).
  unfold quantize, clip. lia.
Qed.

(** X10: a full-scale sample (1.0) at a resolution between 1 and 2^24
    quantizes to resolution - 1 wrapped into the int16 range, with the
    negative results raised to 0; for a resolution above 32768 and up to
    65536 that is 0. *)
Theorem full_scale_wraps res :
  1 <= res <= 16777216 ->
  quantize res F32.one = Z.max 0 (wrap16 (res - 1))
  /\ (32768 < res <= 65536 -> quantize res F32.one = 0).
Proof.
  intros Hres.
  assert (H : quantize res F32.one = Z.max 0 (wrap16 (res - 1))).
  { unfold quantize, affine.
    change (F32.div (F32.add F32.one F32.one) F32.two) with F32.one.
    destruct (Z.eq_dec res 1) as [->|Hne]; [reflexivity|].
    rewrite mul_one_exact by lia.
    unfold astype_int16. rewrite trunc_of_Z_small by lia.
    replace ((-2147483648 <=? res - 1) && (res - 1 <=? 2147483647)) with true
      by (symmetry; apply andb_true_iff; split; apply Z.leb_le; lia).
    pose proof (wrap16_range (res - 1)). unfold clip. lia. }
  split; [exact H|].
  intros Hhi. rewrite H. unfold wrap16.
  replace ((res - 1 + 32768) mod 65536) with (res - 1 + 32768 - 65536); [lia|].
  apply (Z.mod_unique _ _ 1); lia.
Qed.

Lemma full_scale_wraps_witness :
  quantize 65536 F32.one = 0.
Proof.
  exact (proj2 (full_scale_wraps 65536 ltac:(lia)) ltac:(lia)).
Defined.

(** X11: the most negative sample of a normalized signal (-1.0) quantizes
    to 0 at every resolution. *)
Theorem negative_full_scale_is_zero res :
  quantize res (SFopp F32.one) = 0.
Proof. apply quantize_minus_one. Qed.

(** X12: at a resolution between -32766 and 1 every value of the data
    array of an integer PCM file is 0. *)
Theorem nonpositive_resolution_is_flat res a v :
  -32766 <= res <= 1 -> pcm_ok a = true ->
  scale res a = Some v -> v = repeat 0 (frame_count a).
Proof.
  intros Hres Hok Hv.
  pose proof (scale_length res a v Hv) as Hlen.
  unfold scale in Hv.
  destruct (normalize (to_mono_f32 a)) as [d|] eqn:Hd; [|discriminate].
  injection Hv as <-. rewrite <- Hlen.
  pose proof (normalize_finite a d Hok Hd) as Hfin.
  clear Hd Hlen. rewrite length_map.
  induction d as [|x d IH]; [reflexivity|].
  inversion Hfin as [|? ? [Hu Hf] Hrest]; subst.
  cbn [map List.length repeat]. rewrite (IH Hrest).
  rewrite (quantize_nonpositive res x Hres Hu); [reflexivity|].
  intros ->. exact Hf.
Qed.

Lemma nonpositive_resolution_is_flat_witness :
  [0; 0; 0] = repeat 0 (frame_count (Mono [-5; 2; 5])).
Proof.
  apply (nonpositive_resolution_is_flat (-100) (Mono [-5; 2; 5]) [0; 0; 0]).
  - lia.
  - reflexivity.
  - vm_compute. reflexivity.
Defined.

(** ** Normalization (lines 28-31) *)

(** X13: no value of an integer PCM file goes through the cast as NaN or
    as an infinity: after normalization every sample is a finite float32
    of magnitude at most one, and for a resolution between 1 and 32768
    its quantized value is the truncation of the affine map, within
    [0, resolution - 1], which neither the wrap of the cast nor the clip
    alters. *)
Theorem pcm_samples_stay_finite res a d x :
  1 <= res <= 32768 -> pcm_ok a = true ->
  normalize (to_mono_f32 a) = Some d -> In x d ->
  finite_or_zero x /\ unit_abs x
  /\ exists t, trunc (affine res x) = Some t /\ 0 <= t <= res - 1
               /\ quantize res x = t.
Proof.
  intros Hres Hok Hd Hx.
  pose proof (proj1 (Forall_forall _ _) (normalize_finite a d Hok Hd) x Hx)
    as [Hu Hf].
  split; [exact Hf|]. split; [exact Hu|].
  apply affine_trunc; [assumption|assumption|].
  intros ->. exact Hf.
Qed.

Lemma pcm_samples_stay_finite_witness :
  exists t, trunc (affine 4096 F32.one) = Some t /\ 0 <= t <= 4096 - 1
            /\ quantize 4096 F32.one = t.
Proof.
  apply (pcm_samples_stay_finite 4096 (Mono [-3; 0; 3])
           [SFopp F32.one; S754_zero false; F32.one] F32.one).
  - lia.
  - reflexivity.
  - vm_compute. reflexivity.
  - right. right. left. reflexivity.
Defined.

(** X14: a mono integer PCM file that is not silent uses an end of the
    range: for a resolution between 1 and 32768 its data array holds the
    value 0 or the value resolution - 1, the image of its loudest
    sample. *)
Theorem loudest_sample_hits_an_end res samples v :
  1 <= res <= 32768 -> pcm_ok (Mono samples) = true ->
  silent (Mono samples) = false ->
  scale res (Mono samples) = Some v -> In 0 v \/ In (res - 1) v.
Proof.
  intros Hres Hok Hsil. unfold scale. cbn [to_mono_f32 pcm_ok silent] in *.
  destruct (normalize (map F32.of_Z samples)) as [d|] eqn:Hd; [|discriminate].
  intros H; injection H as <-.
  destruct (normalize_peak samples d Hok Hsil Hd) as [s Hin].
  apply (in_map (quantize res)) in Hin.
  destruct s.
  - left. rewrite (quantize_minus_one res) in Hin. exact Hin.
  - right. rewrite <- F32_one_eq, (quantize_full_scale res Hres) in Hin. exact Hin.
Qed.

Lemma loudest_sample_hits_an_end_witness :
  In 0 [0; 682; 340] \/ In (1024 - 1) [0; 682; 340].
Proof.
  apply (loudest_sample_hits_an_end 1024 [-9; 3; -3] [0; 682; 340]).
  - lia.
  - reflexivity.
  - reflexivity.
  - vm_compute. reflexivity.
Defined.

(** ** The collapse to mono (lines 25-28) *)

(** X15: a stereo file that carries the same signal on both channels
    converts to the same values as the mono file of that signal, at
    every resolution. *)
Theorem dual_mono_converts_like_mono res samples :
  forallb in_int32 samples = true ->
  scale res (Multi (map (fun z => [z; z]) samples)) = scale res (Mono samples).
Proof.
  intros Hok. unfold scale. cbn [to_mono_f32]. rewrite map_map.
  replace (map (fun z => f64_to_f32 (row_mean [z; z])) samples)
    with (map F32.of_Z samples); [reflexivity|].
  apply map_ext_in. intros z Hz.
  pose proof (proj1 (forallb_forall _ _) Hok z Hz) as Hz32.
  now rewrite (row_mean_twice z Hz32), (f64_to_f32_of_Z z Hz32).
Qed.

Lemma dual_mono_converts_like_mono_witness :
  scale 4096 (Multi (map (fun z => [z; z]) [-7; 0; 7]))
  = scale 4096 (Mono [-7; 0; 7]).
Proof.
  exact (dual_mono_converts_like_mono 4096 [-7; 0; 7] eq_refl).
Defined.

(** X16: the order of the channels within the frames plays no part: a
    file whose frames hold the same samples in another channel order
    converts to the same values. *)
Theorem channel_order_is_irrelevant res frames frames' :
  Forall2 (@Permutation Z) frames frames' -> pcm_ok (Multi frames) = true ->
  scale res (Multi frames') = scale res (Multi frames).
Proof.
  intros Hperm Hok. unfold scale. cbn [to_mono_f32 pcm_ok] in *.
  replace (map (fun row => f64_to_f32 (row_mean row)) frames')
    with (map (fun row => f64_to_f32 (row_mean row)) frames); [reflexivity|].
  induction Hperm as [|row row' frames frames' Hp Hrest IH]; [reflexivity|].
  cbn [forallb] in Hok. apply andb_true_iff in Hok as [Hrow Hok].
  cbn [map]. now rewrite (IH Hok), (row_mean_perm row row' Hp Hrow).
Qed.

Lemma channel_order_is_irrelevant_witness :
  scale 4096 (Multi [[2; 5]; [-4; 1]]) = scale 4096 (Multi [[5; 2]; [1; -4]]).
Proof.
  apply (channel_order_is_irrelevant 4096 [[5; 2]; [1; -4]] [[2; 5]; [-4; 1]]).
  - repeat constructor.
  - reflexivity.
Defined.

(** X17: a multi-channel file whose channels cancel in every frame (their
    sum is zero) converts like silence: for a resolution between 1 and
    65536 every value is floor((resolution - 1) / 2), although the file
    is not silent. *)
Theorem cancelling_channels_convert_to_midpoint res frames :
  1 <= res <= 65536 -> pcm_ok (Multi frames) = true ->
  Forall (fun row => Zsum row = 0) frames ->
  scale res (Multi frames) =
    match frames with
    | [] => None
    | _ :: _ => Some (repeat ((res - 1) / 2) (List.length frames))
    end.
Proof.
  intros Hres Hok Hz. unfold scale. cbn [to_mono_f32 pcm_ok] in *.
  assert (Hmono : map (fun row => f64_to_f32 (row_mean row)) frames
                  = repeat (S754_zero false) (List.length frames)).
  { induction Hz as [|row frames Hrow Hrest IH]; [reflexivity|].
    cbn [forallb] in Hok. apply andb_true_iff in Hok as [Hr Hok].
    cbn [map List.length repeat].
    now rewrite (IH Hok), (row_mean_cancel row Hr Hrow). }
  rewrite Hmono.
  destruct frames as [|row frames]; [reflexivity|].
  cbn [List.length]. rewrite normalize_zeros. f_equal.
  generalize (S (List.length frames)). intros k.
  induction k as [|k IH]; [reflexivity|].
  cbn [repeat map]. now rewrite IH, (quantize_zero res false Hres).
Qed.

Lemma cancelling_channels_convert_to_midpoint_witness :
  scale 4096 (Multi [[1200; -1200]; [-7; 7]]) = Some [2047; 2047].
Proof.
  apply (cancelling_channels_convert_to_midpoint 4096 [[1200; -1200]; [-7; 7]]).
  - lia.
  - reflexivity.
  - repeat constructor.
Defined.

(** ** Constant signals (lines 29-33) *)

(** X18: a mono file that holds one non-zero value throughout (a DC
    level, such as the silence of an unsigned 8-bit file at 128) is
    normalized to full scale: for a resolution between 1 and 32768 every
    value is resolution - 1 when the level is positive and 0 when it is
    negative, not the midpoint. *)
Theorem constant_signal_is_full_scale res c k :
  1 <= res <= 32768 -> in_int32 c = true -> c <> 0 ->
  scale res (Mono (repeat c (S k)))
  = Some (repeat (if c <? 0 then 0 else res - 1) (S k)).
Proof.
  intros Hres Hc Hn. unfold scale. cbn [to_mono_f32].
  rewrite map_repeat, (normalize_constant c k Hc Hn), map_repeat.
  destruct (c <? 0).
  - now rewrite (quantize_minus_one res).
  - now rewrite <- F32_one_eq, (quantize_full_scale res Hres).
Qed.

Lemma constant_signal_is_full_scale_witness :
  scale 4096 (Mono (repeat 128 3)) = Some [4095; 4095; 4095].
Proof.
  exact (constant_signal_is_full_scale 4096 128 2 ltac:(lia) eq_refl
           ltac:(discriminate)).
Defined.

(** ** Gain (lines 25-31) *)

(** X19: a gain by a power of two plays no part: an integer PCM file and
    the file with every sample multiplied by 2^k convert to the same
    values, at every resolution (wavfile.read returns 24-bit samples
    left-justified in int32, that is, multiplied by 2^8). *)
Theorem power_of_two_gain_is_normalized_away res k a :
  pcm_ok (amplify (2 ^ Z.of_nat k) a) = true ->
  scale res (amplify (2 ^ Z.of_nat k) a) = scale res a.
Proof.
  induction k as [|k IH]; intros Hok.
  - change (2 ^ Z.of_nat 0) with 1. now rewrite amplify_one.
  - replace (2 ^ Z.of_nat (S k)) with (2 * 2 ^ Z.of_nat k) in *
      by (rewrite Nat2Z.inj_succ, Z.pow_succ_r by lia; reflexivity).
    rewrite <- amplify_amplify in Hok |- *.
    rewrite (scale_double res _ Hok). apply IH.
    apply pcm_ok_half. assumption.
Qed.

Lemma power_of_two_gain_is_normalized_away_witness :
  scale 4096 (amplify (2 ^ Z.of_nat 8) (Multi [[-3; 1]; [2; 5]]))
  = scale 4096 (Multi [[-3; 1]; [2; 5]]).
Proof.
  exact (power_of_two_gain_is_normalized_away 4096 8 (Multi [[-3; 1]; [2; 5]])
           eq_refl).
Defined.
